(** * Attention Is All You Need: the notebook's positional encoding and model glue

    A shallow embedding of [main.ipynb] (classes [PositionalEncoding] and
    [TransformerModel]) together with the part of the tensor library the
    notebook relies on.

    Conventions of the embedding:
    - a tensor is a strided view (storage, offset, shape, strides) on a flat
      storage kept in the store of the interpreter; slicing, [unsqueeze],
      [transpose] and broadcasting build views on the same storage, while
      arithmetic allocates a fresh storage;
    - a tensor element is a [tfloat]: a real number or one of the special
      values of IEEE arithmetic.  An integer that becomes a 32-bit float is
      rounded to the nearest one ([F32.of_int]): what it becomes is fixed by
      the integer alone.  Operations on finite values are the exact real
      operations: the rounding of their results, overflow and underflow are
      not part of the embedding, so that a statement below gives the value
      the code approximates, and none is about the absence of overflow;
    - Python integers are [Z]; Python exceptions are the [Raise] results of a
      state-and-exception monad [M]. *)

From Stdlib Require Import Reals Lra Lia ZArith List.
From stdpp Require Import base list strings.


(* ===================================================================== *)
(** ** Scalars *)

Module F32.

Inductive tfloat : Type :=
| Fin (r : R)
| PInf
| NInf
| NaN.

#[global] Instance tfloat_inhabited : Inhabited tfloat := populate NaN.

Definition isfinite (x : tfloat) : bool :=
  match x with Fin _ => true | _ => false end.

Definition isnan (x : tfloat) : bool :=
  match x with NaN => true | _ => false end.

Definition isinf (x : tfloat) : bool :=
  match x with PInf | NInf => true | _ => false end.

Definition fneg (x : tfloat) : tfloat :=
  match x with
  | Fin r => Fin (- r)
  | PInf => NInf
  | NInf => PInf
  | NaN => NaN
  end.

Definition fadd (x y : tfloat) : tfloat :=
  match x, y with
  | NaN, _ | _, NaN => NaN
  | Fin a, Fin b => Fin (a + b)
  | PInf, NInf | NInf, PInf => NaN
  | PInf, _ | _, PInf => PInf
  | NInf, _ | _, NInf => NInf
  end.

(** An infinity of sign [pos] multiplied by the finite value [r]. *)
Definition scale_inf (pos : bool) (r : R) : tfloat :=
  if Rlt_dec 0 r then (if pos then PInf else NInf)
  else if Rlt_dec r 0 then (if pos then NInf else PInf)
  else NaN.

Definition fmul (x y : tfloat) : tfloat :=
  match x, y with
  | NaN, _ | _, NaN => NaN
  | Fin a, Fin b => Fin (a * b)
  | PInf, Fin b | Fin b, PInf => scale_inf true b
  | NInf, Fin b | Fin b, NInf => scale_inf false b
  | PInf, PInf | NInf, NInf => PInf
  | PInf, NInf | NInf, PInf => NInf
  end.

Definition fexp (x : tfloat) : tfloat :=
  match x with
  | Fin r => Fin (exp r)
  | PInf => PInf
  | NInf => Fin 0
  | NaN => NaN
  end.

Definition fsin (x : tfloat) : tfloat :=
  match x with Fin r => Fin (sin r) | _ => NaN end.

Definition fcos (x : tfloat) : tfloat :=
  match x with Fin r => Fin (cos r) | _ => NaN end.

Definition fsub (x y : tfloat) : tfloat := fadd x (fneg y).

Definition fmax (x y : tfloat) : tfloat :=
  match x, y with
  | NaN, _ | _, NaN => NaN
  | PInf, _ | _, PInf => PInf
  | NInf, z | z, NInf => z
  | Fin a, Fin b => Fin (Rmax a b)
  end.

Definition fdiv (x y : tfloat) : tfloat :=
  match x, y with
  | NaN, _ | _, NaN => NaN
  | Fin a, Fin b =>
      if Req_dec_T b 0 then
        (if Req_dec_T a 0 then NaN else scale_inf true a)
      else Fin (a / b)
  | Fin _, (PInf | NInf) => Fin 0
  | PInf, Fin b => if Rlt_dec b 0 then NInf else PInf
  | NInf, Fin b => if Rlt_dec b 0 then PInf else NInf
  | (PInf | NInf), (PInf | NInf) => NaN
  end.

Definition fsum (l : list tfloat) : tfloat := foldr fadd (Fin 0) l.

(** The integer a 32-bit float holds in place of [z]: a float has 24
    significant bits, so an integer of at most 24 bits is kept, and a longer
    one is rounded to the nearest multiple of [2^e] (the weight of its
    24th bit), to the even one of the two when it is half way. *)
Definition round_int (z : Z) : Z :=
  let a := Z.abs z in
  let e := (Z.log2 a - 23)%Z in
  if (e <=? 0)%Z then z
  else
    let q := (a / 2 ^ e)%Z in
    let r := (a mod 2 ^ e)%Z in
    let half := (2 ^ (e - 1))%Z in
    let q' := if (half <? r)%Z || ((r =? half)%Z && Z.odd q)
              then (q + 1)%Z else q in
    (Z.sgn z * (q' * 2 ^ e))%Z.

(** The conversion of an integer to a 32-bit float (a 64-bit integer is far
    below the largest float). *)
Definition of_int (z : Z) : tfloat := Fin (IZR (round_int z)).

(** [z] is a 32-bit float: the conversion keeps it.  Every integer up to
    [2^24] is, and every even one up to [2^25]. *)
Definition representable (z : Z) : Prop := round_int z = z.

End F32.
Export F32.

(* ===================================================================== *)
(** ** The interpreter: store, exceptions, monad *)

Module Py.

Inductive exn : Type :=
| RuntimeError
| ZeroDivisionError
| IndexError
| ValueError.

Inductive result (A : Type) : Type :=
| Ok (a : A)
| Raise (e : exn).
Arguments Ok {A} a.
Arguments Raise {A} e.

(** The store: the storages allocated so far (a storage is addressed by its
    position) and the state of the global random number generator. *)
Record World : Type := mkWorld {
  storages : list (list tfloat);
  rng : nat
}.

(** A computation runs in a store and ends with a value or an exception; the
    store survives an exception. *)
Definition M (A : Type) : Type := World -> result A * World.

Definition ret {A} (a : A) : M A := fun w => (Ok a, w).

Definition raise {A} (e : exn) : M A := fun w => (Raise e, w).

Definition bind {A B} (c : M A) (k : A -> M B) : M B :=
  fun w =>
    match c w with
    | (Ok a, w') => k a w'
    | (Raise e, w') => (Raise e, w')
    end.

(** [a / b] for a Python float [a] and a Python integer [b]. *)
Definition truediv (a : R) (b : Z) : M R :=
  if (b =? 0)%Z then raise ZeroDivisionError else ret (a / IZR b)%R.

(** [math.sqrt] on a Python integer. *)
Definition math_sqrt (z : Z) : M R :=
  if (z <? 0)%Z then raise ValueError else ret (sqrt (IZR z)).

(** [math.log] on a positive Python float. *)
Definition math_log (x : R) : R := ln x.

End Py.
Export Py.

Notation "x <- c ;; k" := (bind c (fun x => k))
  (at level 20, c at level 99, k at level 200, format "x  <-  c ;;  '/' k").
Notation "c ;;; k" := (bind c (fun _ => k))
  (at level 20, k at level 200, format "c ;;;  '/' k").

(* ===================================================================== *)
(** ** The tensor library *)

Module Torch.

(** A tensor is a view on a storage: element [idx] of the view lives at
    position [offset + sum (idx_k * strides_k)] of the storage. *)
Record Tensor : Type := mkTensor {
  storage : nat;
  offset : nat;
  shape : list nat;
  strides : list nat
}.

Definition numel (s : list nat) : nat := foldr Nat.mul 1 s.

(** Strides of a freshly allocated (row-major) tensor of shape [s]. *)
Fixpoint contiguous (s : list nat) : list nat :=
  match s with
  | [] => []
  | _ :: s' => numel s' :: contiguous s'
  end.

(** All the indices of a tensor of shape [s], in row-major order. *)
Fixpoint indices (s : list nat) : list (list nat) :=
  match s with
  | [] => [[]]
  | n :: s' => seq 0 n ≫= fun i => cons i <$> indices s'
  end.

Fixpoint dot (idx st : list nat) : nat :=
  match idx, st with
  | i :: idx', k :: st' => i * k + dot idx' st'
  | _, _ => 0
  end.

Definition addr (t : Tensor) (idx : list nat) : nat :=
  offset t + dot idx (strides t).

(** Reading one element. *)
Definition get (w : World) (t : Tensor) (idx : list nat) : tfloat :=
  default NaN (storages w !! storage t ≫= fun st => st !! addr t idx).

(** Reading all the elements, in row-major order. *)
Definition to_list (w : World) (t : Tensor) : list tfloat :=
  get w t <$> indices (shape t).

Definition alloc (w : World) (vs : list tfloat) : World :=
  {| storages := storages w ++ [vs]; rng := rng w |}.

Definition store (w : World) (t : Tensor) (idx : list nat) (v : tfloat) : World :=
  {| storages := alter (fun st => <[addr t idx := v]> st) (storage t) (storages w);
     rng := rng w |}.

(** A fresh tensor of shape [s] whose element [idx] is [g idx]. *)
Definition tensor_new (s : list nat) (g : list nat -> tfloat) : M Tensor :=
  fun w =>
    (Ok {| storage := length (storages w); offset := 0;
           shape := s; strides := contiguous s |},
     alloc w (g <$> indices s)).

(** [torch.zeros(n0, n1, ...)] *)
Definition zeros (sizes : list Z) : M Tensor :=
  if forallb (Z.leb 0) sizes
  then tensor_new (Z.to_nat <$> sizes) (fun _ => Fin 0)
  else raise RuntimeError.

(** [torch.arange(start, end, step)], as a tensor of 32-bit floats: element
    [i] is the integer [start + i * step] converted to a float.  The
    notebook builds one range with [dtype=torch.float] and converts the other
    with [.float()] before any use, so both are produced as floats at once.
    (Past [2^24] the library fills a range made with [dtype=torch.float]
    block by block, from the float of the first element of the block; the
    statements below read such a range up to its element [2^24 + 1] only,
    where this makes no difference.) *)
Definition arange (start end_ step : Z) : M Tensor :=
  if (step =? 0)%Z then raise RuntimeError
  else if ((0 <? step)%Z && (end_ <? start)%Z) || ((step <? 0)%Z && (start <? end_)%Z)
  then raise RuntimeError
  else tensor_new [Z.to_nat (- ((start - end_) / step))]
         (fun idx => of_int (start + Z.of_nat (hd 0 idx) * step)).

(** [t.float()] on a tensor that already holds floats. *)
Definition float (t : Tensor) : M Tensor := ret t.

(** [t.size(dim)] *)
Definition size (t : Tensor) (dim : nat) : M nat :=
  match shape t !! dim with
  | Some n => ret n
  | None => raise IndexError
  end.

(** [t.unsqueeze(dim)]: a view with a dimension of size one inserted. *)
Definition unsqueeze (dim : nat) (t : Tensor) : M Tensor :=
  if dim <=? length (shape t) then
    let k := match shape t !! dim, strides t !! dim with
             | Some n, Some st => n * st
             | _, _ => 1
             end in
    ret {| storage := storage t; offset := offset t;
           shape := take dim (shape t) ++ 1 :: drop dim (shape t);
           strides := take dim (strides t) ++ k :: drop dim (strides t) |}
  else raise IndexError.

(** [t.transpose(dim0, dim1)]: a view with two dimensions swapped. *)
Definition transpose (dim0 dim1 : nat) (t : Tensor) : M Tensor :=
  match shape t !! dim0, shape t !! dim1, strides t !! dim0, strides t !! dim1 with
  | Some n0, Some n1, Some s0, Some s1 =>
      ret {| storage := storage t; offset := offset t;
             shape := <[dim0 := n1]> (<[dim1 := n0]> (shape t));
             strides := <[dim0 := s1]> (<[dim1 := s0]> (strides t)) |}
  | _, _, _, _ => raise IndexError
  end.

(** The slice [start:stop:step] along dimension [dim] (bounds are clamped to
    the size of the dimension, as Python slices are). *)
Definition slice (dim start : nat) (stop : option nat) (step : nat) (t : Tensor)
  : M Tensor :=
  if step =? 0 then raise ValueError
  else
    match shape t !! dim, strides t !! dim with
    | Some n, Some st =>
        let b := start `min` n in
        let e := (default n stop `min` n) `max` b in
        ret {| storage := storage t; offset := offset t + b * st;
               shape := <[dim := (e - b + step - 1) `div` step]> (shape t);
               strides := <[dim := st * step]> (strides t) |}
    | _, _ => raise IndexError
    end.

(** Broadcasting.  Shapes are aligned on their last dimension; [expand_rev]
    and [broadcast_rev] work on reversed lists. *)
Fixpoint expand_rev (sh st target : list nat) : option (list nat) :=
  match target with
  | [] => match sh with [] => Some [] | _ :: _ => None end
  | n :: target' =>
      match sh, st with
      | [], _ => cons 0 <$> expand_rev [] [] target'
      | m :: sh', k :: st' =>
          if m =? n then cons k <$> expand_rev sh' st' target'
          else if m =? 1 then cons 0 <$> expand_rev sh' st' target'
          else None
      | _ :: _, [] => None
      end
  end.

(** [t.expand(target)]: the view of shape [target] that repeats [t] along
    the dimensions where [t] has size one. *)
Definition expand (t : Tensor) (target : list nat) : option Tensor :=
  st ← expand_rev (rev (shape t)) (rev (strides t)) (rev target);
  Some {| storage := storage t; offset := offset t;
          shape := target; strides := rev st |}.

Fixpoint broadcast_rev (a b : list nat) : option (list nat) :=
  match a, b with
  | [], _ => Some b
  | _, [] => Some a
  | x :: a', y :: b' =>
      if x =? y then cons x <$> broadcast_rev a' b'
      else if x =? 1 then cons y <$> broadcast_rev a' b'
      else if y =? 1 then cons x <$> broadcast_rev a' b'
      else None
  end.

Definition broadcast_shapes (a b : list nat) : option (list nat) :=
  (fun s => rev s) <$> broadcast_rev (rev a) (rev b).

(** An elementwise operation with one tensor operand. *)
Definition unary (f : tfloat -> tfloat) (t : Tensor) : M Tensor :=
  fun w => tensor_new (shape t) (fun idx => f (get w t idx)) w.

(** An elementwise operation with two tensor operands, broadcast against
    each other.  The result is a fresh tensor, laid out row-major here; the
    library may lay it out as a transposed operand is.  The statements
    below read a result by its indices, and none is about its strides. *)
Definition binary (f : tfloat -> tfloat -> tfloat) (a b : Tensor) : M Tensor :=
  match broadcast_shapes (shape a) (shape b) with
  | Some s =>
      match expand a s, expand b s with
      | Some a', Some b' =>
          fun w => tensor_new s (fun idx => f (get w a' idx) (get w b' idx)) w
      | _, _ => raise RuntimeError
      end
  | None => raise RuntimeError
  end.

Definition exp (t : Tensor) : M Tensor := unary fexp t.
Definition sin (t : Tensor) : M Tensor := unary fsin t.
Definition cos (t : Tensor) : M Tensor := unary fcos t.
Definition mul (a b : Tensor) : M Tensor := binary fmul a b.
Definition add (a b : Tensor) : M Tensor := binary fadd a b.

(** [t * c] for a Python float [c]. *)
Definition mul_scalar (t : Tensor) (c : R) : M Tensor :=
  unary (fun v => fmul v (Fin c)) t.

(** [dst.copy_(src)], the assignment behind [dst[...] = src]: [src] is
    broadcast to the shape of the view [dst] and written through it. *)
Definition copy_ (dst src : Tensor) : M unit :=
  match expand src (shape dst) with
  | Some src' =>
      fun w =>
        (Ok tt,
         foldl (fun w' idx => store w' dst idx (get w src' idx)) w
           (indices (shape dst)))
  | None => raise RuntimeError
  end.

End Torch.
Export Torch(Tensor, mkTensor, storage, offset, shape, strides, get, to_list).

(* ===================================================================== *)
(** ** The layers the notebook takes from [torch.nn]

    [nn.Embedding], [nn.TransformerEncoderLayer], [nn.TransformerEncoder] and
    [nn.Linear] are not code of the notebook.  They are an interface here;
    [LayersSpec] states the part of their documented behaviour the notebook
    depends on (the shapes they return).  The encoder stack is only
    promised to return when it has at least one layer and its input is not
    empty: a stack built with [nlayers <= 0] has no layer to run. *)

Module NN.

Class Layers : Type := {
  Embedding : Type;
  TransformerEncoderLayer : Type;
  TransformerEncoder : Type;
  Linear : Type;
  (* constructors *)
  nn_Embedding : Z -> Z -> M Embedding;
  nn_TransformerEncoderLayer : Z -> Z -> Z -> R -> M TransformerEncoderLayer;
  nn_TransformerEncoder : TransformerEncoderLayer -> Z -> M TransformerEncoder;
  nn_Linear : Z -> Z -> M Linear;
  (* parameters *)
  Embedding_weight : Embedding -> Tensor;
  Linear_weight : Linear -> Tensor;
  Linear_bias : Linear -> Tensor;
  (* in-place initialisers; [uniform_] draws from the generator *)
  uniform_ : Tensor -> R -> R -> M unit;
  zero_ : Tensor -> M unit;
  (* forward passes *)
  Embedding_forward : Embedding -> Tensor -> M Tensor;
  TransformerEncoder_forward : TransformerEncoder -> Tensor -> Tensor -> M Tensor;
  Linear_forward : Linear -> Tensor -> M Tensor
}.

(** Every element of the integer tensor [src] is a token id below [ntoken]. *)
Definition tokens_in_range (w : World) (src : Tensor) (ntoken : Z) : Prop :=
  forall idx, idx ∈ Torch.indices (shape src) ->
    exists z : Z, get w src idx = Fin (IZR z) /\ (0 <= z < ntoken)%Z.

Class LayersSpec (L : Layers) : Prop := {
  Embedding_forward_shape :
    forall ntoken d w0 e w1, nn_Embedding ntoken d w0 = (Ok e, w1) ->
    forall w src n b, shape src = [n; b] -> tokens_in_range w src ntoken ->
    exists out w', Embedding_forward e src w = (Ok out, w')
                   /\ shape out = [n; b; Z.to_nat d];
  TransformerEncoder_forward_shape :
    forall d nhead nhid dropout nlayers w0 l w1 w2 enc w3,
    nn_TransformerEncoderLayer d nhead nhid dropout w0 = (Ok l, w1) ->
    nn_TransformerEncoder l nlayers w2 = (Ok enc, w3) ->
    (1 <= nlayers)%Z ->
    forall w x mask n b, 0 < n -> 0 < b ->
    shape x = [n; b; Z.to_nat d] -> shape mask = [n; n] ->
    exists out w', TransformerEncoder_forward enc x mask w = (Ok out, w')
                   /\ shape out = [n; b; Z.to_nat d];
  Linear_forward_shape :
    forall d_in d_out w0 lin w1, nn_Linear d_in d_out w0 = (Ok lin, w1) ->
    forall w x n b, shape x = [n; b; Z.to_nat d_in] ->
    exists out w', Linear_forward lin x w = (Ok out, w')
                   /\ shape out = [n; b; Z.to_nat d_out]
}.

End NN.
Export NN.

(* ===================================================================== *)
(** ** The notebook *)

Module PositionalEncoding.

(** The module object: its one buffer, registered under the name [pe]. *)
Record t : Type := mk { pe : Tensor }.

(** [PositionalEncoding.__init__(self, d_model, max_len=5000)] *)
Definition __init__ (d_model : Z) (max_len : option Z) : M t :=
  let max_len := default 5000%Z max_len in
  pe <- Torch.zeros [max_len; d_model] ;;
  position <- (a <- Torch.arange 0 max_len 1 ;; Torch.unsqueeze 1 a) ;;
  div_term <- (a <- Torch.arange 0 d_model 2 ;;
               a <- Torch.float a ;;
               c <- truediv (- math_log 10000) d_model ;;
               b <- Torch.mul_scalar a c ;;
               Torch.exp b) ;;
  (* pe[:, 0::2] = torch.sin(position * div_term) *)
  (v <- (a <- Torch.mul position div_term ;; Torch.sin a) ;;
   dst <- (s <- Torch.slice 0 0 None 1 pe ;; Torch.slice 1 0 None 2 s) ;;
   Torch.copy_ dst v) ;;;
  (* pe[:, 1::2] = torch.cos(position * div_term) *)
  (v <- (a <- Torch.mul position div_term ;; Torch.cos a) ;;
   dst <- (s <- Torch.slice 0 0 None 1 pe ;; Torch.slice 1 1 None 2 s) ;;
   Torch.copy_ dst v) ;;;
  pe <- (a <- Torch.unsqueeze 0 pe ;; Torch.transpose 0 1 a) ;;
  ret {| pe := pe |}.

(** [PositionalEncoding.forward(self, x)]: [x + self.pe[:x.size(0), :]] *)
Definition forward (self : t) (x : Tensor) : M Tensor :=
  n <- Torch.size x 0 ;;
  v <- (s <- Torch.slice 0 0 (Some n) 1 (pe self) ;; Torch.slice 1 0 None 1 s) ;;
  Torch.add x v.

End PositionalEncoding.

Module TransformerModel.
Section WithLayers.
Context {L : Layers}.

Record t : Type := mk {
  model_type : string;
  pos_encoder : PositionalEncoding.t;
  transformer_encoder : TransformerEncoder;
  encoder : Embedding;
  d_model : Z;
  decoder : Linear
}.

Definition init_weights (self : t) : M unit :=
  let initrange := (1 / 10)%R in
  uniform_ (Embedding_weight (encoder self)) (- initrange) initrange ;;;
  zero_ (Linear_bias (decoder self)) ;;;
  uniform_ (Linear_weight (decoder self)) (- initrange) initrange.

(** [TransformerModel.__init__(self, ntoken, d_model, nhead, nhid, nlayers,
    dropout=0.5)] *)
Definition __init__ (ntoken d_model nhead nhid nlayers : Z) (dropout : option R)
  : M t :=
  let dropout := default (1 / 2)%R dropout in
  pos_encoder <- PositionalEncoding.__init__ d_model None ;;
  encoder_layers <- nn_TransformerEncoderLayer d_model nhead nhid dropout ;;
  transformer_encoder <- nn_TransformerEncoder encoder_layers nlayers ;;
  encoder <- nn_Embedding ntoken d_model ;;
  decoder <- nn_Linear d_model ntoken ;;
  let self := {| model_type := "Transformer"; pos_encoder := pos_encoder;
                 transformer_encoder := transformer_encoder;
                 encoder := encoder; d_model := d_model; decoder := decoder |} in
  init_weights self ;;;
  ret self.

(** [TransformerModel.forward(self, src, src_mask)] *)
Definition forward (self : t) (src src_mask : Tensor) : M Tensor :=
  src <- (e <- Embedding_forward (encoder self) src ;;
          c <- math_sqrt (d_model self) ;;
          Torch.mul_scalar e c) ;;
  src <- PositionalEncoding.forward (pos_encoder self) src ;;
  output <- TransformerEncoder_forward (transformer_encoder self) src src_mask ;;
  output <- Linear_forward (decoder self) output ;;
  ret output.

End WithLayers.
End TransformerModel.

(* ===================================================================== *)
(** ** Notions used in the statements *)

Module Aux.
Import Torch.

(** [idx] is a valid index of a tensor of shape [s]. *)
Definition inbounds (idx s : list nat) : Prop := Forall2 lt idx s.

(** The storage [st] after the writes of [copy_]: element [idx] of the view
    [dst] receives [f idx], for the indices [l] in turn. *)
Definition write_all (f : list nat -> tfloat) (dst : Tensor)
  (l : list (list nat)) (st : list tfloat) : list tfloat :=
  foldl (fun st idx => <[addr dst idx := f idx]> st) st l.

(** The store after [dst.copy_(src)], where [f idx] is element [idx] of the
    broadcast source. *)
Definition written (w : World) (dst : Tensor) (f : list nat -> tfloat) : World :=
  {| storages := alter (write_all f dst (indices (shape dst))) (storage dst)
                   (storages w);
     rng := rng w |}.

(** [w'] is [w] with more storages: nothing [w] holds was written to, and
    no random number was drawn. *)
Definition extends (w w' : World) : Prop :=
  rng w' = rng w /\ exists ext, storages w' = storages w ++ ext.

(** A computation that only allocates: whatever it returns or raises, the
    store it leaves extends the store it started in. *)
Definition allocates {A} (c : M A) : Prop :=
  forall w, extends w (snd (c w)).

(** The angle the notebook computes for position [p] and frequency [i]:
    the float of the position times the exponential of the float of [2i]
    scaled by [-ln 10000 / d_model]. *)
Definition angle (d_model : Z) (p i : nat) : R :=
  (IZR (round_int (0 + Z.of_nat p * 1))
   * Rtrigo_def.exp (IZR (round_int (0 + Z.of_nat i * 2))
                     * (- ln 10000 / IZR d_model)))%R.

(** The tensor registered as the buffer [pe]. *)
Definition pe_view (n0 m dn : nat) : Tensor :=
  mkTensor n0 0 [m; 1; dn] [dn * 1; m * (dn * 1); 1].

(** What [__init__] leaves in column [k] of line [p] of the table. *)
Definition encoding (d_model : Z) (p k : nat) : tfloat :=
  Fin (if Nat.even k then Rtrigo_def.sin (angle d_model p (k / 2))
       else Rtrigo_def.cos (angle d_model p (k / 2))).

(** Entry [(p, k)] of the table of a module: the buffer [pe] has a middle
    dimension of size one, left by [unsqueeze(0).transpose(0, 1)]. *)
Definition table (w : World) (self : PositionalEncoding.t) (p k : nat) : tfloat :=
  get w (PositionalEncoding.pe self) [p; 0; k].

(** The store after the forward passes on the inputs [xs], one after the
    other, whatever each of them returns or raises. *)
Definition forward_all (self : PositionalEncoding.t) (xs : list Tensor)
  (w : World) : World :=
  foldl (fun w x => snd (PositionalEncoding.forward self x w)) w xs.

(** The storage of [t] holds in [w'] what it holds in [w]. *)
Definition same_storage (w w' : World) (t : Tensor) : Prop :=
  storages w' !! storage t = storages w !! storage t.

(** A tensor whose shape and strides have the same rank. *)
Definition wf (t : Tensor) : Prop := length (strides t) = length (shape t).

(** The positional encoding of the specification, by a direct power:
    [table[p, 2i] = sin(p * 10000^(-(2i/d)))] and
    [table[p, 2i+1] = cos(p * 10000^(-(2i/d)))]. *)
Definition direct_power_factor (model_dimension : Z) (i : nat) : R :=
  Rpower 10000 (- (2 * INR i / IZR model_dimension)).

Definition positional_encoding_direct (model_dimension : Z) (p k : nat) : R :=
  let a := (INR p * direct_power_factor model_dimension (k / 2))%R in
  if Nat.even k then Rtrigo_def.sin a else Rtrigo_def.cos a.

(** A value that is a real number between -1 and 1. *)
Definition in_unit_range (v : tfloat) : Prop :=
  match v with Fin r => (-1 <= r <= 1)%R | _ => False end.

(** How a computation ended: with a value ([None]) or with an exception. *)
Definition raised {A} (r : result A * World) : option exn :=
  match r with (Ok _, _) => None | (Raise e, _) => Some e end.

(** The empty store a fresh interpreter starts in. *)
Definition empty_world : World := {| storages := []; rng := 0 |}.

End Aux.
Export Aux.

(* ===================================================================== *)
(** ** An instance of the layers

    The least model of [Layers]: every weight is zero, the embedding does not
    look at the token values, and the encoder stack is the identity.  It
    shows that [LayersSpec] can be met, and gives the statements about
    [TransformerModel] concrete runs. *)

Module ZeroLayers.

Definition embedding_forward (cfg : Z * Z * Tensor) (src : Tensor) : M Tensor :=
  match shape src with
  | [n; b] => Torch.tensor_new [n; b; Z.to_nat cfg.1.2] (fun _ => Fin 0)
  | _ => raise RuntimeError
  end.

Definition linear_forward (cfg : Z * Z * Tensor * Tensor) (x : Tensor) : M Tensor :=
  match shape x with
  | [n; b; _] => Torch.tensor_new [n; b; Z.to_nat cfg.1.1.2] (fun _ => Fin 0)
  | _ => raise RuntimeError
  end.

(** Drawing from the generator moves it to its next state. *)
Definition draw : M unit :=
  fun w => (Ok tt, {| storages := storages w; rng := S (rng w) |}).

#[local] Instance layers : Layers := {|
  Embedding := Z * Z * Tensor;
  TransformerEncoderLayer := unit;
  TransformerEncoder := unit;
  Linear := Z * Z * Tensor * Tensor;
  nn_Embedding ntoken d :=
    (weight <- Torch.zeros [ntoken; d] ;; ret (ntoken, d, weight));
  nn_TransformerEncoderLayer _ _ _ _ := ret tt;
  nn_TransformerEncoder _ _ := ret tt;
  nn_Linear d_in d_out :=
    (weight <- Torch.zeros [d_out; d_in] ;;
     bias <- Torch.zeros [d_out] ;;
     ret (d_in, d_out, weight, bias));
  Embedding_weight cfg := cfg.2;
  Linear_weight cfg := cfg.1.2;
  Linear_bias cfg := cfg.2;
  uniform_ _ _ _ := draw;
  zero_ _ := ret tt;
  Embedding_forward := embedding_forward;
  TransformerEncoder_forward _ x _ := ret x;
  Linear_forward := linear_forward
|}.

End ZeroLayers.

(* ===================================================================== *)
(** ** Scaled dot-product attention

    The notebook has no attention code of its own: it takes attention from
    [nn.TransformerEncoderLayer], and the notes only give the formula
    [Attention(Q, K, V) = softmax(Q K^T / sqrt(d_k)) V].  The operation is
    modelled from section 4.1 of the specification. *)

Module AttentionMath.

Inductive error : Type :=
| ShapeMismatch
| InvalidDimension.

(** A numeric matrix: its two dimensions and its entries. *)
Record Matrix (A : Type) : Type := mkMatrix {
  rows : nat;
  cols : nat;
  at_ : nat -> nat -> A
}.
Arguments mkMatrix {A} rows cols at_.
Arguments rows {A} m.
Arguments cols {A} m.
Arguments at_ {A} m i j.

Definition sum_R (l : list R) : R := foldr Rplus 0%R l.

(** Modelled from the spec: [scores = Q·K^T / sqrt(d_k)], and a masked entry
    (mask true: disallowed pair) is set to negative infinity. *)
Definition score (Q K : Matrix R) (mask : option (Matrix bool)) (i j : nat) : tfloat :=
  let masked := match mask with Some m => at_ m i j | None => false end in
  if masked then NInf
  else Fin (sum_R ((fun k => at_ Q i k * at_ K j k)%R <$> seq 0 (cols Q))
            / sqrt (INR (cols Q))).

(** Modelled from the spec: softmax of one row of scores, subtracting the
    maximum of the row before exponentiating. *)
Definition softmax (row : list tfloat) : list tfloat :=
  let mx := foldr fmax NInf row in
  let es := (fun s => fexp (fsub s mx)) <$> row in
  let total := fsum es in
  (fun e => fdiv e total) <$> es.

(** Modelled from the spec: [scaled_dot_product_attention(Q, K, V, mask?)],
    which returns [(output, weights)], both as lists of rows;
    [output = weights·V]. *)
Definition scaled_dot_product_attention
  (Q K V : Matrix R) (mask : option (Matrix bool))
  : error + (list (list tfloat) * list (list tfloat)) :=
  if negb (cols Q =? cols K) then inl ShapeMismatch
  else if cols Q =? 0 then inl InvalidDimension
  else if match mask with
          | Some m => negb ((rows m =? rows Q) && (cols m =? rows K))
          | None => false
          end
  then inl ShapeMismatch
  else
    let weights :=
      (fun i => softmax ((fun j => score Q K mask i j) <$> seq 0 (rows K)))
        <$> seq 0 (rows Q) in
    let output :=
      (fun w_i =>
         (fun l =>
            fsum ((fun j => fmul (w_i !!! j) (Fin (at_ V j l))) <$> seq 0 (rows K)))
           <$> seq 0 (cols V))
        <$> weights in
    inr (output, weights).

(** A score: a real number, or the negative infinity of a masked pair. *)
Definition is_score (v : tfloat) : Prop :=
  match v with Fin _ | NInf => True | _ => False end.

(** A row of weights is a probability distribution. *)
Definition stochastic (row : list tfloat) : Prop :=
  Forall (fun v => exists r, v = Fin r /\ (0 <= r <= 1)%R) row
  /\ fsum row = Fin 1.

(** Query [i] may attend to key [j]. *)
Definition allowed (mask : option (Matrix bool)) (i j : nat) : Prop :=
  match mask with Some m => at_ m i j = false | None => True end.

End AttentionMath.

(* ===================================================================== *)
(** ** The learning-rate schedule of the notes

    [lrate = d_model**-0.5 * min(step_num**-0.5, step_num * warmup_steps**-1.5)]

    The three names are Python integers.  As for tensors, floats are real
    numbers here: the embedding has neither the OverflowError of an integer
    too large for a float, nor the rounding of a result, nor its underflow
    to 0.0.  The statements below give the exact values, and those about
    exceptions or strict inequalities are limited to arguments for which
    Python's floats do none of this. *)

Module Schedule.

Inductive error : Type :=
| ZeroDivisionError
| TypeError.

(** A Python number: a float, or the complex number that a negative base
    raised to a fractional power is. *)
Inductive number : Type :=
| Float (r : R)
| Complex (re im : R).

(** The integers Python converts to a float: from [2^1024 - 2^970] on, the
    conversion raises OverflowError. *)
Definition fits_float (z : Z) : Prop := (Z.abs z < 2 ^ 1024 - 2 ^ 970)%Z.

(** [x ** y] for an integer [x] that fits a float and a float [y] that is not
    an integer, as the two exponents of the formula are. *)
Definition pow (x : Z) (y : R) : error + number :=
  if (0 <? x)%Z then inr (Float (Rpower (IZR x) y))
  else if (x =? 0)%Z then
    (if Rlt_dec y 0 then inl ZeroDivisionError else inr (Float 0))
  else
    inr (Complex (Rpower (IZR (- x)) y * Rtrigo_def.cos (PI * y))
                 (Rpower (IZR (- x)) y * Rtrigo_def.sin (PI * y))).

(** [n * v] for an integer [n]. *)
Definition mul_int (n : Z) (v : number) : number :=
  match v with
  | Float r => Float (IZR n * r)
  | Complex a b => Complex (IZR n * a) (IZR n * b)
  end.

Definition mul (u v : number) : number :=
  match u, v with
  | Float a, Float b => Float (a * b)
  | Float a, Complex c d => Complex (a * c) (a * d)
  | Complex a b, Float c => Complex (a * c) (b * c)
  | Complex a b, Complex c d => Complex (a * c - b * d) (a * d + b * c)
  end.

(** [min(u, v)]: the second argument when it is less than the first, else
    the first; complex numbers are not ordered. *)
Definition min (u v : number) : error + number :=
  match u, v with
  | Float a, Float b => inr (Float (if Rlt_dec b a then b else a))
  | _, _ => inl TypeError
  end.

Definition lrate (d_model step_num warmup_steps : Z) : error + number :=
  match pow d_model (-0.5) with
  | inl e => inl e
  | inr a =>
      match pow step_num (-0.5) with
      | inl e => inl e
      | inr b =>
          match pow warmup_steps (-1.5) with
          | inl e => inl e
          | inr c =>
              match min b (mul_int step_num c) with
              | inl e => inl e
              | inr m => inr (mul a m)
              end
          end
      end
  end.

End Schedule.

(* ===================================================================== *)
(** ** Further notions used in the statements *)

Module Aux2.
Import Torch.

(** The sum of the squares of line [p] of the table, over its [dn] columns. *)
Definition row_sq_norm (w : World) (self : PositionalEncoding.t) (p dn : nat)
  : tfloat :=
  fsum ((fun k => fmul (table w self p k) (table w self p k)) <$> seq 0 dn).

(** A computation keeps the storages below [n]: whatever it returns or
    raises, it draws no random number, frees no storage, and leaves the
    storages that had a position below [n] as they were. *)
Definition keeps {A} (n : nat) (c : M A) : Prop :=
  forall w, n <= length (storages w) ->
    rng (snd (c w)) = rng w
    /\ length (storages w) <= length (storages (snd (c w)))
    /\ forall l, l < n -> storages (snd (c w)) !! l = storages w !! l.

(** A computation spares the storages below [n]: whatever it returns or
    raises, it frees no storage and leaves the storages that had a position
    below [n] as they were (it may draw random numbers). *)
Definition spares {A} (n : nat) (c : M A) : Prop :=
  forall w, n <= length (storages w) ->
    length (storages w) <= length (storages (snd (c w)))
    /\ forall l, l < n -> storages (snd (c w)) !! l = storages w !! l.

(** What the construction of a model needs of the constructors and in-place
    initialisers of [torch.nn]: a constructor writes to no storage that
    existed before it, the parameters it returns live in storages of their
    own, and an initialiser writes only to the storage of its argument. *)
Class LayersFrame (L : Layers) : Prop := {
  nn_TransformerEncoderLayer_spares :
    forall d nhead nhid dropout n,
      spares n (nn_TransformerEncoderLayer d nhead nhid dropout);
  nn_TransformerEncoder_spares :
    forall l nlayers n, spares n (nn_TransformerEncoder l nlayers);
  nn_Embedding_spares :
    forall ntoken d n, spares n (nn_Embedding ntoken d);
  nn_Linear_spares :
    forall d_in d_out n, spares n (nn_Linear d_in d_out);
  nn_Embedding_fresh :
    forall ntoken d w e w', nn_Embedding ntoken d w = (Ok e, w') ->
      length (storages w) <= storage (Embedding_weight e);
  nn_Linear_fresh :
    forall d_in d_out w lin w', nn_Linear d_in d_out w = (Ok lin, w') ->
      length (storages w) <= storage (Linear_weight lin)
      /\ length (storages w) <= storage (Linear_bias lin);
  uniform_spares :
    forall t lo hi n, n <= storage t -> spares n (uniform_ t lo hi);
  zero_spares :
    forall t n, n <= storage t -> spares n (zero_ t)
}.

End Aux2.
Export Aux2.

(* ===================================================================== *)
(** * Properties *)

(** ** Indices and row-major addressing *)

Section Indexing.
Import Torch.

Lemma indices_cons (n : nat) (s : list nat) :
  indices (n :: s) = seq 0 n ≫= fun i => cons i <$> indices s.
Proof. reflexivity. Qed.

Lemma length_indices (s : list nat) : length (indices s) = numel s.
Proof.
  induction s as [|n s IH]; [done|]. rewrite indices_cons.
  assert (G : forall l : list nat,
    length (l ≫= fun i => cons i <$> indices s) = length l * numel s).
  { induction l as [|a l IHl]; [done|].
    change ((a :: l) ≫= fun i => cons i <$> indices s)
      with ((cons a <$> indices s) ++ (l ≫= fun i => cons i <$> indices s)).
    rewrite length_app, length_fmap, IHl, IH. simpl. lia. }
  rewrite G, length_seq. done.
Qed.

Lemma elem_of_indices (idx s : list nat) : idx ∈ indices s <-> inbounds idx s.
Proof.
  unfold inbounds. revert idx. induction s as [|n s IH]; intros idx.
  - simpl. rewrite list_elem_of_singleton. split; [intros ->; constructor|].
    by inversion 1.
  - rewrite indices_cons, list_elem_of_bind. split.
    + intros (i & Hin & Hi). apply list_elem_of_fmap in Hin as (r & -> & Hr).
      apply elem_of_seq in Hi. constructor; [lia|]. by apply IH.
    + inversion 1 as [|i ? r ? Hi Hr]; subst. exists i. split.
      * apply list_elem_of_fmap. exists r. split; [done|]. by apply IH.
      * apply elem_of_seq. lia.
Qed.

Lemma dot_contiguous_lt (idx s : list nat) :
  inbounds idx s -> dot idx (contiguous s) < numel s.
Proof.
  induction 1 as [|i n idx s Hi _ IH]; simpl; [lia|]. nia.
Qed.

Lemma lookup_bind_block {A B} (f : A -> list B) (k : nat) (l : list A) i j x :
  (forall a, length (f a) = k) -> l !! i = Some x -> j < k ->
  (l ≫= f) !! (i * k + j) = f x !! j.
Proof.
  intros Hlen. revert i. induction l as [|a l IH]; intros i Hi Hj; [done|].
  change ((a :: l) ≫= f) with (f a ++ (l ≫= f)).
  destruct i as [|i]; simpl in Hi |- *.
  - injection Hi as ->. rewrite lookup_app_l; [done|]. rewrite Hlen. done.
  - rewrite lookup_app_r; rewrite Hlen; [|lia].
    replace (k + i * k + j - k) with (i * k + j) by lia. by apply IH.
Qed.

Lemma lookup_indices (idx s : list nat) :
  inbounds idx s -> indices s !! dot idx (contiguous s) = Some idx.
Proof.
  induction 1 as [|i n idx s Hi Hb IH]; [done|].
  rewrite indices_cons. cbn [contiguous dot].
  rewrite (lookup_bind_block _ (numel s) _ i _ i).
  - rewrite list_lookup_fmap, IH. done.
  - intros a. rewrite length_fmap. apply length_indices.
  - rewrite lookup_seq_lt; [done|lia].
  - by apply dot_contiguous_lt.
Qed.

End Indexing.

(** ** Reading and writing the store *)

Section Store.
Import Torch.

Lemma get_alloc_old w vs t idx :
  storage t < length (storages w) -> get (alloc w vs) t idx = get w t idx.
Proof.
  intros Hlt. unfold get, alloc. simpl. rewrite lookup_app_l; done.
Qed.

Lemma get_alloc_new w vs t idx :
  storage t = length (storages w) ->
  get (alloc w vs) t idx = default NaN (vs !! addr t idx).
Proof.
  intros Heq. unfold get, alloc. simpl.
  rewrite lookup_app_r; rewrite Heq; [|lia]. rewrite Nat.sub_diag. done.
Qed.

(** Reading a freshly allocated tensor through any view on its storage. *)
Lemma get_fresh w g s t idx j :
  storage t = length (storages w) ->
  addr t idx = dot j (contiguous s) -> inbounds j s ->
  get (alloc w (g <$> indices s)) t idx = g j.
Proof.
  intros Hst Haddr Hj. rewrite get_alloc_new by done.
  rewrite Haddr, list_lookup_fmap, lookup_indices by done. done.
Qed.

Lemma length_write_all f dst l st : length (write_all f dst l st) = length st.
Proof.
  revert st. induction l as [|x l IH]; intros st; [done|].
  unfold write_all in *. simpl. rewrite IH, length_insert. done.
Qed.

Lemma write_all_miss f dst l st a :
  (forall idx, idx ∈ l -> addr dst idx <> a) ->
  write_all f dst l st !! a = st !! a.
Proof.
  revert st. induction l as [|x l IH]; intros st Hmiss; [done|].
  unfold write_all in *. simpl. rewrite IH.
  - apply list_lookup_insert_ne. apply Hmiss. left.
  - intros idx Hin. apply Hmiss. by right.
Qed.

Lemma write_all_hit f dst l st a v :
  a < length st ->
  (exists idx, idx ∈ l /\ addr dst idx = a) ->
  (forall idx, idx ∈ l -> addr dst idx = a -> f idx = v) ->
  write_all f dst l st !! a = Some v.
Proof.
  intros Hlen. induction l as [|x l IH] using rev_ind; intros (j & Hj & Hja) Hval.
  { by apply elem_of_nil in Hj. }
  unfold write_all in *. rewrite foldl_app. simpl.
  destruct (decide (addr dst x = a)) as [Hx|Hx].
  - rewrite Hx, list_lookup_insert_eq.
    + f_equal. apply Hval; [|done]. apply elem_of_app. right. left.
    + fold (write_all f dst l st). by rewrite length_write_all.
  - rewrite list_lookup_insert_ne by done. apply IH.
    + exists j. split; [|done].
      apply elem_of_app in Hj as [Hj|Hj]; [done|].
      apply list_elem_of_singleton in Hj. congruence.
    + intros idx Hin. apply Hval. apply elem_of_app. by left.
Qed.

Lemma foldl_store w dst f l :
  foldl (fun w' idx => store w' dst idx (f idx)) w l =
  {| storages := alter (write_all f dst l) (storage dst) (storages w);
     rng := rng w |}.
Proof.
  revert w. induction l as [|x l IH]; intros w.
  - simpl. destruct w as [sts r]. simpl. f_equal.
    symmetry. apply list_alter_id. done.
  - simpl. rewrite IH. unfold store. simpl. f_equal.
    rewrite list_alter_alter_eq. done.
Qed.

Lemma copy_run dst src src' w :
  expand src (shape dst) = Some src' ->
  copy_ dst src w = (Ok tt, written w dst (get w src')).
Proof.
  intros He. unfold copy_. rewrite He. by rewrite foldl_store.
Qed.

Lemma length_storages_written w dst f :
  length (storages (written w dst f)) = length (storages w).
Proof. unfold written. simpl. apply length_alter. Qed.

Lemma get_written_other w dst f t idx :
  storage t <> storage dst -> get (written w dst f) t idx = get w t idx.
Proof.
  intros Hne. unfold get, written. simpl.
  rewrite list_lookup_alter_ne by done. done.
Qed.

Lemma get_written_miss w dst f t idx :
  (forall j, inbounds j (shape dst) -> addr dst j <> addr t idx) ->
  get (written w dst f) t idx = get w t idx.
Proof.
  intros Hmiss. unfold get, written. simpl.
  destruct (decide (storage dst = storage t)) as [Heq|Hne].
  - rewrite <- Heq, list_lookup_alter_eq.
    destruct (storages w !! storage dst) as [st|]; [|done]. simpl.
    rewrite write_all_miss; [done|].
    intros j Hj. apply Hmiss. by apply elem_of_indices.
  - rewrite list_lookup_alter_ne by done. done.
Qed.

Lemma get_written_hit w dst f t idx j st :
  storage t = storage dst ->
  storages w !! storage dst = Some st -> addr t idx < length st ->
  inbounds j (shape dst) -> addr dst j = addr t idx ->
  (forall j', inbounds j' (shape dst) -> addr dst j' = addr dst j -> j' = j) ->
  get (written w dst f) t idx = f j.
Proof.
  intros Hst Hlook Hlen Hj Haddr Hinj. unfold get, written. simpl.
  rewrite Hst, list_lookup_alter_eq, Hlook. simpl.
  rewrite (write_all_hit _ _ _ _ _ (f j)); [done|done| |].
  - exists j. split; [by apply elem_of_indices|done].
  - intros j' Hj' Heq. f_equal. apply Hinj; [by apply elem_of_indices|congruence].
Qed.

End Store.

(** ** Running computations *)

Section Running.
Import Torch.

Lemma bind_ok {A B} (c : M A) (k : A -> M B) w a w' :
  c w = (Ok a, w') -> bind c k w = k a w'.
Proof. intros H. unfold bind. by rewrite H. Qed.

Lemma bind_raise {A B} (c : M A) (k : A -> M B) w e w' :
  c w = (Raise e, w') -> bind c k w = (Raise e, w').
Proof. intros H. unfold bind. by rewrite H. Qed.

Lemma get_view w t t' idx idx' :
  storage t = storage t' -> addr t idx = addr t' idx' ->
  get w t idx = get w t' idx'.
Proof. intros Hs Ha. unfold get. by rewrite Hs, Ha. Qed.

Lemma zeros_run a b w :
  (0 <= a)%Z -> (0 <= b)%Z ->
  zeros [a; b] w = tensor_new [Z.to_nat a; Z.to_nat b] (fun _ => Fin 0) w.
Proof.
  intros Ha Hb. unfold zeros. simpl.
  destruct (Z.leb_spec 0 a); [|lia]. destruct (Z.leb_spec 0 b); [|lia]. done.
Qed.

Lemma zeros_raise a b w :
  (a < 0)%Z \/ (b < 0)%Z -> zeros [a; b] w = (Raise RuntimeError, w).
Proof.
  intros H. unfold zeros. simpl.
  destruct (Z.leb_spec 0 a); destruct (Z.leb_spec 0 b); simpl; try done; lia.
Qed.

Lemma arange_run e step w :
  (0 < step)%Z -> (0 <= e)%Z ->
  arange 0 e step w =
  tensor_new [Z.to_nat (- ((0 - e) / step))]
    (fun idx => of_int (0 + Z.of_nat (hd 0 idx) * step)) w.
Proof.
  intros Hs He. unfold arange.
  destruct (Z.eqb_spec step 0); [lia|].
  destruct (Z.ltb_spec e 0); [lia|].
  destruct (Z.ltb_spec step 0); [lia|]. rewrite andb_false_r. done.
Qed.

(** Number of elements of [arange(0, e, 1)] and of [arange(0, e, 2)]. *)
Lemma arange_len_1 e : (0 <= e)%Z -> Z.to_nat (- ((0 - e) / 1)) = Z.to_nat e.
Proof. intros. rewrite Z.div_1_r. f_equal. lia. Qed.

Lemma arange_len_2 e :
  (0 <= e)%Z -> Z.to_nat (- ((0 - e) / 2)) = (Z.to_nat e + 1) / 2.
Proof.
  intros He. apply Nat2Z.inj. rewrite Nat2Z.inj_div, Nat2Z.inj_add.
  rewrite (Z2Nat.id e) by done.
  rewrite Z2Nat.id by (Z.div_mod_to_equations; lia).
  change (Z.of_nat 1) with 1%Z. change (Z.of_nat 2) with 2%Z.
  Z.div_mod_to_equations. lia.
Qed.

Lemma slice_run dim start stop step t n st w :
  step <> 0 -> shape t !! dim = Some n -> strides t !! dim = Some st ->
  slice dim start stop step t w =
  (Ok {| storage := storage t;
         offset := offset t + (start `min` n) * st;
         shape := <[dim := ((default n stop `min` n) `max` (start `min` n)
                             - start `min` n + step - 1) `div` step]> (shape t);
         strides := <[dim := st * step]> (strides t) |}, w).
Proof.
  intros Hstep Hn Hst. unfold slice. rewrite Hn, Hst.
  destruct (Nat.eqb_spec step 0); done.
Qed.

(** The slice [:] is the tensor itself. *)
Lemma slice_full dim t n st w :
  shape t !! dim = Some n -> strides t !! dim = Some st ->
  slice dim 0 None 1 t w = (Ok t, w).
Proof.
  intros Hn Hst. rewrite (slice_run _ _ _ _ _ n st) by done.
  destruct t as [l o sh sr]. cbn [storage offset shape strides default] in *.
  replace (o + 0 `min` n * st) with o by lia.
  replace (((n `min` n) `max` (0 `min` n) - 0 `min` n + 1 - 1) `div` 1)
    with n by (rewrite Nat.div_1_r; lia).
  replace (st * 1) with st by lia.
  rewrite !list_insert_id by done. done.
Qed.

Lemma expand_rev_same sh st :
  length st = length sh -> expand_rev sh st sh = Some st.
Proof.
  revert st. induction sh as [|n sh IH]; intros [|k st] Hlen; try done.
  simpl in *. rewrite Nat.eqb_refl, IH by lia. done.
Qed.

(** Expanding to its own shape gives the tensor itself. *)
Lemma expand_same t :
  length (strides t) = length (shape t) -> expand t (shape t) = Some t.
Proof.
  intros Hlen. unfold expand.
  rewrite expand_rev_same by (by rewrite !length_rev). simpl.
  rewrite rev_involutive. by destruct t.
Qed.

Lemma broadcast_col_row m h : broadcast_shapes [m; 1] [h] = Some [m; h].
Proof.
  unfold broadcast_shapes. cbn -[Nat.eqb].
  destruct (Nat.eqb_spec 1 h) as [<-|]; cbn; done.
Qed.

(** A column [(m, 1)] expanded to [(m, h)]: every column reads the one that
    exists. *)
Lemma expand_col t m h sp sq :
  shape t = [m; 1] -> strides t = [sp; sq] ->
  exists t', expand t [m; h] = Some t' /\ storage t' = storage t
    /\ forall p i, i < h -> addr t' [p; i] = addr t [p; 0].
Proof.
  intros Hsh Hst. unfold expand. rewrite Hsh, Hst. cbn -[Nat.eqb].
  destruct (Nat.eqb_spec 1 h) as [<-|]; cbn -[Nat.eqb];
    repeat (rewrite Nat.eqb_refl; cbn -[Nat.eqb]).
  - eexists. split; [done|]. split; [done|].
    intros p i Hi. unfold addr. simpl. rewrite Hst. simpl. lia.
  - eexists. split; [done|]. split; [done|].
    intros p i Hi. unfold addr. simpl. rewrite Hst. simpl. lia.
Qed.

(** A row [(h)] expanded to [(m, h)]: every line reads the row. *)
Lemma expand_row t m h sd :
  shape t = [h] -> strides t = [sd] ->
  exists t', expand t [m; h] = Some t' /\ storage t' = storage t
    /\ forall p i, addr t' [p; i] = addr t [i].
Proof.
  intros Hsh Hst. unfold expand. rewrite Hsh, Hst. cbn -[Nat.eqb].
  rewrite Nat.eqb_refl. simpl.
  eexists. split; [done|]. split; [done|].
  intros p i. unfold addr. simpl. rewrite Hst. simpl. lia.
Qed.

End Running.

(** ** The two strided assignments of [__init__] *)

Section Assign.
Import Torch.

Lemma binary_run f a b s a' b' w :
  broadcast_shapes (shape a) (shape b) = Some s ->
  expand a s = Some a' -> expand b s = Some b' ->
  binary f a b w = tensor_new s (fun idx => f (get w a' idx) (get w b' idx)) w.
Proof. intros Hs Ha Hb. unfold binary. by rewrite Hs, Ha, Hb. Qed.

(** The view [pe[:, o::2]] of the table under construction. *)
Lemma slice_columns o m dn n0 w :
  o <= dn ->
  (s <- slice 0 0 None 1 (mkTensor n0 0 [m; dn] [dn * 1; 1]) ;;
   slice 1 o None 2 s) w =
  (Ok (mkTensor n0 o [m; (dn - o + 1) / 2] [dn * 1; 2]), w).
Proof.
  intros Ho.
  erewrite bind_ok; [|by eapply slice_full].
  erewrite slice_run; [|done|done|done].
  cbn [storage offset shape strides default].
  rewrite Nat.min_id, Nat.min_l, Nat.max_l by lia.
  replace (0 + o * 1) with o by lia.
  replace (dn - o + 2 - 1) with (dn - o + 1) by lia.
  done.
Qed.

(** [pe[:, o::2] = f(position * div_term)], when the view has as many columns
    as [div_term] has elements. *)
Lemma assign_run f o m dn h n0 pos div sp sq sd W st :
  shape pos = [m; 1] -> strides pos = [sp; sq] ->
  shape div = [h] -> strides div = [sd] ->
  o <= dn -> h = (dn - o + 1) / 2 ->
  storages W !! n0 = Some st -> length st = m * dn ->
  exists W',
    (v <- (a <- mul pos div ;; unary f a) ;;
     dst <- (s <- slice 0 0 None 1 (mkTensor n0 0 [m; dn] [dn * 1; 1]) ;;
             slice 1 o None 2 s) ;;
     copy_ dst v) W = (Ok tt, W')
    /\ rng W' = rng W
    /\ length (storages W') = length (storages W) + 2
    /\ (forall l, l <> n0 -> l < length (storages W) ->
          storages W' !! l = storages W !! l)
    /\ exists st', storages W' !! n0 = Some st' /\ length st' = length st
       /\ (forall p i, p < m -> i < h ->
             st' !! (p * dn + 2 * i + o)
             = Some (f (fmul (get W pos [p; 0]) (get W div [i]))))
       /\ (forall a, (forall p i, p < m -> i < h -> a <> p * dn + 2 * i + o) ->
             st' !! a = st !! a).
Proof.
  intros Hpsh Hpst Hdsh Hdst Ho Hh Hst Hlen.
  destruct (expand_col pos m h sp sq Hpsh Hpst) as (pos' & Hpos' & Hpos's & Hposa).
  destruct (expand_row div m h sd Hdsh Hdst) as (div' & Hdiv' & Hdiv's & Hdiva).
  assert (Hn0 : n0 < length (storages W)) by (by eapply lookup_lt_Some).
  set (W1 := alloc W ((fun idx => fmul (get W pos' idx) (get W div' idx))
                        <$> indices [m; h])).
  set (prodT := mkTensor (length (storages W)) 0 [m; h] (contiguous [m; h])).
  set (W2 := alloc W1 ((fun idx => f (get W1 prodT idx)) <$> indices [m; h])).
  set (fT := mkTensor (length (storages W1)) 0 [m; h] (contiguous [m; h])).
  set (dst := mkTensor n0 o [m; h] [dn * 1; 2]).
  exists (written W2 dst (get W2 fT)).
  assert (Hrun : (a <- mul pos div ;; unary f a) W = (Ok fT, W2)).
  { assert (Hmul : mul pos div W = (Ok prodT, W1)).
    { unfold mul. erewrite binary_run; [done| |done|done].
      rewrite Hpsh, Hdsh. apply broadcast_col_row. }
    by rewrite (bind_ok _ _ _ _ _ Hmul). }
  assert (Hst2 : storages W2 !! n0 = Some st).
  { unfold W2, W1, alloc. simpl. rewrite !lookup_app_l; [done|done|].
    rewrite length_app. simpl. lia. }
  assert (HfT : forall p i, p < m -> i < h ->
    get W2 fT [p; i] = f (fmul (get W pos [p; 0]) (get W div [i]))).
  { intros p i Hp Hi.
    assert (Hb : inbounds [p; i] [m; h]) by (repeat constructor; done).
    unfold W2. rewrite (get_fresh _ _ _ _ _ [p; i]); [|done|done|done].
    unfold W1. rewrite (get_fresh _ _ _ _ _ [p; i]); [|done|done|done].
    f_equal. f_equal.
    - apply get_view; [done|]. by apply Hposa.
    - apply get_view; [done|]. apply Hdiva. }
  assert (Haddr : forall p i, addr dst [p; i] = p * dn + 2 * i + o).
  { intros p i. unfold addr, dst. simpl. lia. }
  split; [|split; [|split; [|split]]].
  - erewrite bind_ok; [|exact Hrun].
    erewrite bind_ok; [|by apply slice_columns].
    rewrite <- Hh. fold dst. apply (copy_run dst fT fT).
    exact (expand_same fT eq_refl).
  - done.
  - rewrite length_storages_written. unfold W2, W1, alloc. simpl.
    rewrite !length_app. simpl. lia.
  - intros l Hl Hlt. unfold written. simpl.
    rewrite list_lookup_alter_ne by done.
    rewrite !lookup_app_l; [done|done|]. rewrite length_app. simpl. lia.
  - exists (write_all (get W2 fT) dst (indices [m; h]) st).
    split; [|split; [|split]].
    + unfold written. cbn [storages]. change (storage dst) with n0.
      rewrite list_lookup_alter_eq, Hst2. done.
    + apply length_write_all.
    + intros p i Hp Hi. rewrite <- Haddr, <- HfT by done.
      assert (H2i : 2 * i + o < dn).
      { subst h. pose proof (Nat.Div0.mul_div_le (dn - o + 1) 2). lia. }
      apply write_all_hit.
      * rewrite Haddr, Hlen. nia.
      * exists [p; i]. split; [|done]. apply elem_of_indices.
        repeat constructor; done.
      * intros j Hj Hja. apply elem_of_indices in Hj.
        inversion Hj as [|p' ? r ? Hp' Hr]; subst j.
        inversion Hr as [|i' ? r' ? Hi' Hr']; subst r.
        inversion Hr'; subst r'.
        rewrite !Haddr in Hja.
        assert (H2i' : 2 * i' + o < dn).
        { subst h. pose proof (Nat.Div0.mul_div_le (dn - o + 1) 2). lia. }
        assert (p' = p) by nia. subst p'.
        assert (i' = i) by lia. by subst i'.
    + intros a Ha. apply write_all_miss. intros j Hj Hja.
      apply elem_of_indices in Hj.
      inversion Hj as [|p' ? r ? Hp' Hr]; subst j.
      inversion Hr as [|i' ? r' ? Hi' Hr']; subst r.
      inversion Hr'; subst r'.
      rewrite Haddr in Hja. by eapply Ha.
Qed.

End Assign.

(** ** Stores that only grow *)

Section Extends.
Import Torch.

Lemma extends_refl w : extends w w.
Proof. split; [done|]. exists []. by rewrite app_nil_r. Qed.

Lemma extends_trans w1 w2 w3 : extends w1 w2 -> extends w2 w3 -> extends w1 w3.
Proof.
  intros [Hr1 [e1 He1]] [Hr2 [e2 He2]]. split; [congruence|].
  exists (e1 ++ e2). by rewrite He2, He1, app_assoc.
Qed.

Lemma length_storages_alloc w vs :
  length (storages (alloc w vs)) = S (length (storages w)).
Proof. unfold alloc. simpl. rewrite length_app. simpl. lia. Qed.

Lemma extends_alloc w vs : extends w (alloc w vs).
Proof. split; [done|]. by exists [vs]. Qed.

Lemma extends_of_lookup w w' :
  rng w' = rng w -> length (storages w) <= length (storages w') ->
  (forall l, l < length (storages w) -> storages w' !! l = storages w !! l) ->
  extends w w'.
Proof.
  intros Hr Hlen Hl. split; [done|].
  exists (drop (length (storages w)) (storages w')).
  rewrite <- (take_drop (length (storages w)) (storages w')) at 1.
  f_equal. apply list_eq. intros l.
  destruct (decide (l < length (storages w))) as [Hlt|Hge].
  - rewrite lookup_take_lt by done. by apply Hl.
  - rewrite lookup_take_ge by lia. symmetry. apply lookup_ge_None. lia.
Qed.

Lemma extends_lookup w w' l :
  extends w w' -> l < length (storages w) -> storages w' !! l = storages w !! l.
Proof. intros [_ [ext ->]] Hl. by apply lookup_app_l. Qed.

Lemma get_same_storage w w' t idx :
  storages w' !! storage t = storages w !! storage t ->
  get w' t idx = get w t idx.
Proof. intros H. unfold get. by rewrite H. Qed.

(** A tensor of [w] reads the same in every store that extends [w]. *)
Lemma get_extends w w' t idx :
  extends w w' -> storage t < length (storages w) -> get w' t idx = get w t idx.
Proof. intros He Hl. apply get_same_storage. by apply extends_lookup. Qed.

Lemma to_list_extends w w' t :
  extends w w' -> storage t < length (storages w) -> to_list w' t = to_list w t.
Proof.
  intros He Hl. unfold to_list. apply list_fmap_ext.
  intros _ idx _. by apply get_extends.
Qed.

End Extends.

(** ** [PositionalEncoding.__init__], step by step *)

Section InitSteps.
Import Torch.

(** [position = torch.arange(0, max_len, dtype=torch.float).unsqueeze(1)] *)
Lemma position_run (max_len : Z) W :
  (0 <= max_len)%Z ->
  (a <- arange 0 max_len 1 ;; unsqueeze 1 a) W =
  (Ok (mkTensor (length (storages W)) 0 [Z.to_nat max_len; 1] [1; 1]),
   alloc W ((fun idx => of_int (0 + Z.of_nat (hd 0 idx) * 1))
              <$> indices [Z.to_nat max_len])).
Proof.
  intros Hm. erewrite bind_ok; [|by apply arange_run].
  rewrite arange_len_1 by done. done.
Qed.

(** [div_term = torch.exp(torch.arange(0, d_model, 2).float()
                          * (-math.log(10000.0) / d_model))] *)
Lemma div_term_run (d_model : Z) W :
  (0 < d_model)%Z ->
  exists div W',
    (a <- arange 0 d_model 2 ;;
     a <- float a ;;
     c <- truediv (- math_log 10000) d_model ;;
     b <- mul_scalar a c ;;
     exp b) W = (Ok div, W')
    /\ shape div = [(Z.to_nat d_model + 1) / 2] /\ strides div = [1]
    /\ storage div = length (storages W) + 2
    /\ length (storages W') = length (storages W) + 3
    /\ extends W W'
    /\ forall i, i < (Z.to_nat d_model + 1) / 2 ->
         get W' div [i]
         = Fin (Rtrigo_def.exp (IZR (round_int (0 + Z.of_nat i * 2))
                                * (- ln 10000 / IZR d_model))).
Proof.
  intros Hd. set (h := (Z.to_nat d_model + 1) / 2).
  set (c := (- ln 10000 / IZR d_model)%R).
  set (W1 := alloc W ((fun idx => of_int (0 + Z.of_nat (hd 0 idx) * 2))
                        <$> indices [h])).
  set (ar := mkTensor (length (storages W)) 0 [h] [1]).
  set (W2 := alloc W1 ((fun idx => fmul (get W1 ar idx) (Fin c)) <$> indices [h])).
  set (sc := mkTensor (length (storages W1)) 0 [h] [1]).
  set (W3 := alloc W2 ((fun idx => fexp (get W2 sc idx)) <$> indices [h])).
  set (div := mkTensor (length (storages W2)) 0 [h] [1]).
  exists div, W3.
  assert (Hlen : length (storages W3) = length (storages W) + 3).
  { unfold W3, W2, W1. rewrite !length_storages_alloc. lia. }
  split; [|split; [done|split; [done|split; [|split; [done|split]]]]].
  - erewrite bind_ok; [|by apply arange_run; lia].
    rewrite arange_len_2 by lia. fold h.
    erewrite bind_ok; [|done].
    erewrite bind_ok; cycle 1.
    { unfold truediv. destruct (Z.eqb_spec d_model 0); [lia|done]. }
    erewrite bind_ok; [|done]. done.
  - unfold div, W2, W1. cbn [storage]. rewrite !length_storages_alloc. lia.
  - eapply extends_trans; [|apply extends_alloc].
    eapply extends_trans; apply extends_alloc.
  - intros i Hi.
    assert (Hb : inbounds [i] [h]) by (repeat constructor; done).
    unfold W3. rewrite (get_fresh _ _ _ _ _ [i]); [|done|done|done].
    unfold W2. rewrite (get_fresh _ _ _ _ _ [i]); [|done|done|done].
    unfold W1. rewrite (get_fresh _ _ _ _ _ [i]); [|done|done|done].
    done.
Qed.

End InitSteps.

(** ** [PositionalEncoding.__init__], as a whole *)

Section InitRun.
Import Torch.

(** The failing assignment: for an odd [d_model] of at least 3 the view
    [pe[:, 1::2]] has one column less than [position * div_term]. *)
Lemma assign_raise f m dn h n0 pos div sp sq sd W :
  shape pos = [m; 1] -> strides pos = [sp; sq] ->
  shape div = [h] -> strides div = [sd] ->
  h = (dn + 1) / 2 -> Nat.odd dn = true -> 3 <= dn ->
  exists W',
    (v <- (a <- mul pos div ;; unary f a) ;;
     dst <- (s <- slice 0 0 None 1 (mkTensor n0 0 [m; dn] [dn * 1; 1]) ;;
             slice 1 1 None 2 s) ;;
     copy_ dst v) W = (Raise RuntimeError, W').
Proof.
  intros Hpsh Hpst Hdsh Hdst Hh Hodd Hdn.
  destruct (expand_col pos m h sp sq Hpsh Hpst) as (pos' & Hpos' & _).
  destruct (expand_row div m h sd Hdsh Hdst) as (div' & Hdiv' & _).
  eexists.
  erewrite bind_ok; cycle 1.
  { erewrite bind_ok; [done|]. unfold mul.
    erewrite binary_run; [done| |done|done].
    rewrite Hpsh, Hdsh. apply broadcast_col_row. }
  erewrite bind_ok; [|apply slice_columns; lia].
  unfold copy_, expand. cbn -[Nat.eqb Nat.div].
  apply Nat.odd_spec in Hodd as [k Hk].
  assert (Hh' : h = k + 1).
  { subst h dn. replace (2 * k + 1 + 1) with ((k + 1) * 2) by lia.
    by rewrite Nat.div_mul. }
  assert (Hw : (dn - 1 + 1) / 2 = k).
  { subst dn. replace (2 * k + 1 - 1 + 1) with (1 + k * 2) by lia.
    rewrite Nat.div_add by done. done. }
  rewrite Hw.
  destruct (Nat.eqb_spec h k); [lia|]. destruct (Nat.eqb_spec h 1); [lia|]. done.
Qed.

(** The empty assignment: for [d_model = 1] the view [pe[:, 1::2]] has no
    column, and the one column of [position * div_term] is broadcast to it. *)
Lemma assign_skip f m n0 pos div sp sq sd W :
  shape pos = [m; 1] -> strides pos = [sp; sq] ->
  shape div = [1] -> strides div = [sd] ->
  n0 < length (storages W) ->
  exists W',
    (v <- (a <- mul pos div ;; unary f a) ;;
     dst <- (s <- slice 0 0 None 1 (mkTensor n0 0 [m; 1] [1 * 1; 1]) ;;
             slice 1 1 None 2 s) ;;
     copy_ dst v) W = (Ok tt, W')
    /\ extends W W'.
Proof.
  intros Hpsh Hpst Hdsh Hdst Hn0.
  destruct (expand_col pos m 1 sp sq Hpsh Hpst) as (pos' & Hpos' & _).
  destruct (expand_row div m 1 sd Hdsh Hdst) as (div' & Hdiv' & _).
  assert (Hnil : forall k, indices [k; 0] = []).
  { intros k. rewrite indices_cons. generalize (seq 0 k).
    induction l as [|a l IH]; [done|]. done. }
  eexists. split.
  - erewrite bind_ok; cycle 1.
    { erewrite bind_ok; [done|]. unfold mul.
      erewrite binary_run; [done| |done|done].
      rewrite Hpsh, Hdsh. apply broadcast_col_row. }
    erewrite bind_ok; [|apply slice_columns; lia].
    unfold copy_, expand. cbn -[Nat.eqb indices].
    rewrite Nat.eqb_refl. cbn -[indices]. rewrite Hnil. done.
  - cbn [foldl]. eapply extends_trans; apply extends_alloc.
Qed.

(** [__init__] up to and including [pe[:, 0::2] = torch.sin(...)]. *)
Lemma init_first_half (d_model max_len : Z) w :
  (0 <= max_len)%Z -> (0 < d_model)%Z ->
  let m := Z.to_nat max_len in
  let dn := Z.to_nat d_model in
  let h := (dn + 1) / 2 in
  let n0 := length (storages w) in
  let pe0 := mkTensor n0 0 [m; dn] [dn * 1; 1] in
  exists pos div W7 st7,
    PositionalEncoding.__init__ d_model (Some max_len) w
    = ((v <- (a <- mul pos div ;; cos a) ;;
        dst <- (s <- slice 0 0 None 1 pe0 ;; slice 1 1 None 2 s) ;;
        copy_ dst v) ;;;
       pe <- (a <- unsqueeze 0 pe0 ;; transpose 0 1 a) ;;
       ret {| PositionalEncoding.pe := pe |}) W7
    /\ shape pos = [m; 1] /\ strides pos = [1; 1]
    /\ shape div = [h] /\ strides div = [1]
    /\ storage pos <> n0 /\ storage div <> n0
    /\ storage pos < length (storages W7) /\ storage div < length (storages W7)
    /\ rng W7 = rng w
    /\ n0 < length (storages W7)
    /\ (forall l, l < n0 -> storages W7 !! l = storages w !! l)
    /\ storages W7 !! n0 = Some st7 /\ length st7 = m * dn
    /\ (forall p, p < m -> get W7 pos [p; 0] = of_int (0 + Z.of_nat p * 1))
    /\ (forall i, i < h ->
          get W7 div [i]
          = Fin (Rtrigo_def.exp (IZR (round_int (0 + Z.of_nat i * 2))
                                 * (- ln 10000 / IZR d_model))))
    /\ (forall p i, p < m -> i < h ->
          st7 !! (p * dn + 2 * i)
          = Some (Fin (Rtrigo_def.sin (angle d_model p i)))).
Proof.
  intros Hm Hd m dn h n0 pe0.
  (* pe = torch.zeros(max_len, d_model) *)
  set (zs := (fun _ : list nat => Fin 0) <$> indices [m; dn]).
  set (W1 := alloc w zs).
  assert (Hz : zeros [max_len; d_model] w = (Ok pe0, W1)).
  { rewrite zeros_run by lia. done. }
  (* position *)
  pose proof (position_run max_len W1 Hm) as Hp. fold m in Hp.
  set (pos := mkTensor (length (storages W1)) 0 [m; 1] [1; 1]) in Hp.
  set (W2 := alloc W1 _) in Hp.
  (* div_term *)
  destruct (div_term_run d_model W2 Hd)
    as (div & W5 & Hdiv & Hdsh & Hdst & Hdsto & Hlen5 & Hext5 & Hdval).
  fold dn h in Hdsh, Hdval.
  assert (Hlen1 : length (storages W1) = n0 + 1).
  { unfold W1. rewrite length_storages_alloc. fold n0. lia. }
  assert (Hlen2 : length (storages W2) = n0 + 2).
  { unfold W2. rewrite length_storages_alloc. lia. }
  assert (Hst5 : storages W5 !! n0 = Some zs).
  { rewrite (extends_lookup W2 W5) by (done || lia).
    unfold W2. rewrite (extends_lookup W1) by (apply extends_alloc || lia).
    unfold W1, alloc. cbn [storages].
    rewrite lookup_app_r by done. by rewrite Nat.sub_diag. }
  assert (Hzlen : length zs = m * dn).
  { unfold zs. rewrite length_fmap, length_indices. simpl. lia. }
  assert (Hpval : forall p, p < m ->
    get W5 pos [p; 0] = of_int (0 + Z.of_nat p * 1)).
  { intros p Hlt. rewrite (get_extends W2 W5); [|done|cbn [pos storage]; lia].
    unfold W2. rewrite (get_fresh _ _ _ _ _ [p]); [done|done| |].
    - unfold addr. simpl. lia.
    - repeat constructor. done. }
  (* pe[:, 0::2] = torch.sin(position * div_term) *)
  destruct (assign_run fsin 0 m dn h n0 pos div 1 1 1 W5 zs)
    as (W7 & Hrun7 & Hrng7 & Hlen7 & Hoth7 & st7 & Hst7 & Hstlen7 & Hhit7 & _);
    [done|done|done|done|lia|by rewrite Nat.sub_0_r|done|done|].
  assert (Hpos7 : forall p, get W7 pos [p; 0] = get W5 pos [p; 0]).
  { intros p. apply get_same_storage, Hoth7; cbn [pos storage]; lia. }
  assert (Hdiv7 : forall i, get W7 div [i] = get W5 div [i]).
  { intros i. apply get_same_storage, Hoth7; lia. }
  exists pos, div, W7, st7.
  split.
  { unfold PositionalEncoding.__init__. cbn [default].
    rewrite (bind_ok _ _ _ _ _ Hz). rewrite (bind_ok _ _ _ _ _ Hp).
    rewrite (bind_ok _ _ _ _ _ Hdiv). rewrite (bind_ok _ _ _ _ _ Hrun7). done. }
  repeat split; try done.
  - cbn [pos storage]. lia.
  - lia.
  - cbn [pos storage]. lia.
  - lia.
  - rewrite Hrng7. by destruct Hext5 as [-> _].
  - lia.
  - intros l Hl. rewrite Hoth7 by lia.
    rewrite (extends_lookup W2 W5) by (done || lia).
    unfold W2. rewrite (extends_lookup W1) by (apply extends_alloc || lia).
    unfold W1. by rewrite (extends_lookup w) by (apply extends_alloc || done).
  - congruence.
  - intros p Hlt. by rewrite Hpos7, Hpval.
  - intros i Hi. by rewrite Hdiv7, Hdval.
  - intros p i Hlt Hi.
    replace (p * dn + 2 * i) with (p * dn + 2 * i + 0) by lia.
    rewrite Hhit7 by done. rewrite Hpval, Hdval by done. done.
Qed.

(** The successful construction for an even [d_model]. *)
Lemma init_run (d_model max_len : Z) w :
  (0 <= max_len)%Z -> (0 < d_model)%Z -> Z.even d_model = true ->
  exists W',
    PositionalEncoding.__init__ d_model (Some max_len) w
    = (Ok (PositionalEncoding.mk
             (pe_view (length (storages w)) (Z.to_nat max_len) (Z.to_nat d_model))),
       W')
    /\ extends w W'
    /\ exists st, storages W' !! length (storages w) = Some st
       /\ length st = Z.to_nat max_len * Z.to_nat d_model
       /\ forall p i, p < Z.to_nat max_len -> i < Z.to_nat d_model / 2 ->
            st !! (p * Z.to_nat d_model + 2 * i)
              = Some (Fin (Rtrigo_def.sin (angle d_model p i)))
            /\ st !! (p * Z.to_nat d_model + 2 * i + 1)
              = Some (Fin (Rtrigo_def.cos (angle d_model p i))).
Proof.
  intros Hm Hd He.
  destruct (init_first_half d_model max_len w Hm Hd)
    as (pos & div & W7 & st7 & Hrun & Hpsh & Hpst & Hdsh & Hdst & Hpn & Hdn'
        & Hpl & Hdl & Hrng7 & Hn7 & Hold7 & Hst7 & Hlen7 & Hpval & Hdval & Hsin).
  set (m := Z.to_nat max_len) in *. set (dn := Z.to_nat d_model) in *.
  set (n0 := length (storages w)) in *.
  assert (Hdn : dn = 2 * (dn / 2)).
  { apply Zeven_bool_iff, Zeven_ex_iff in He as [k Hk].
    assert (dn = 2 * Z.to_nat k) as -> by (unfold dn; lia).
    rewrite Nat.mul_comm, Nat.div_mul by done. lia. }
  assert (Hh : (dn + 1) / 2 = dn / 2).
  { rewrite Hdn at 1. rewrite Nat.mul_comm, Nat.div_add_l by done. simpl. lia. }
  rewrite Hh in *. set (h := dn / 2) in *.
  (* pe[:, 1::2] = torch.cos(position * div_term) *)
  destruct (assign_run fcos 1 m dn h n0 pos div 1 1 1 W7 st7)
    as (W9 & Hrun9 & Hrng9 & Hlen9 & Hoth9 & st9 & Hst9 & Hstlen9 & Hhit9 & Hmiss9);
    [done|done|done|done|lia| |done|done|].
  { replace (dn - 1 + 1) with dn by lia. done. }
  exists W9. split; [|split].
  - rewrite Hrun. change (cos ?a) with (unary fcos a).
    rewrite (bind_ok _ _ _ _ _ Hrun9). done.
  - apply extends_of_lookup; [congruence|lia|].
    intros l Hl. rewrite Hoth9 by lia. by apply Hold7.
  - exists st9. split; [done|]. split; [congruence|].
    intros p i Hlt Hi. split.
    + rewrite Hmiss9; [by apply Hsin|].
      intros p' i' _ _. rewrite Hdn. lia.
    + rewrite Hhit9 by done. rewrite Hpval, Hdval by done. done.
Qed.

Lemma get_pe_view w n0 m dn st p k :
  storages w !! n0 = Some st ->
  get w (pe_view n0 m dn) [p; 0; k] = default NaN (st !! (p * dn + k)).
Proof.
  intros Hst. unfold get, pe_view, addr. cbn [storage offset strides dot].
  rewrite Hst. cbn [mbind option_bind]. do 2 f_equal. lia.
Qed.

(** The construction succeeds for an even positive [d_model] and a
    [max_len] that is not negative, and fills the table with [encoding]. *)
Lemma init_even (d_model max_len : Z) w :
  (0 <= max_len)%Z -> (0 < d_model)%Z -> Z.even d_model = true ->
  exists w',
    PositionalEncoding.__init__ d_model (Some max_len) w
    = (Ok (PositionalEncoding.mk
             (pe_view (length (storages w)) (Z.to_nat max_len) (Z.to_nat d_model))),
       w')
    /\ extends w w'
    /\ length (storages w) < length (storages w')
    /\ forall p k, p < Z.to_nat max_len -> k < Z.to_nat d_model ->
         get w' (pe_view (length (storages w)) (Z.to_nat max_len)
                   (Z.to_nat d_model)) [p; 0; k]
         = encoding d_model p k.
Proof.
  intros Hm Hd He.
  destruct (init_run d_model max_len w Hm Hd He)
    as (w' & Hrun & Hext & st & Hst & Hlen & Hval).
  exists w'. split; [done|]. split; [done|]. split.
  { by eapply lookup_lt_Some. }
  intros p k Hp Hk. rewrite (get_pe_view _ _ _ _ st) by done.
  set (dn := Z.to_nat d_model) in *.
  assert (Hdn : dn = 2 * (dn / 2)).
  { apply Zeven_bool_iff, Zeven_ex_iff in He as [j Hj].
    assert (dn = 2 * Z.to_nat j) as -> by (unfold dn; lia).
    rewrite Nat.mul_comm, Nat.div_mul by done. lia. }
  pose proof (Nat.div_mod_eq k 2) as Hk2.
  assert (Hi : k / 2 < dn / 2) by lia.
  destruct (Hval p (k / 2) Hp Hi) as [Hsin Hcos].
  unfold encoding. destruct (Nat.even k) eqn:Hev.
  - apply Nat.even_spec in Hev as [j ->].
    rewrite (Nat.mul_comm 2 j), Nat.div_mul in * by done.
    rewrite (Nat.mul_comm j 2), Hsin. done.
  - assert (Hodd : Nat.odd k = true) by (by rewrite <- Nat.negb_even, Hev).
    apply Nat.odd_spec in Hodd as [j ->].
    assert (Hj : (2 * j + 1) / 2 = j).
    { rewrite (Nat.mul_comm 2 j), Nat.add_comm, Nat.div_add by done. done. }
    rewrite Hj in *. rewrite Nat.add_assoc, Hcos. done.
Qed.

(** For [d_model = 1] the table has the one column [sin(p)]. *)
Lemma init_one (max_len : Z) w :
  (0 <= max_len)%Z ->
  exists w',
    PositionalEncoding.__init__ 1 (Some max_len) w
    = (Ok (PositionalEncoding.mk
             (pe_view (length (storages w)) (Z.to_nat max_len) 1)), w')
    /\ extends w w'
    /\ length (storages w) < length (storages w')
    /\ forall p k, p < Z.to_nat max_len -> k < 1 ->
         get w' (pe_view (length (storages w)) (Z.to_nat max_len) 1) [p; 0; k]
         = encoding 1 p k.
Proof.
  intros Hm.
  destruct (init_first_half 1 max_len w Hm ltac:(lia))
    as (pos & div & W7 & st7 & Hrun & Hpsh & Hpst & Hdsh & Hdst & Hpn & Hdn'
        & Hpl & Hdl & Hrng7 & Hn7 & Hold7 & Hst7 & Hlen7 & Hpval & Hdval & Hsin).
  change (Z.to_nat 1) with 1 in *. change ((1 + 1) / 2) with 1 in *.
  set (m := Z.to_nat max_len) in *. set (n0 := length (storages w)) in *.
  destruct (assign_skip fcos m n0 pos div 1 1 1 W7)
    as (W9 & Hrun9 & Hext9); [done|done|done|done|done|].
  exists W9. split; [|split; [|split]].
  - rewrite Hrun. change (cos ?a) with (unary fcos a).
    rewrite (bind_ok _ _ _ _ _ Hrun9). done.
  - eapply extends_trans; [|exact Hext9].
    apply extends_of_lookup; [done|lia|done].
  - destruct Hext9 as [_ [ext ->]]. rewrite length_app. lia.
  - intros p k Hp Hk. assert (k = 0) as -> by lia.
    rewrite (get_pe_view _ _ _ _ st7).
    + replace (p * 1 + 0) with (p * 1 + 2 * 0) by lia. rewrite Hsin by (done || lia).
      done.
    + rewrite (extends_lookup W7 W9) by done. done.
Qed.

(** The constructions that fail. *)
Lemma init_negative (d_model max_len : Z) w :
  (max_len < 0)%Z \/ (d_model < 0)%Z ->
  PositionalEncoding.__init__ d_model (Some max_len) w = (Raise RuntimeError, w).
Proof.
  intros H. unfold PositionalEncoding.__init__. cbn [default].
  by rewrite (bind_raise _ _ _ _ _ (zeros_raise _ _ w H)).
Qed.

Lemma init_zero (max_len : Z) w :
  (0 <= max_len)%Z ->
  exists w', PositionalEncoding.__init__ 0 (Some max_len) w
             = (Raise ZeroDivisionError, w').
Proof.
  intros Hm. eexists. unfold PositionalEncoding.__init__. cbn [default].
  erewrite bind_ok; [|by apply zeros_run].
  erewrite bind_ok; [|by apply position_run].
  erewrite bind_raise; [done|].
  erewrite bind_ok; [|by apply arange_run].
  erewrite bind_ok; [|done].
  erewrite bind_raise; [done|]. done.
Qed.

Lemma init_odd (d_model max_len : Z) w :
  (0 <= max_len)%Z -> (3 <= d_model)%Z -> Z.odd d_model = true ->
  exists w', PositionalEncoding.__init__ d_model (Some max_len) w
             = (Raise RuntimeError, w').
Proof.
  intros Hm Hd Ho.
  destruct (init_first_half d_model max_len w Hm ltac:(lia))
    as (pos & div & W7 & st7 & Hrun & Hpsh & Hpst & Hdsh & Hdst & _).
  destruct (assign_raise fcos (Z.to_nat max_len) (Z.to_nat d_model) _
              (length (storages w)) pos div 1 1 1 W7 Hpsh Hpst Hdsh Hdst)
    as (W9 & Hrun9); [done| |lia|].
  { apply Zodd_bool_iff, Zodd_ex_iff in Ho as [j Hj].
    apply Nat.odd_spec. exists (Z.to_nat j). lia. }
  exists W9. rewrite Hrun. change (cos ?a) with (unary fcos a).
  by rewrite (bind_raise _ _ _ _ _ Hrun9).
Qed.

(** Every successful construction, read backwards. *)
Lemma init_inv (d_model : Z) (max_len : option Z) w self w' :
  PositionalEncoding.__init__ d_model max_len w = (Ok self, w') ->
  let m := Z.to_nat (default 5000%Z max_len) in
  let dn := Z.to_nat d_model in
  self = PositionalEncoding.mk (pe_view (length (storages w)) m dn)
  /\ extends w w'
  /\ length (storages w) < length (storages w')
  /\ (0 < d_model)%Z
  /\ forall p k, p < m -> k < dn -> table w' self p k = encoding d_model p k.
Proof.
  assert (Hdef : PositionalEncoding.__init__ d_model max_len
                 = PositionalEncoding.__init__ d_model (Some (default 5000%Z max_len))).
  { by destruct max_len. }
  rewrite Hdef. clear Hdef. generalize (default 5000%Z max_len). clear max_len.
  intros max_len Hrun m dn.
  destruct (Z.lt_ge_cases max_len 0) as [Hm|Hm].
  { rewrite init_negative in Hrun by lia. done. }
  destruct (Z.lt_trichotomy d_model 0) as [Hd|[->|Hd]].
  { rewrite init_negative in Hrun by lia. done. }
  { destruct (init_zero max_len w Hm) as (w1 & H1). congruence. }
  destruct (Z.even d_model) eqn:He.
  - destruct (init_even d_model max_len w Hm Hd He) as (w1 & H1 & Hext & Hlt & Hval).
    rewrite H1 in Hrun. injection Hrun as <- <-.
      do 4 (split; [done|]). done.
  - assert (Ho : Z.odd d_model = true) by (by rewrite <- Z.negb_even, He).
    destruct (Z.eq_dec d_model 1%Z) as [->|Hne].
    + destruct (init_one max_len w Hm) as (w1 & H1 & Hext & Hlt & Hval).
      rewrite H1 in Hrun. injection Hrun as <- <-.
      do 4 (split; [done|]). done.
    + assert (Hd3 : (3 <= d_model)%Z).
      { apply Zodd_bool_iff, Zodd_ex_iff in Ho as [j Hj]. lia. }
      destruct (init_odd d_model max_len w Hm Hd3 Ho) as (w1 & H1). congruence.
Qed.

End InitRun.

(** ** [PositionalEncoding.forward] *)

Section Forward.
Import Torch.

(** The view [self.pe[:n, :]]. *)
Lemma slice_rows t n M D s0 s1 s2 w :
  shape t = [M; 1; D] -> strides t = [s0; s1; s2] ->
  (s <- slice 0 0 (Some n) 1 t ;; slice 1 0 None 1 s) w =
  (Ok (mkTensor (storage t) (offset t) [n `min` M; 1; D] [s0; s1; s2]), w).
Proof.
  intros Hsh Hst.
  erewrite bind_ok; cycle 1.
  { eapply slice_run; [done|rewrite Hsh; reflexivity|rewrite Hst; reflexivity]. }
  rewrite Hsh, Hst. change (default M (Some n)) with n.
  cbn [insert list_insert].
  erewrite slice_full; [|done|done].
  replace (offset t + 0 `min` M * s0) with (offset t) by lia.
  replace (((n `min` M) `max` (0 `min` M) - 0 `min` M + 1 - 1) `div` 1)
    with (n `min` M) by (rewrite Nat.div_1_r; lia).
  replace (s0 * 1) with s0 by lia. done.
Qed.

Lemma broadcast_batch L B D : broadcast_shapes [L; B; D] [L; 1; D] = Some [L; B; D].
Proof.
  unfold broadcast_shapes. cbn -[Nat.eqb]. rewrite Nat.eqb_refl.
  destruct (Nat.eqb_spec B 1) as [->|]; cbn -[Nat.eqb];
    repeat (rewrite Nat.eqb_refl; cbn -[Nat.eqb]); done.
Qed.

(** A table line [(L, 1, D)] expanded to a batch [(L, B, D)]: every element of
    the batch reads the one line. *)
Lemma expand_batch t L B D s0 s1 s2 :
  shape t = [L; 1; D] -> strides t = [s0; s1; s2] ->
  exists t', expand t [L; B; D] = Some t' /\ storage t' = storage t
    /\ forall l b k, b < B -> addr t' [l; b; k] = addr t [l; 0; k].
Proof.
  intros Hsh Hst. unfold expand. rewrite Hsh, Hst. cbn -[Nat.eqb].
  rewrite Nat.eqb_refl. cbn -[Nat.eqb].
  destruct (Nat.eqb_spec 1 B) as [<-|]; cbn -[Nat.eqb];
    repeat (rewrite Nat.eqb_refl; cbn -[Nat.eqb]).
  - eexists. split; [done|]. split; [done|].
    intros l b k Hb. unfold addr. simpl. rewrite Hst. simpl. lia.
  - eexists. split; [done|]. split; [done|].
    intros l b k Hb. unfold addr. simpl. rewrite Hst. simpl. lia.
Qed.

(** The forward pass on a batch [(L, B, D)] no longer than the table. *)
Lemma forward_run self x w L B D M s0 s1 s2 :
  shape (PositionalEncoding.pe self) = [M; 1; D] ->
  strides (PositionalEncoding.pe self) = [s0; s1; s2] ->
  shape x = [L; B; D] -> length (strides x) = 3 -> L <= M ->
  exists y w',
    PositionalEncoding.forward self x w = (Ok y, w')
    /\ shape y = [L; B; D] /\ strides y = contiguous [L; B; D]
    /\ storage y = length (storages w)
    /\ extends w w'
    /\ forall l b k, l < L -> b < B -> k < D ->
         get w' y [l; b; k] = fadd (get w x [l; b; k]) (table w self l k).
Proof.
  intros Hsh Hst Hx Hxs HL.
  set (v := mkTensor (storage (PositionalEncoding.pe self))
              (offset (PositionalEncoding.pe self)) [L; 1; D] [s0; s1; s2]).
  destruct (expand_batch v L B D s0 s1 s2 eq_refl eq_refl) as (v' & Hv' & Hv's & Hva).
  assert (Hx' : expand x [L; B; D] = Some x).
  { rewrite <- Hx. apply expand_same. by rewrite Hx. }
  eexists _, _. split; [|split; [|split; [|split; [|split]]]].
  - unfold PositionalEncoding.forward.
    erewrite bind_ok; [|unfold size; by rewrite Hx].
    erewrite bind_ok; [|by eapply slice_rows].
    rewrite Nat.min_l by done. fold v. unfold add.
    erewrite binary_run; [done| |done|done].
    rewrite Hx. apply broadcast_batch.
  - done.
  - done.
  - done.
  - apply extends_alloc.
  - intros l b k Hl Hb Hk.
    rewrite (get_fresh _ _ _ _ _ [l; b; k]); [|done|done|repeat constructor; done].
    f_equal. unfold table. apply get_view; [done|].
    rewrite Hva by done. unfold addr, v. cbn [offset strides]. by rewrite Hst.
Qed.

(** The forward pass on a batch longer than a table of at least two lines
    (a table of one line is broadcast to any batch). *)
Lemma forward_raise self x w L B D M s0 s1 s2 :
  shape (PositionalEncoding.pe self) = [M; 1; D] ->
  strides (PositionalEncoding.pe self) = [s0; s1; s2] ->
  shape x = [L; B; D] -> M < L -> 1 < M ->
  PositionalEncoding.forward self x w = (Raise RuntimeError, w).
Proof.
  intros Hsh Hst Hx HL HM.
  unfold PositionalEncoding.forward.
  erewrite bind_ok; [|unfold size; by rewrite Hx].
  erewrite bind_ok; [|by eapply slice_rows].
  rewrite Nat.min_r by lia. unfold add, binary, broadcast_shapes.
  rewrite Hx. cbn -[Nat.eqb]. rewrite Nat.eqb_refl.
  destruct (Nat.eqb_spec B 1) as [->|]; cbn -[Nat.eqb].
  - destruct (Nat.eqb_spec L M); [lia|]. destruct (Nat.eqb_spec L 1); [lia|].
    destruct (Nat.eqb_spec M 1); [lia|]. done.
  - destruct (Nat.eqb_spec L M); [lia|]. destruct (Nat.eqb_spec L 1); [lia|].
    destruct (Nat.eqb_spec M 1); [lia|]. done.
Qed.

Lemma allocates_ret {A} (a : A) : allocates (ret a).
Proof. intros w. apply extends_refl. Qed.

Lemma allocates_raise {A} e : allocates (@raise A e).
Proof. intros w. apply extends_refl. Qed.

Lemma allocates_bind {A B} (c : M A) (k : A -> M B) :
  allocates c -> (forall a, allocates (k a)) -> allocates (bind c k).
Proof.
  intros Hc Hk w. unfold bind. specialize (Hc w).
  destruct (c w) as [[a|e] w1]; [|done].
  eapply extends_trans; [exact Hc|apply Hk].
Qed.

Lemma allocates_tensor_new s g : allocates (tensor_new s g).
Proof. intros w. apply extends_alloc. Qed.

Lemma allocates_size t dim : allocates (size t dim).
Proof.
  unfold size. destruct (shape t !! dim); [apply allocates_ret|apply allocates_raise].
Qed.

Lemma allocates_slice dim start stop step t : allocates (slice dim start stop step t).
Proof.
  unfold slice. destruct (step =? 0); [apply allocates_raise|].
  destruct (shape t !! dim); [|apply allocates_raise].
  destruct (strides t !! dim); [apply allocates_ret|apply allocates_raise].
Qed.

Lemma allocates_unary f t : allocates (unary f t).
Proof. intros w. apply extends_alloc. Qed.

Lemma allocates_binary f a b : allocates (binary f a b).
Proof.
  unfold binary. destruct (broadcast_shapes _ _); [|apply allocates_raise].
  destruct (expand a _); [|apply allocates_raise].
  destruct (expand b _); [|apply allocates_raise].
  intros w. apply extends_alloc.
Qed.

(** Whatever its input and outcome, the forward pass only allocates. *)
Lemma forward_allocates self x : allocates (PositionalEncoding.forward self x).
Proof.
  unfold PositionalEncoding.forward.
  apply allocates_bind; [apply allocates_size|intros n].
  apply allocates_bind; [|intros v; apply allocates_binary].
  apply allocates_bind; [apply allocates_slice|intros s; apply allocates_slice].
Qed.

Lemma forward_all_extends self xs w : extends w (forward_all self xs w).
Proof.
  revert w. induction xs as [|x xs IH]; intros w; [apply extends_refl|].
  unfold forward_all. cbn [foldl].
  eapply extends_trans; [apply forward_allocates|apply IH].
Qed.

End Forward.

(** ** The integers a 32-bit float holds *)

Section Rounding.
Local Open Scope Z_scope.

(** An integer of at most 24 bits is kept. *)
Lemma round_int_small (z : Z) : (Z.abs z <= 16777216)%Z -> round_int z = z.
Proof.
  intros Hz. destruct (Z.eq_dec (Z.abs z) 16777216) as [Ha|Hne].
  { destruct z; simpl in Ha; try done; injection Ha as ->; reflexivity. }
  unfold round_int. cbv zeta.
  destruct (Z.leb_spec (Z.log2 (Z.abs z) - 23) 0) as [|He]; [done|]. exfalso.
  destruct (Z.eq_dec (Z.abs z) 0) as [E|E].
  { rewrite E in He. simpl in He. lia. }
  assert (Z.log2 (Z.abs z) < 24)%Z; [|lia].
  apply Z.log2_lt_pow2; [lia|]. change (2 ^ 24)%Z with 16777216%Z. lia.
Qed.

(** An even integer is kept up to [2^25]. *)
Lemma round_int_even (z : Z) :
  (0 <= z <= 33554432)%Z -> Z.even z = true -> round_int z = z.
Proof.
  intros Hz Hev. destruct (Z.le_gt_cases z 16777216) as [Hs|Hb].
  { apply round_int_small. lia. }
  unfold round_int. cbv zeta. rewrite Z.abs_eq by lia.
  destruct (Z.eq_dec z 33554432) as [->|Hne]; [reflexivity|].
  assert (Hl : Z.log2 z = 24%Z).
  { apply Z.log2_unique; [lia|]. change (2 ^ 24)%Z with 16777216%Z.
    change (2 ^ (24 + 1))%Z with 33554432%Z. lia. }
  rewrite Hl. change (24 - 23)%Z with 1%Z. cbn [Z.leb Z.compare].
  change (2 ^ 1)%Z with 2%Z. change (2 ^ (1 - 1))%Z with 1%Z.
  apply Zeven_bool_iff, Zeven_ex_iff in Hev as [k ->].
  rewrite (Z.mul_comm 2 k), Z.div_mul, Z.mod_mul by done.
  cbn [Z.ltb Z.eqb Z.compare orb andb]. rewrite Z.sgn_pos by lia. lia.
Qed.

Lemma representable_small (z : Z) : Z.abs z <= 16777216 -> representable z.
Proof. apply round_int_small. Qed.

Lemma representable_even (z : Z) :
  0 <= z <= 33554432 -> Z.even z = true -> representable z.
Proof. apply round_int_even. Qed.

End Rounding.

(** ** The arithmetic of the angles *)

Section Angles.

(** A position of at most [2^24] is a float. *)
Lemma IZR_pos_index (p : nat) :
  (Z.of_nat p <= 16777216)%Z -> IZR (round_int (0 + Z.of_nat p * 1)) = INR p.
Proof.
  intros Hp. rewrite round_int_small by lia.
  rewrite Z.add_0_l, Z.mul_1_r. symmetry. apply INR_IZR_INZ.
Qed.

(** An even index of at most [2^25] is a float. *)
Lemma IZR_even_index (i : nat) :
  (2 * Z.of_nat i <= 33554432)%Z ->
  IZR (round_int (0 + Z.of_nat i * 2)) = (2 * INR i)%R.
Proof.
  intros Hi. rewrite round_int_even.
  - rewrite Z.add_0_l, mult_IZR, <- INR_IZR_INZ. lra.
  - lia.
  - rewrite Z.add_0_l, Z.even_mul. apply orb_true_r.
Qed.

Lemma IZR_d_model_neq (d_model : Z) : (0 < d_model)%Z -> IZR d_model <> 0%R.
Proof. intros H. apply not_0_IZR. lia. Qed.

(** The factor computed by exponent-of-log is the direct power. *)
Lemma exp_log_is_power (d_model : Z) (i : nat) :
  (0 < d_model)%Z -> (2 * Z.of_nat i <= 33554432)%Z ->
  Rtrigo_def.exp (IZR (round_int (0 + Z.of_nat i * 2)) * (- ln 10000 / IZR d_model))
  = direct_power_factor d_model i.
Proof.
  intros Hd Hi. unfold direct_power_factor, Rpower. rewrite IZR_even_index by done.
  f_equal. field. by apply IZR_d_model_neq.
Qed.

Lemma angle_direct (d_model : Z) (p i : nat) :
  (0 < d_model)%Z ->
  (Z.of_nat p <= 16777216)%Z -> (2 * Z.of_nat i <= 33554432)%Z ->
  angle d_model p i = (INR p * direct_power_factor d_model i)%R.
Proof.
  intros Hd Hp Hi. unfold angle. by rewrite IZR_pos_index, exp_log_is_power.
Qed.

Lemma angle_quotient (d_model : Z) (p i : nat) :
  (0 < d_model)%Z ->
  (Z.of_nat p <= 16777216)%Z -> (2 * Z.of_nat i <= 33554432)%Z ->
  angle d_model p i = (INR p / Rpower 10000 (2 * INR i / IZR d_model))%R.
Proof.
  intros Hd Hp Hi. rewrite angle_direct by done.
  unfold direct_power_factor, Rdiv, Rpower. f_equal.
  rewrite <- exp_Ropp. f_equal. ring.
Qed.

Lemma angle_zero (d_model : Z) (i : nat) : angle d_model 0 i = 0%R.
Proof. unfold angle. rewrite IZR_pos_index by (simpl; lia). simpl. ring. Qed.


End Angles.

(** ** The table built by [PositionalEncoding.__init__] *)

Section Table.
Import Torch.

Lemma init_some (d_model : Z) (max_len : option Z) :
  PositionalEncoding.__init__ d_model max_len
  = PositionalEncoding.__init__ d_model (Some (default 5000%Z max_len)).
Proof. by destruct max_len. Qed.

Lemma encoding_even (d_model : Z) (p i : nat) :
  encoding d_model p (2 * i) = Fin (Rtrigo_def.sin (angle d_model p i)).
Proof.
  unfold encoding. replace (Nat.even (2 * i)) with true.
  - by rewrite (Nat.mul_comm 2 i), Nat.div_mul.
  - symmetry. apply Nat.even_spec. by exists i.
Qed.

Lemma encoding_odd (d_model : Z) (p i : nat) :
  encoding d_model p (2 * i + 1) = Fin (Rtrigo_def.cos (angle d_model p i)).
Proof.
  unfold encoding. replace (Nat.even (2 * i + 1)) with false.
  - by rewrite (Nat.mul_comm 2 i), Nat.add_comm, Nat.div_add.
  - symmetry. rewrite <- Nat.negb_odd. apply negb_false_iff, Nat.odd_spec.
    by exists i.
Qed.

(** The construction on arguments the specification accepts, with all that
    the later statements need about its result. *)
Lemma init_valid (d_model : Z) (max_len : option Z) (w : World) :
  (0 <= default 5000%Z max_len)%Z -> (0 < d_model)%Z -> Z.even d_model = true ->
  exists self w',
    PositionalEncoding.__init__ d_model max_len w = (Ok self, w')
    /\ PositionalEncoding.pe self
       = pe_view (length (storages w)) (Z.to_nat (default 5000%Z max_len))
           (Z.to_nat d_model)
    /\ extends w w'
    /\ length (storages w) < length (storages w')
    /\ forall p k, p < Z.to_nat (default 5000%Z max_len) -> k < Z.to_nat d_model ->
         table w' self p k = encoding d_model p k.
Proof.
  intros Hm Hd He. rewrite init_some.
  destruct (init_even d_model _ w Hm Hd He) as (w' & Hrun & Hext & Hlt & Hval).
  by eexists _, w'.
Qed.

(** Every element of the buffer is an entry [(p, k)] of the table. *)
Lemma to_list_pe_view (P : tfloat -> Prop) w n0 m dn :
  (forall p k, p < m -> k < dn -> P (get w (pe_view n0 m dn) [p; 0; k])) ->
  Forall P (to_list w (pe_view n0 m dn)).
Proof.
  intros H. unfold to_list. apply Forall_fmap, Forall_forall.
  intros idx Hin. apply elem_of_indices in Hin. cbn [pe_view shape] in Hin.
  inversion Hin as [|p ? r ? Hp Hr]; subst.
  inversion Hr as [|z ? r' ? Hz Hr']; subst.
  inversion Hr' as [|k ? r'' ? Hk Hr'']; subst.
  inversion Hr''; subst. assert (z = 0) as -> by lia. by apply H.
Qed.

Lemma to_list_pe_view_ext w1 w2 n1 n2 m dn :
  (forall p k, p < m -> k < dn ->
     get w1 (pe_view n1 m dn) [p; 0; k] = get w2 (pe_view n2 m dn) [p; 0; k]) ->
  to_list w1 (pe_view n1 m dn) = to_list w2 (pe_view n2 m dn).
Proof.
  intros H. unfold to_list. cbn [pe_view shape]. apply list_fmap_ext.
  intros j idx Hin. apply list_elem_of_lookup_2, elem_of_indices in Hin.
  inversion Hin as [|p ? r ? Hp Hr]; subst.
  inversion Hr as [|z ? r' ? Hz Hr']; subst.
  inversion Hr' as [|k ? r'' ? Hk Hr'']; subst.
  inversion Hr''; subst. assert (z = 0) as -> by lia. by apply H.
Qed.




(** Line 0 of the table is [0, 1, 0, 1, ...]: position 0 times any frequency
    is 0, and the line holds [sin 0] in its even and [cos 0] in its odd
    columns. *)
Theorem first_row_alternates (d_model : Z) (max_len : option Z) (w : World) :
  (0 < default 5000%Z max_len)%Z -> (0 < d_model)%Z -> Z.even d_model = true ->
  exists self w',
    PositionalEncoding.__init__ d_model max_len w = (Ok self, w')
    /\ forall k, (Z.of_nat k < d_model)%Z ->
         table w' self 0 k = Fin (if Nat.even k then 0 else 1).
Proof.
  intros Hm Hd He.
  destruct (init_valid d_model max_len w ltac:(lia) Hd He)
    as (self & w' & Hrun & Hpe & _ & _ & Hval).
  exists self, w'. split; [done|].
  intros k Hk. rewrite Hval by lia. unfold encoding.
  rewrite angle_zero, sin_0, cos_0. done.
Qed.

Lemma first_row_alternates_witness :
  exists self w',
    PositionalEncoding.__init__ 4 (Some 3%Z) empty_world = (Ok self, w')
    /\ forall k, (Z.of_nat k < 4)%Z ->
         table w' self 0 k = Fin (if Nat.even k then 0 else 1).
Proof.
  apply (first_row_alternates 4 (Some 3%Z) empty_world);
    [simpl; lia | lia | reflexivity].
Defined.

(** Every element of the table is a sine or a cosine: a number between -1
    and 1. *)
Theorem table_entries_in_unit_range (d_model : Z) (max_len : option Z) (w : World) :
  (0 <= default 5000%Z max_len)%Z -> (0 < d_model)%Z -> Z.even d_model = true ->
  exists self w',
    PositionalEncoding.__init__ d_model max_len w = (Ok self, w')
    /\ Forall in_unit_range (to_list w' (PositionalEncoding.pe self)).
Proof.
  intros Hm Hd He.
  destruct (init_valid d_model max_len w Hm Hd He)
    as (self & w' & Hrun & Hpe & _ & _ & Hval).
  exists self, w'. split; [done|].
  rewrite Hpe. apply to_list_pe_view. intros p k Hp Hk.
  specialize (Hval p k Hp Hk). unfold table in Hval. rewrite Hpe in Hval.
  rewrite Hval. unfold encoding, in_unit_range.
  destruct (Nat.even k); [apply SIN_bound|apply COS_bound].
Qed.

Lemma table_entries_in_unit_range_witness :
  exists self w',
    PositionalEncoding.__init__ 4 (Some 3%Z) empty_world = (Ok self, w')
    /\ Forall in_unit_range (to_list w' (PositionalEncoding.pe self)).
Proof.
  apply (table_entries_in_unit_range 4 (Some 3%Z) empty_world);
    [simpl; lia | lia | reflexivity].
Defined.

(** Whether the construction returns, and the exception it raises when it
    does not, do not depend on the store. *)
Lemma init_raised_indep (d_model : Z) (max_len : option Z) (w1 w2 : World) :
  raised (PositionalEncoding.__init__ d_model max_len w1)
  = raised (PositionalEncoding.__init__ d_model max_len w2).
Proof.
  rewrite init_some. generalize (default 5000%Z max_len). clear max_len.
  intros max_len.
  destruct (Z.lt_ge_cases max_len 0) as [Hm|Hm].
  { by rewrite !init_negative by lia. }
  destruct (Z.lt_trichotomy d_model 0) as [Hd|[->|Hd]].
  { by rewrite !init_negative by lia. }
  { destruct (init_zero max_len w1 Hm) as (? & ->).
    destruct (init_zero max_len w2 Hm) as (? & ->). done. }
  destruct (Z.even d_model) eqn:He.
  - destruct (init_even d_model max_len w1 Hm Hd He) as (? & -> & _).
    destruct (init_even d_model max_len w2 Hm Hd He) as (? & -> & _). done.
  - assert (Ho : Z.odd d_model = true) by (by rewrite <- Z.negb_even, He).
    destruct (Z.eq_dec d_model 1%Z) as [->|Hne].
    + destruct (init_one max_len w1 Hm) as (? & -> & _).
      destruct (init_one max_len w2 Hm) as (? & -> & _). done.
    + assert (Hd3 : (3 <= d_model)%Z).
      { apply Zodd_bool_iff, Zodd_ex_iff in Ho as [j Hj]. lia. }
      destruct (init_odd d_model max_len w1 Hm Hd3 Ho) as (? & ->).
      destruct (init_odd d_model max_len w2 Hm Hd3 Ho) as (? & ->). done.
Qed.

(** The table of a module reads the same after any number of forward
    passes. *)
Lemma to_list_forward_all self xs w :
  storage (PositionalEncoding.pe self) < length (storages w) ->
  to_list (forward_all self xs w) (PositionalEncoding.pe self)
  = to_list w (PositionalEncoding.pe self).
Proof. intros Hl. apply to_list_extends; [apply forward_all_extends|done]. Qed.

(** C3: the table is a function of (max_length, model_dimension) alone.  Two
    constructions with the same arguments, in any two stores (whatever input
    sequences and whatever generator state they hold), end the same way:
    both raise the same exception, or both return a table of the same shape
    with the same elements, without drawing a random number; and the
    elements stay what they are through forward passes on any inputs. *)
Theorem table_depends_on_configuration_only
  (d_model : Z) (max_len : option Z) (w1 w2 : World) :
  match PositionalEncoding.__init__ d_model max_len w1,
        PositionalEncoding.__init__ d_model max_len w2 with
  | (Ok s1, w1'), (Ok s2, w2') =>
      shape (PositionalEncoding.pe s1) = shape (PositionalEncoding.pe s2)
      /\ to_list w1' (PositionalEncoding.pe s1)
         = to_list w2' (PositionalEncoding.pe s2)
      /\ rng w1' = rng w1 /\ rng w2' = rng w2
      /\ forall xs1 xs2,
           to_list (forward_all s1 xs1 w1') (PositionalEncoding.pe s1)
           = to_list (forward_all s2 xs2 w2') (PositionalEncoding.pe s2)
  | (Raise e1, _), (Raise e2, _) => e1 = e2
  | _, _ => False
  end.
Proof.
  pose proof (init_raised_indep d_model max_len w1 w2) as Hk.
  destruct (PositionalEncoding.__init__ d_model max_len w1) as [[s1|e1] w1'] eqn:H1;
  destruct (PositionalEncoding.__init__ d_model max_len w2) as [[s2|e2] w2'] eqn:H2;
    simpl in Hk; try done; [|congruence].
  apply init_inv in H1 as (-> & Hext1 & Hlt1 & _ & Hval1).
  apply init_inv in H2 as (-> & Hext2 & Hlt2 & _ & Hval2).
  assert (Heq : to_list w1' (pe_view (length (storages w1))
                   (Z.to_nat (default 5000%Z max_len)) (Z.to_nat d_model))
                = to_list w2' (pe_view (length (storages w2))
                   (Z.to_nat (default 5000%Z max_len)) (Z.to_nat d_model))).
  { apply to_list_pe_view_ext. intros p k Hp Hk'.
    specialize (Hval1 p k Hp Hk'). specialize (Hval2 p k Hp Hk').
    unfold table in *. cbn [PositionalEncoding.pe] in *. congruence. }
  cbn [PositionalEncoding.pe]. split; [done|]. split; [done|].
  split; [by destruct Hext1|]. split; [by destruct Hext2|].
  intros xs1 xs2. rewrite !to_list_forward_all by done. done.
Qed.

(** C4, as the code has it: the construction returns for every even positive
    model_dimension and every max_length that is not negative (an empty table
    for max_length = 0); it raises RuntimeError when max_length or
    model_dimension is negative or model_dimension is odd and at least 3, and
    ZeroDivisionError when model_dimension is 0.  These are the exceptions of
    the tensor library and of Python: the code has no check of its own. *)
Theorem construction_outcomes (d_model : Z) (max_len : option Z) (w : World) :
  ((0 <= default 5000%Z max_len)%Z -> (0 < d_model)%Z -> Z.even d_model = true ->
   exists self w', PositionalEncoding.__init__ d_model max_len w = (Ok self, w'))
  /\ ((default 5000%Z max_len < 0)%Z \/ (d_model < 0)%Z ->
      exists w', PositionalEncoding.__init__ d_model max_len w
                 = (Raise RuntimeError, w'))
  /\ ((0 <= default 5000%Z max_len)%Z -> d_model = 0%Z ->
      exists w', PositionalEncoding.__init__ d_model max_len w
                 = (Raise ZeroDivisionError, w'))
  /\ ((0 <= default 5000%Z max_len)%Z -> (3 <= d_model)%Z -> Z.odd d_model = true ->
      exists w', PositionalEncoding.__init__ d_model max_len w
                 = (Raise RuntimeError, w')).
Proof.
  rewrite init_some. split; [|split; [|split]].
  - intros Hm Hd He.
    destruct (init_even d_model _ w Hm Hd He) as (w' & Hrun & _). eauto.
  - intros H. exists w. by apply init_negative.
  - intros Hm ->. by apply init_zero.
  - intros Hm Hd Ho. by apply init_odd.
Qed.

Lemma construction_outcomes_witness :
  (exists self w',
     PositionalEncoding.__init__ 4 (Some 3%Z) empty_world = (Ok self, w'))
  /\ (exists w', PositionalEncoding.__init__ 4 (Some (-1)%Z) empty_world
                 = (Raise RuntimeError, w'))
  /\ (exists w', PositionalEncoding.__init__ 0 (Some 3%Z) empty_world
                 = (Raise ZeroDivisionError, w'))
  /\ (exists w', PositionalEncoding.__init__ 5 (Some 3%Z) empty_world
                 = (Raise RuntimeError, w')).
Proof.
  split; [|split; [|split]].
  - destruct (construction_outcomes 4 (Some 3%Z) empty_world) as (H & _).
    apply H; [simpl; lia | lia | reflexivity].
  - destruct (construction_outcomes 4 (Some (-1)%Z) empty_world) as (_ & H & _).
    apply H. left. simpl. lia.
  - destruct (construction_outcomes 0 (Some 3%Z) empty_world) as (_ & _ & H & _).
    apply H; [simpl; lia | reflexivity].
  - destruct (construction_outcomes 5 (Some 3%Z) empty_world) as (_ & _ & _ & H).
    apply H; [simpl; lia | lia | reflexivity].
Defined.

(** C4, as stated, fails: with model_dimension = 2 and max_length = 0 the
    construction returns (an empty table), although max_length is not
    positive. *)
Lemma construction_outcomes_counterexample :
  ~ (forall (d_model max_len : Z) (w : World),
       (exists e w', PositionalEncoding.__init__ d_model (Some max_len) w
                     = (Raise e, w'))
       <-> (Z.odd d_model = true \/ (d_model <= 0)%Z \/ (max_len <= 0)%Z)).
Proof.
  intros H. destruct (H 2%Z 0%Z empty_world) as [_ Hfail].
  destruct Hfail as (e & w' & Hrun); [right; right; lia|].
  destruct (init_even 2 0 empty_world) as (w1 & Hok & _); [lia|lia|done|].
  congruence.
Qed.

End Table.

(** ** The forward pass of [PositionalEncoding] *)

Section ForwardClaims.
Import Torch.

Lemma bind_inv_ok {A B} (c : M A) (k : A -> M B) w b w' :
  bind c k w = (Ok b, w') ->
  exists a w1, c w = (Ok a, w1) /\ k a w1 = (Ok b, w').
Proof.
  unfold bind. destruct (c w) as [[a|e] w1]; [|done]. intros H. by exists a, w1.
Qed.

Lemma size_inv t dim w n w' : size t dim w = (Ok n, w') -> w' = w.
Proof. unfold size. destruct (shape t !! dim); [|done]. by intros [= _ ->]. Qed.

Lemma slice_inv dim start stop step t w t' w' :
  slice dim start stop step t w = (Ok t', w') -> w' = w.
Proof.
  unfold slice. destruct (step =? 0); [done|].
  destruct (shape t !! dim); [|done]. destruct (strides t !! dim); [|done].
  by intros [= _ ->].
Qed.

Lemma binary_inv f a b w y w' :
  binary f a b w = (Ok y, w') -> storage y = length (storages w).
Proof.
  unfold binary. destruct (broadcast_shapes _ _); [|done].
  destruct (expand a _); [|done]. destruct (expand b _); [|done].
  by intros [= <- _].
Qed.

(** The tensor a forward pass returns lives in a storage of its own. *)
Lemma forward_fresh self x w y w' :
  PositionalEncoding.forward self x w = (Ok y, w') ->
  storage y = length (storages w).
Proof.
  unfold PositionalEncoding.forward. intros H.
  apply bind_inv_ok in H as (n & w1 & H1 & H).
  apply size_inv in H1 as ->.
  apply bind_inv_ok in H as (v & w2 & H2 & H).
  apply bind_inv_ok in H2 as (s & w3 & H3 & H2).
  apply slice_inv in H3 as ->. apply slice_inv in H2 as ->.
  by apply binary_inv in H.
Qed.

Lemma to_list_same_storage w w' t :
  same_storage w w' t -> to_list w' t = to_list w t.
Proof.
  intros H. unfold to_list. apply list_fmap_ext.
  intros _ idx _. by apply get_same_storage.
Qed.

(** C8: the table is computed at construction and never written again.  In
    every later store in which the storage of the table still holds what the
    construction put there, a forward pass on any input, whether it returns
    or raises, leaves every element of the table as the construction made
    it; what it returns lives in a storage of its own; and so any sequence of
    forward passes reads the same table. *)
Theorem forward_leaves_table_unchanged
  (d_model : Z) (max_len : option Z) (w0 w : World)
  (self : PositionalEncoding.t) (w1 : World) :
  PositionalEncoding.__init__ d_model max_len w0 = (Ok self, w) ->
  same_storage w w1 (PositionalEncoding.pe self) ->
  (forall x,
     to_list (snd (PositionalEncoding.forward self x w1)) (PositionalEncoding.pe self)
     = to_list w (PositionalEncoding.pe self)
     /\ forall y w2, PositionalEncoding.forward self x w1 = (Ok y, w2) ->
          storage y <> storage (PositionalEncoding.pe self))
  /\ (forall xs,
       to_list (forward_all self xs w1) (PositionalEncoding.pe self)
       = to_list w (PositionalEncoding.pe self)
       /\ forall p k, table (forward_all self xs w1) self p k = table w self p k).
Proof.
  intros Hinit Hsame.
  apply init_inv in Hinit as (-> & _ & Hlt & _ & _).
  unfold same_storage in Hsame. cbn [PositionalEncoding.pe pe_view storage] in *.
  assert (Hlt1 : length (storages w0) < length (storages w1)).
  { apply lookup_lt_is_Some. rewrite Hsame. by apply lookup_lt_is_Some. }
  split.
  - intros x. split.
    + rewrite (to_list_extends w1); [|apply forward_allocates|done].
      by apply to_list_same_storage.
    + intros y w2 Hrun. apply forward_fresh in Hrun. cbn [storage]. lia.
  - intros xs. split.
    + rewrite to_list_forward_all by done. by apply to_list_same_storage.
    + intros p k. unfold table. cbn [PositionalEncoding.pe].
      rewrite (get_extends w1); [|apply forward_all_extends|done].
      by apply get_same_storage.
Qed.

Lemma forward_leaves_table_unchanged_witness :
  exists self w,
    PositionalEncoding.__init__ 4 (Some 3%Z) empty_world = (Ok self, w)
    /\ forall xs,
         to_list (forward_all self xs w) (PositionalEncoding.pe self)
         = to_list w (PositionalEncoding.pe self).
Proof.
  destruct (init_valid 4 (Some 3%Z) empty_world) as (self & w & Hrun & _);
    [simpl; lia | lia | reflexivity |].
  exists self, w. split; [exact Hrun|]. intros xs.
  apply (forward_leaves_table_unchanged 4 (Some 3%Z) empty_world w self w Hrun
           eq_refl).
Defined.

(** C2, as the code has it: for a batch [x] of shape
    (L, batch_size, model_dimension), with L no more than the number of lines
    of the table, the forward pass returns a tensor of the shape of [x] whose
    element [(l, b, k)] is [x[l, b, k] + table[l, k]]. *)
Theorem forward_adds_table
  (self : PositionalEncoding.t) (x : Tensor) (w : World) (L B D M : nat) :
  shape (PositionalEncoding.pe self) = [M; 1; D] ->
  wf (PositionalEncoding.pe self) ->
  shape x = [L; B; D] -> wf x -> L <= M ->
  exists y w',
    PositionalEncoding.forward self x w = (Ok y, w')
    /\ shape y = shape x
    /\ forall l b k, l < L -> b < B -> k < D ->
         get w' y [l; b; k] = fadd (get w x [l; b; k]) (table w self l k).
Proof.
  intros Hsh Hwf Hx Hwfx HL. unfold wf in *. rewrite Hsh in Hwf. rewrite Hx in Hwfx.
  destruct (strides (PositionalEncoding.pe self)) as [|s0 [|s1 [|s2 [|? ?]]]] eqn:Hst;
    try done.
  destruct (forward_run self x w L B D M s0 s1 s2 Hsh Hst Hx Hwfx HL)
    as (y & w' & Hrun & Hy & _ & _ & _ & Hval).
  exists y, w'. split; [done|]. split; [congruence|done].
Qed.

Lemma forward_adds_table_witness :
  exists y w',
    PositionalEncoding.forward (PositionalEncoding.mk (pe_view 0 3 4))
      (mkTensor 1 0 [2; 5; 4] [20; 4; 1]) empty_world = (Ok y, w')
    /\ shape y = [2; 5; 4]
    /\ forall l b k, l < 2 -> b < 5 -> k < 4 ->
         get w' y [l; b; k]
         = fadd (get empty_world (mkTensor 1 0 [2; 5; 4] [20; 4; 1]) [l; b; k])
             (table empty_world (PositionalEncoding.mk (pe_view 0 3 4)) l k).
Proof.
  apply (forward_adds_table (PositionalEncoding.mk (pe_view 0 3 4))
           (mkTensor 1 0 [2; 5; 4] [20; 4; 1]) empty_world 2 5 4 3);
    [reflexivity | reflexivity | reflexivity | reflexivity | lia].
Defined.

(** C2, as stated, fails: on a sequence tensor of shape
    (sequence_length, model_dimension) = (2, 2), as the specification has it,
    the forward pass of a module with model_dimension = 2 and max_length = 2
    returns a tensor of shape (2, 2, 2), which is not the shape of its
    input. *)
Lemma forward_adds_table_counterexample :
  exists self w x w1 y w2,
    PositionalEncoding.__init__ 2 (Some 2%Z) empty_world = (Ok self, w)
    /\ tensor_new [2; 2] (fun _ => Fin 1) w = (Ok x, w1)
    /\ PositionalEncoding.forward self x w1 = (Ok y, w2)
    /\ shape x = [2; 2] /\ shape y = [2; 2; 2] /\ shape y <> shape x.
Proof.
  destruct (init_even 2 2 empty_world) as (w & Hrun & _); [lia|lia|done|].
  eexists _, w, _, _, _, _. split; [exact Hrun|]. split; [reflexivity|].
  split; [reflexivity|]. split; [reflexivity|]. split; [reflexivity|]. done.
Qed.

End ForwardClaims.

(** ** [TransformerModel] *)

Section Model.
Import Torch.
Context {L : Layers} {HL : LayersSpec L}.

Lemma length_contiguous (s : list nat) : length (contiguous s) = length s.
Proof. induction s as [|n s IH]; [done|]. simpl. by rewrite IH. Qed.

(** A successful construction of the model, read backwards. *)
Lemma model_init_inv ntoken d nhead nhid nlayers dropout w0 model w :
  TransformerModel.__init__ ntoken d nhead nhid nlayers dropout w0 = (Ok model, w) ->
  exists wa wb wc wd we lay,
    PositionalEncoding.__init__ d None w0
    = (Ok (TransformerModel.pos_encoder model), wa)
    /\ nn_TransformerEncoderLayer d nhead nhid (default (1 / 2)%R dropout) wa
       = (Ok lay, wb)
    /\ nn_TransformerEncoder lay nlayers wb
       = (Ok (TransformerModel.transformer_encoder model), wc)
    /\ nn_Embedding ntoken d wc = (Ok (TransformerModel.encoder model), wd)
    /\ nn_Linear d ntoken wd = (Ok (TransformerModel.decoder model), we)
    /\ TransformerModel.d_model model = d.
Proof.
  unfold TransformerModel.__init__. intros H.
  apply bind_inv_ok in H as (pos & wa & Hpos & H).
  apply bind_inv_ok in H as (lay & wb & Hlay & H).
  apply bind_inv_ok in H as (enc & wc & Henc & H).
  apply bind_inv_ok in H as (emb & wd & Hemb & H).
  apply bind_inv_ok in H as (lin & we & Hlin & H).
  apply bind_inv_ok in H as ([] & wf' & _ & H).
  injection H as <- <-. by exists wa, wb, wc, wd, we, lay.
Qed.

(** The positional encoder of a model has the default 5000 lines. *)
Lemma model_pos_encoder ntoken d nhead nhid nlayers dropout w0 model w :
  TransformerModel.__init__ ntoken d nhead nhid nlayers dropout w0 = (Ok model, w) ->
  (0 < d)%Z
  /\ shape (PositionalEncoding.pe (TransformerModel.pos_encoder model))
     = [Z.to_nat 5000; 1; Z.to_nat d]
  /\ strides (PositionalEncoding.pe (TransformerModel.pos_encoder model))
     = [Z.to_nat d * 1; Z.to_nat 5000 * (Z.to_nat d * 1); 1].
Proof.
  intros H. apply model_init_inv in H as (wa & _ & _ & _ & _ & _ & Hpos & _).
  apply init_inv in Hpos as (-> & _ & _ & Hd & _). done.
Qed.

(** [src = self.encoder(src) * math.sqrt(self.d_model)] *)
Lemma model_embed ntoken d nhead nhid nlayers dropout w0 model w src n b w1 :
  TransformerModel.__init__ ntoken d nhead nhid nlayers dropout w0 = (Ok model, w) ->
  shape src = [n; b] -> tokens_in_range w1 src ntoken ->
  exists x w2,
    (e <- Embedding_forward (TransformerModel.encoder model) src ;;
     c <- math_sqrt (TransformerModel.d_model model) ;;
     mul_scalar e c) w1 = (Ok x, w2)
    /\ shape x = [n; b; Z.to_nat d] /\ wf x.
Proof.
  intros Hinit Hsrc Htok.
  pose proof (model_pos_encoder _ _ _ _ _ _ _ _ _ Hinit) as (Hd & _).
  apply model_init_inv in Hinit as (wa & wb & wc & wd & we & lay & _ & _ & _
                                     & Hemb & _ & Hdm).
  destruct (Embedding_forward_shape _ _ _ _ _ Hemb w1 src n b Hsrc Htok)
    as (e & w2 & Hrun & Hsh).
  eexists _, _. split; [|split].
  - rewrite (bind_ok _ _ _ _ _ Hrun).
    erewrite bind_ok; cycle 1.
    { unfold math_sqrt. rewrite Hdm. destruct (Z.ltb_spec d 0); [lia|done]. }
    done.
  - done.
  - unfold wf. cbn [shape strides]. apply length_contiguous.
Qed.

(** The forward pass of a model of at least one layer on a sequence of at
    most 5000 tokens that is not empty. *)
Lemma model_forward_ok ntoken d nhead nhid nlayers dropout w0 model w
  src src_mask n b w1 :
  TransformerModel.__init__ ntoken d nhead nhid nlayers dropout w0 = (Ok model, w) ->
  (1 <= nlayers)%Z -> 0 < n -> 0 < b ->
  shape src = [n; b] -> tokens_in_range w1 src ntoken ->
  shape src_mask = [n; n] -> (Z.of_nat n <= 5000)%Z ->
  exists out w2,
    TransformerModel.forward model src src_mask w1 = (Ok out, w2)
    /\ shape out = [n; b; Z.to_nat ntoken].
Proof.
  intros Hinit Hlayers Hn0 Hb0 Hsrc Htok Hmask Hn.
  destruct (model_embed _ _ _ _ _ _ _ _ _ src n b w1 Hinit Hsrc Htok)
    as (x & w2 & Hx & Hxsh & Hxwf).
  pose proof (model_pos_encoder _ _ _ _ _ _ _ _ _ Hinit) as (Hd & Hpsh & Hpst).
  destruct (forward_run (TransformerModel.pos_encoder model) x w2 n b (Z.to_nat d)
              (Z.to_nat 5000) _ _ _ Hpsh Hpst Hxsh)
    as (y & w3 & Hy & Hysh & _); [by rewrite Hxwf, Hxsh|lia|].
  apply model_init_inv in Hinit as (wa & wb & wc & wd & we & lay & _ & Hlay & Henc
                                     & _ & Hlin & _).
  destruct (TransformerEncoder_forward_shape _ _ _ _ _ _ _ _ _ _ _ Hlay Henc
              Hlayers w3 y src_mask n b Hn0 Hb0 Hysh Hmask) as (z & w4 & Hz & Hzsh).
  destruct (Linear_forward_shape _ _ _ _ _ Hlin w4 z n b Hzsh)
    as (out & w5 & Hout & Houtsh).
  exists out, w5. split; [|done].
  unfold TransformerModel.forward.
  rewrite (bind_ok _ _ _ _ _ Hx), (bind_ok _ _ _ _ _ Hy), (bind_ok _ _ _ _ _ Hz),
    (bind_ok _ _ _ _ _ Hout). done.
Qed.

(** The forward pass of the model on a sequence of more than 5000 tokens
    stops at the addition of the table. *)
Lemma model_forward_too_long ntoken d nhead nhid nlayers dropout w0 model w
  src src_mask n b w1 :
  TransformerModel.__init__ ntoken d nhead nhid nlayers dropout w0 = (Ok model, w) ->
  shape src = [n; b] -> tokens_in_range w1 src ntoken ->
  (5000 < Z.of_nat n)%Z ->
  exists x w2,
    (e <- Embedding_forward (TransformerModel.encoder model) src ;;
     c <- math_sqrt (TransformerModel.d_model model) ;;
     mul_scalar e c) w1 = (Ok x, w2)
    /\ PositionalEncoding.forward (TransformerModel.pos_encoder model) x w2
       = (Raise RuntimeError, w2)
    /\ TransformerModel.forward model src src_mask w1 = (Raise RuntimeError, w2).
Proof.
  intros Hinit Hsrc Htok Hn.
  destruct (model_embed _ _ _ _ _ _ _ _ _ src n b w1 Hinit Hsrc Htok)
    as (x & w2 & Hx & Hxsh & Hxwf).
  pose proof (model_pos_encoder _ _ _ _ _ _ _ _ _ Hinit) as (Hd & Hpsh & Hpst).
  assert (Hy : PositionalEncoding.forward (TransformerModel.pos_encoder model) x w2
               = (Raise RuntimeError, w2)).
  { eapply forward_raise; [exact Hpsh|exact Hpst|exact Hxsh|lia|lia]. }
  exists x, w2. split; [done|]. split; [done|].
  unfold TransformerModel.forward.
  rewrite (bind_ok _ _ _ _ _ Hx), (bind_raise _ _ _ _ _ Hy). done.
Qed.

End Model.

(** ** The zero layers meet the interface *)

Section ZeroLayersSpec.
Import Torch.

Lemma zero_layers_spec : LayersSpec ZeroLayers.layers.
Proof.
  split.
  - intros ntoken d w0 e w1 Hnew w src n b Hsrc _.
    apply bind_inv_ok in Hnew as (weight & w' & _ & Hret).
    injection Hret as <- _.
    eexists _, _. split.
    + cbn [Embedding_forward ZeroLayers.layers]. unfold ZeroLayers.embedding_forward.
      rewrite Hsrc. reflexivity.
    + done.
  - intros d nhead nhid dropout nlayers w0 l w1 w2 enc w3 _ _ _ w x mask n b
      _ _ Hx _.
    by exists x, w.
  - intros d_in d_out w0 lin w1 Hnew w x n b Hx.
    apply bind_inv_ok in Hnew as (weight & w' & _ & Hnew).
    apply bind_inv_ok in Hnew as (bias & w'' & _ & Hret).
    injection Hret as <- _.
    eexists _, _. split.
    + cbn [Linear_forward ZeroLayers.layers]. unfold ZeroLayers.linear_forward.
      rewrite Hx. reflexivity.
    + done.
Qed.

(** A model of vocabulary 10, dimension 2 and two layers on the zero layers,
    built in the empty store. *)
Lemma zero_model_init :
  exists model w,
    TransformerModel.__init__ (L := ZeroLayers.layers) 10 2 1 2 2 None empty_world
    = (Ok model, w).
Proof.
  destruct (init_valid 2 None empty_world) as (pos & w & Hrun & _);
    [simpl; lia | lia | reflexivity |].
  eexists _, _. unfold TransformerModel.__init__.
  rewrite (bind_ok _ _ _ _ _ Hrun). reflexivity.
Qed.

(** A tensor of [n] times one token, all of id 0, allocated in [w]. *)
Lemma zero_tokens (n : nat) (ntoken : Z) (w : World) :
  (0 < ntoken)%Z ->
  exists src w1,
    tensor_new [n; 1] (fun _ => Fin (IZR 0)) w = (Ok src, w1)
    /\ shape src = [n; 1] /\ tokens_in_range w1 src ntoken.
Proof.
  intros Hn. eexists _, _. split; [reflexivity|]. split; [done|].
  intros idx Hin. exists 0%Z. split; [|lia].
  apply elem_of_indices in Hin. cbn [shape] in Hin.
  by rewrite (get_fresh _ _ _ _ _ idx).
Qed.

End ZeroLayersSpec.

(** ** The length of the sequences a model accepts *)

Section ModelClaims.
Import Torch.

(** C9: a model builds its positional encoder with the default max_len of
    5000, so the table has 5000 lines.  Whenever the forward pass returns, the
    sequence has at most 5000 tokens: for a longer one the addition of the
    truncated table raises, and the forward pass with it.  (Up to 5000 tokens
    the pass does return, for a model of at least one layer and an input
    that is not empty.) *)
Theorem transformer_sequence_limit {L : Layers} {HL : LayersSpec L}
  (ntoken d nhead nhid nlayers : Z) (dropout : option R) (w0 : World)
  (model : TransformerModel.t) (w : World) :
  TransformerModel.__init__ ntoken d nhead nhid nlayers dropout w0 = (Ok model, w) ->
  (exists wa, PositionalEncoding.__init__ d None w0
              = (Ok (TransformerModel.pos_encoder model), wa))
  /\ shape (PositionalEncoding.pe (TransformerModel.pos_encoder model))
     = [Z.to_nat 5000; 1; Z.to_nat d]
  /\ forall src src_mask n b w1,
       shape src = [n; b] -> tokens_in_range w1 src ntoken ->
       (forall out w2,
          TransformerModel.forward model src src_mask w1 = (Ok out, w2) ->
          (Z.of_nat n <= 5000)%Z)
       /\ ((5000 < Z.of_nat n)%Z ->
           exists x w2,
             (e <- Embedding_forward (TransformerModel.encoder model) src ;;
              c <- math_sqrt (TransformerModel.d_model model) ;;
              mul_scalar e c) w1 = (Ok x, w2)
             /\ PositionalEncoding.forward (TransformerModel.pos_encoder model) x w2
                = (Raise RuntimeError, w2)
             /\ TransformerModel.forward model src src_mask w1
                = (Raise RuntimeError, w2))
       /\ ((1 <= nlayers)%Z -> 0 < n -> 0 < b ->
           (Z.of_nat n <= 5000)%Z -> shape src_mask = [n; n] ->
           exists out w2,
             TransformerModel.forward model src src_mask w1 = (Ok out, w2)).
Proof.
  intros Hinit. split; [|split].
  - pose proof (model_init_inv _ _ _ _ _ _ _ _ _ Hinit)
      as (wa & _ & _ & _ & _ & _ & Hpos & _). by exists wa.
  - by destruct (model_pos_encoder _ _ _ _ _ _ _ _ _ Hinit) as (_ & Hsh & _).
  - intros src src_mask n b w1 Hsrc Htok.
    assert (Hlong : (5000 < Z.of_nat n)%Z ->
      exists x w2,
        (e <- Embedding_forward (TransformerModel.encoder model) src ;;
         c <- math_sqrt (TransformerModel.d_model model) ;;
         mul_scalar e c) w1 = (Ok x, w2)
        /\ PositionalEncoding.forward (TransformerModel.pos_encoder model) x w2
           = (Raise RuntimeError, w2)
        /\ TransformerModel.forward model src src_mask w1
           = (Raise RuntimeError, w2)).
    { intros Hn. by eapply model_forward_too_long. }
    split; [|split; [exact Hlong|]].
    + intros out w2 Hrun.
      destruct (Z.le_gt_cases (Z.of_nat n) 5000) as [Hle|Hgt]; [done|].
      destruct (Hlong ltac:(lia)) as (x & w3 & _ & _ & Hraise). congruence.
    + intros Hlayers Hn0 Hb0 Hn Hmask.
      destruct (model_forward_ok _ _ _ _ _ _ _ _ _ src src_mask n b w1
                  Hinit Hlayers Hn0 Hb0 Hsrc Htok Hmask Hn) as (out & w2 & Hrun & _).
      by exists out, w2.
Qed.

Lemma transformer_sequence_limit_witness :
  exists model w,
    TransformerModel.__init__ (L := ZeroLayers.layers) 10 2 1 2 2 None empty_world
    = (Ok model, w)
    /\ shape (PositionalEncoding.pe (TransformerModel.pos_encoder model))
       = [Z.to_nat 5000; 1; Z.to_nat 2].
Proof.
  destruct zero_model_init as (model & w & Hinit).
  exists model, w. split; [exact Hinit|].
  apply (transformer_sequence_limit (HL := zero_layers_spec)
           10 2 1 2 2 None empty_world model w Hinit).
Defined.

(** C10, as the code has it: for a model of at least one encoder layer and a
    token tensor of shape (sequence_length, batch_size) that is not empty,
    with sequence_length at most 5000, token ids in [0, ntoken) and a mask of
    shape (sequence_length, sequence_length), the forward pass returns a
    tensor of shape (sequence_length, batch_size, ntoken). *)
Theorem transformer_output_shape {L : Layers} {HL : LayersSpec L}
  (ntoken d nhead nhid nlayers : Z) (dropout : option R) (w0 : World)
  (model : TransformerModel.t) (w : World)
  (src src_mask : Tensor) (n b : nat) (w1 : World) :
  TransformerModel.__init__ ntoken d nhead nhid nlayers dropout w0 = (Ok model, w) ->
  (1 <= nlayers)%Z -> 0 < n -> 0 < b ->
  shape src = [n; b] -> tokens_in_range w1 src ntoken ->
  shape src_mask = [n; n] -> (Z.of_nat n <= 5000)%Z ->
  exists out w2,
    TransformerModel.forward model src src_mask w1 = (Ok out, w2)
    /\ shape out = [n; b; Z.to_nat ntoken].
Proof. apply model_forward_ok. Qed.

Lemma transformer_output_shape_witness :
  exists model w src w1 out w2,
    TransformerModel.__init__ (L := ZeroLayers.layers) 10 2 1 2 2 None empty_world
    = (Ok model, w)
    /\ tensor_new [3; 1] (fun _ => Fin (IZR 0)) w = (Ok src, w1)
    /\ TransformerModel.forward model src (mkTensor 0 0 [3; 3] [0; 0]) w1
       = (Ok out, w2)
    /\ shape out = [3; 1; Z.to_nat 10].
Proof.
  destruct zero_model_init as (model & w & Hinit).
  destruct (zero_tokens 3 10 w) as (src & w1 & Hsrc & Hsh & Htok); [lia|].
  destruct (transformer_output_shape (HL := zero_layers_spec)
              10 2 1 2 2 None empty_world model w src (mkTensor 0 0 [3; 3] [0; 0])
              3 1 w1 Hinit ltac:(lia) ltac:(lia) ltac:(lia) Hsh Htok eq_refl
              ltac:(lia)) as (out & w2 & Hrun & Hout).
  by exists model, w, src, w1, out, w2.
Defined.

(** C10, as stated, fails: a sequence of 5001 tokens has the shape and the
    token ids the claim asks for, and the forward pass raises instead of
    returning a tensor. *)
Lemma transformer_output_shape_counterexample :
  ~ (forall (L : Layers), LayersSpec L ->
     forall ntoken d nhead nhid nlayers dropout w0 model w src src_mask n b w1,
       TransformerModel.__init__ ntoken d nhead nhid nlayers dropout w0
       = (Ok model, w) ->
       shape src = [n; b] -> tokens_in_range w1 src ntoken ->
       shape src_mask = [n; n] ->
       exists out w2,
         TransformerModel.forward model src src_mask w1 = (Ok out, w2)
         /\ shape out = [n; b; Z.to_nat ntoken]).
Proof.
  intros H.
  destruct zero_model_init as (model & w & Hinit).
  destruct (zero_tokens (Z.to_nat 5001) 10 w) as (src & w1 & Hsrc & Hsh & Htok); [lia|].
  set (mask := mkTensor 0 0 [Z.to_nat 5001; Z.to_nat 5001] [0; 0]).
  destruct (H ZeroLayers.layers zero_layers_spec _ _ _ _ _ _ _ _ _ src mask _ _ w1
              Hinit Hsh Htok eq_refl) as (out & w2 & Hrun & _).
  destruct (model_forward_too_long (HL := zero_layers_spec)
              _ _ _ _ _ _ _ _ _ src mask _ _ w1 Hinit Hsh Htok ltac:(lia))
    as (x & w3 & _ & _ & Hraise).
  congruence.
Qed.

End ModelClaims.

(** ** Softmax and the attention weights *)

Section Attention.
Import AttentionMath.

Lemma fsum_Fin (l : list R) : fsum (Fin <$> l) = Fin (sum_R l).
Proof.
  induction l as [|x l IH]; [done|].
  cbn [fmap list_fmap]. unfold fsum, sum_R in *. cbn [foldr]. by rewrite IH.
Qed.

Lemma sum_R_nonneg (l : list R) : Forall (fun x => 0 <= x)%R l -> (0 <= sum_R l)%R.
Proof.
  induction 1 as [|x l Hx _ IH]; unfold sum_R in *; cbn [foldr]; lra.
Qed.

Lemma sum_R_pos (l : list R) :
  Forall (fun x => 0 <= x)%R l -> Exists (fun x => 0 < x)%R l -> (0 < sum_R l)%R.
Proof.
  intros Hall Hex. induction Hall as [|x l Hx Hl IH].
  - by apply Exists_nil in Hex.
  - pose proof (sum_R_nonneg l Hl) as Hs.
    unfold sum_R in *. cbn [foldr].
    apply Exists_cons in Hex as [Hpos|Hex]; [lra|]. specialize (IH Hex). lra.
Qed.

Lemma sum_R_bound (l : list R) x :
  Forall (fun x => 0 <= x)%R l -> x ∈ l -> (x <= sum_R l)%R.
Proof.
  intros Hall Hin. induction Hall as [|y l Hy Hl IH].
  - by apply elem_of_nil in Hin.
  - pose proof (sum_R_nonneg l Hl) as Hs. unfold sum_R in *. cbn [foldr].
    apply elem_of_cons in Hin as [->|Hin]; [lra|]. specialize (IH Hin). lra.
Qed.

Lemma sum_R_scale (l : list R) c :
  sum_R ((fun x => x / c)%R <$> l) = (sum_R l / c)%R.
Proof.
  induction l as [|x l IH]; unfold sum_R in *; cbn [fmap list_fmap foldr].
  - lra.
  - rewrite IH. lra.
Qed.

(** The maximum of a row of scores: negative infinity when every pair is
    masked, else the largest of the finite scores. *)
Lemma row_max_spec (l : list tfloat) :
  Forall is_score l ->
  (foldr fmax NInf l = NInf /\ Forall (fun v => v = NInf) l)
  \/ (exists M, foldr fmax NInf l = Fin M
                /\ Forall (fun v => forall r, v = Fin r -> (r <= M)%R) l).
Proof.
  induction 1 as [|v l Hv Hl IH]; [left; done|].
  cbn [foldr]. destruct IH as [[-> Hall]|(M & -> & Hall)].
  - destruct v as [r| | |]; try done.
    + right. exists r. split; [done|]. constructor.
      * intros r' [= ->]. lra.
      * eapply Forall_impl; [exact Hall|]. by intros ? -> r'.
    + left. split; [done|]. by constructor.
  - right. destruct v as [r| | |]; try done.
    + exists (Rmax r M). split; [done|]. constructor.
      * intros r' [= ->]. apply Rmax_l.
      * eapply Forall_impl; [exact Hall|]. intros v Hv' r' Hr'.
        specialize (Hv' r' Hr'). pose proof (Rmax_r r M). lra.
    + exists M. split; [done|]. constructor; [done|]. done.
Qed.

(** The exponentials of a row with at least one finite score are real
    numbers, none negative and one positive. *)
Lemma row_exps (l : list tfloat) :
  Forall is_score l -> Exists (fun v => isfinite v = true) l ->
  exists es : list R,
    (fun s => fexp (fsub s (foldr fmax NInf l))) <$> l = Fin <$> es
    /\ length es = length l
    /\ Forall (fun x => 0 <= x)%R es /\ Exists (fun x => 0 < x)%R es.
Proof.
  intros Hall Hex.
  destruct (row_max_spec l Hall) as [[_ Hninf]|(M & -> & _)].
  { exfalso. apply Exists_exists in Hex as (v & Hin & Hfin).
    rewrite Forall_forall in Hninf. rewrite (Hninf v Hin) in Hfin. done. }
  clear -Hall Hex. induction Hall as [|v l Hv Hl IH].
  { by apply Exists_nil in Hex. }
  assert (Htail : exists es : list R,
    (fun s => fexp (fsub s (Fin M))) <$> l = Fin <$> es
    /\ length es = length l /\ Forall (fun x => 0 <= x)%R es
    /\ (Exists (fun v => isfinite v = true) l -> Exists (fun x => 0 < x)%R es)).
  { clear -Hl. induction Hl as [|v l Hv Hl (es & Heq & Hlen & Hnn & Hpos)].
    - exists []. repeat split; try done. intros H. by apply Exists_nil in H.
    - destruct v as [r| | |]; try done.
      + exists (Rtrigo_def.exp (r + - M) :: es). cbn [fmap list_fmap length].
        rewrite Heq, Hlen. repeat split; try done.
        * constructor; [|done]. left. apply exp_pos.
        * intros _. apply Exists_cons_hd, exp_pos.
      + exists (0%R :: es). cbn [fmap list_fmap length].
        rewrite Heq, Hlen. repeat split; try done.
        * constructor; [lra|done].
        * intros H. apply Exists_cons in H as [H|H]; [done|].
          apply Exists_cons_tl. by apply Hpos. }
  destruct Htail as (es & Heq & Hlen & Hnn & Hpos).
  destruct v as [r| | |]; try done.
  - exists (Rtrigo_def.exp (r + - M) :: es). cbn [fmap list_fmap length].
    rewrite Heq, Hlen. repeat split; try done.
    + constructor; [|done]. left. apply exp_pos.
    + apply Exists_cons_hd, exp_pos.
  - exists (0%R :: es). cbn [fmap list_fmap length].
    rewrite Heq, Hlen. repeat split; try done.
    + constructor; [lra|done].
    + apply Exists_cons in Hex as [H|H]; [done|].
      apply Exists_cons_tl. by apply Hpos.
Qed.

(** The softmax of a row with at least one finite score is a probability
    distribution. *)
Lemma softmax_stochastic (l : list tfloat) :
  Forall is_score l -> Exists (fun v => isfinite v = true) l ->
  length (softmax l) = length l /\ stochastic (softmax l).
Proof.
  intros Hall Hex.
  destruct (row_exps l Hall Hex) as (es & Heq & Hlen & Hnn & Hpos).
  pose proof (sum_R_pos es Hnn Hpos) as HS.
  assert (Hsm : softmax l = Fin <$> ((fun x => x / sum_R es)%R <$> es)).
  { unfold softmax. rewrite Heq, fsum_Fin. rewrite <- !list_fmap_compose.
    apply list_fmap_ext. intros _ x _. cbn [compose fdiv].
    destruct (Req_dec_T (sum_R es) 0); [lra|done]. }
  rewrite Hsm. split; [by rewrite !length_fmap|]. split.
  - apply Forall_fmap, Forall_fmap, Forall_forall. intros x Hin. cbn.
    eexists. split; [done|].
    pose proof (sum_R_bound es x Hnn Hin) as Hb.
    rewrite Forall_forall in Hnn. specialize (Hnn x Hin).
    split.
    + apply Rmult_le_pos; [done|]. left. by apply Rinv_0_lt_compat.
    + apply Rmult_le_reg_r with (sum_R es); [done|].
      unfold Rdiv. rewrite Rmult_assoc, Rinv_l by lra. lra.
  - rewrite fsum_Fin, sum_R_scale. f_equal. field. lra.
Qed.

(** C5, as the specification's attention has it: when every query has at
    least one key it may attend to (so there is at least one key, and no row
    of the mask is all true), the weights returned are row-stochastic: one row
    per query, one weight per key, every weight in [0, 1], every row of
    sum 1. *)
Theorem attention_weights_row_stochastic
  (Q K V : Matrix R) (mask : option (Matrix bool))
  (output weights : list (list tfloat)) :
  scaled_dot_product_attention Q K V mask = inr (output, weights) ->
  (forall i, i < rows Q -> exists j, j < rows K /\ allowed mask i j) ->
  length weights = rows Q
  /\ Forall (fun row => length row = rows K /\ stochastic row) weights.
Proof.
  unfold scaled_dot_product_attention. intros Hrun Hrow.
  destruct (negb (cols Q =? cols K)); [done|].
  destruct (cols Q =? 0); [done|].
  destruct (match mask with Some _ => _ | None => _ end); [done|].
  injection Hrun as _ <-. split; [by rewrite length_fmap, length_seq|].
  apply Forall_fmap, Forall_forall. intros i Hi. apply elem_of_seq in Hi. cbn.
  destruct (Hrow i ltac:(lia)) as (j & Hj & Hallowed).
  destruct (softmax_stochastic ((fun j => score Q K mask i j) <$> seq 0 (rows K)))
    as (Hlen & Hst).
  - apply Forall_fmap, Forall_forall. intros j' _. cbn. unfold score.
    by destruct (match mask with Some _ => _ | None => _ end).
  - apply Exists_exists. exists (score Q K mask i j). split.
    + apply list_elem_of_fmap. exists j. split; [done|]. apply elem_of_seq. lia.
    + unfold score, allowed in *. destruct mask as [m|]; [by rewrite Hallowed|done].
  - by rewrite Hlen, length_fmap, length_seq in *.
Qed.

Lemma attention_weights_row_stochastic_witness :
  exists output weights,
    scaled_dot_product_attention
      (mkMatrix 1 2 (fun _ _ => 1%R)) (mkMatrix 2 2 (fun _ _ => 1%R))
      (mkMatrix 2 1 (fun _ _ => 1%R)) None = inr (output, weights)
    /\ length weights = 1
    /\ Forall (fun row => length row = 2 /\ stochastic row) weights.
Proof.
  eexists _, _. split; [reflexivity|].
  apply (attention_weights_row_stochastic
           (mkMatrix 1 2 (fun _ _ => 1%R)) (mkMatrix 2 2 (fun _ _ => 1%R))
           (mkMatrix 2 1 (fun _ _ => 1%R)) None _ _ eq_refl).
  intros i Hi. exists 0. split; [simpl; lia|done].
Defined.

(** C5, as stated, fails: with one query and no key, Q of shape (1, 1), K of
    shape (0, 1) and V of shape (0, 1), the one row of weights is empty, and
    its sum is 0. *)
Lemma attention_weights_row_stochastic_counterexample :
  ~ (forall (Q K V : Matrix R) output weights,
       scaled_dot_product_attention Q K V None = inr (output, weights) ->
       Forall stochastic weights).
Proof.
  intros H.
  specialize (H (mkMatrix 1 1 (fun _ _ => 0%R)) (mkMatrix 0 1 (fun _ _ => 0%R))
                (mkMatrix 0 1 (fun _ _ => 0%R)) _ _ eq_refl).
  cbn in H. apply Forall_cons in H as [[_ Hsum] _].
  cbn in Hsum. injection Hsum as Hsum. lra.
Qed.

End Attention.

(** ** The learning-rate schedule *)

Section ScheduleProofs.
Import Schedule.
Local Open Scope R_scope.

Lemma Rpower_neg_half (x : R) : 0 < x -> Rpower x (-0.5) = / sqrt x.
Proof.
  intros Hx. replace (-0.5) with (- / 2) by lra.
  by rewrite Rpower_Ropp, Rpower_sqrt.
Qed.

Lemma Rpower_three_halves (x : R) : 0 < x -> Rpower x 1.5 = x * sqrt x.
Proof.
  intros Hx. replace 1.5 with (1 + / 2) by lra.
  by rewrite Rpower_plus, Rpower_1, Rpower_sqrt.
Qed.

Lemma Rpower_neg_three_halves (x : R) : 0 < x -> Rpower x (-1.5) = / (x * sqrt x).
Proof.
  intros Hx. replace (-1.5) with (Ropp 1.5) by lra.
  by rewrite Rpower_Ropp, Rpower_three_halves.
Qed.

Lemma IZR_pos (z : Z) : (0 < z)%Z -> 0 < IZR z.
Proof. intros H. apply (IZR_lt 0). lia. Qed.

(** On positive arguments the formula is a product of two floats. *)
Lemma lrate_positive_run (d s w : Z) :
  (0 < d)%Z -> (0 < s)%Z -> (0 < w)%Z ->
  lrate d s w
  = inr (Float (/ sqrt (IZR d)
                * (if Rlt_dec (IZR s * / (IZR w * sqrt (IZR w))) (/ sqrt (IZR s))
                   then IZR s * / (IZR w * sqrt (IZR w))
                   else / sqrt (IZR s)))).
Proof.
  intros Hd Hs Hw. unfold lrate, pow.
  destruct (Z.ltb_spec 0 d); [|lia]. destruct (Z.ltb_spec 0 s); [|lia].
  destruct (Z.ltb_spec 0 w); [|lia]. cbn [min mul_int mul].
  rewrite !Rpower_neg_half, Rpower_neg_three_halves by (by apply IZR_pos).
  done.
Qed.

(** The linear branch is below the square-root branch exactly during the
    warm-up. *)
Lemma branches_compare (s w : R) :
  0 < s -> 0 < w ->
  (s * / (w * sqrt w) < / sqrt s <-> s < w)
  /\ (s = w -> s * / (w * sqrt w) = / sqrt s).
Proof.
  intros Hs Hw.
  pose proof (sqrt_lt_R0 s Hs) as Hqs. pose proof (sqrt_lt_R0 w Hw) as Hqw.
  assert (Hss : sqrt s * sqrt s = s) by (apply sqrt_sqrt; lra).
  assert (Hww : sqrt w * sqrt w = w) by (apply sqrt_sqrt; lra).
  assert (Hpos : 0 < w * sqrt w) by (by apply Rmult_lt_0_compat).
  assert (Heq : s * / (w * sqrt w) - / sqrt s
                = (s * sqrt s - w * sqrt w) * / (w * sqrt w * sqrt s)).
  { field. split; lra. }
  assert (Hden : 0 < / (w * sqrt w * sqrt s)).
  { apply Rinv_0_lt_compat. by apply Rmult_lt_0_compat. }
  split.
  - split.
    + intros Hlt. destruct (Rlt_le_dec s w) as [|Hge]; [done|]. exfalso.
      assert (sqrt w <= sqrt s) by (by apply sqrt_le_1_alt).
      assert (0 <= s * sqrt s - w * sqrt w) by nra.
      assert (0 <= (s * sqrt s - w * sqrt w) * / (w * sqrt w * sqrt s)).
      { apply Rmult_le_pos; lra. }
      lra.
    + intros Hlt.
      assert (sqrt s < sqrt w) by (apply sqrt_lt_1_alt; lra).
      assert (s * sqrt s - w * sqrt w < 0) by nra.
      assert ((s * sqrt s - w * sqrt w) * / (w * sqrt w * sqrt s) < 0).
      { rewrite Rmult_comm. apply Rmult_pos_neg; lra. }
      lra.
  - intros ->. apply Rminus_diag_uniq. rewrite Heq. lra.
Qed.

(** What [min] picks: the linear branch up to the warm-up, the square-root
    branch from it on. *)
Lemma min_branch_warmup (s w : R) :
  0 < s -> s <= w ->
  (if Rlt_dec (s * / (w * sqrt w)) (/ sqrt s)
   then s * / (w * sqrt w) else / sqrt s)
  = s * / (w * sqrt w).
Proof.
  intros Hs Hsw. assert (Hw : 0 < w) by lra.
  destruct (branches_compare s w Hs Hw) as [Hlt Heq].
  destruct (Rlt_dec _ _) as [_|Hn]; [done|].
  destruct Hsw as [Hl|He].
  - exfalso. apply Hn. by apply Hlt.
  - symmetry. by apply Heq.
Qed.

Lemma min_branch_decay (s w : R) :
  0 < w -> w <= s ->
  (if Rlt_dec (s * / (w * sqrt w)) (/ sqrt s)
   then s * / (w * sqrt w) else / sqrt s)
  = / sqrt s.
Proof.
  intros Hw Hws. assert (Hs : 0 < s) by lra.
  destruct (branches_compare s w Hs Hw) as [Hlt _].
  destruct (Rlt_dec _ _) as [Hl|_]; [|done].
  apply Hlt in Hl. lra.
Qed.

Lemma inv_sqrt_mult (d s : R) :
  0 < d -> 0 < s -> / sqrt d * / sqrt s = / sqrt (d * s).
Proof. intros Hd Hs. rewrite sqrt_mult by lra. by rewrite Rinv_mult. Qed.

(** The warm-up: for a positive model dimension and a step from 1 to
    warmup_steps, the rate is [step_num / (sqrt(d_model) * warmup_steps^1.5)],
    linear in the step. *)
Theorem lrate_warmup_is_linear (d_model step_num warmup_steps : Z) :
  (0 < d_model)%Z -> (0 < step_num)%Z -> (step_num <= warmup_steps)%Z ->
  lrate d_model step_num warmup_steps
  = inr (Float (IZR step_num
                / (sqrt (IZR d_model)
                   * (IZR warmup_steps * sqrt (IZR warmup_steps))))).
Proof.
  intros Hd Hs Hsw. rewrite lrate_positive_run by lia.
  pose proof (IZR_pos d_model Hd) as HD. pose proof (IZR_pos step_num Hs) as HS.
  pose proof (IZR_pos warmup_steps ltac:(lia)) as HW.
  pose proof (sqrt_lt_R0 _ HD). pose proof (sqrt_lt_R0 _ HW).
  rewrite min_branch_warmup; [|done|by apply IZR_le].
  do 2 f_equal. field. split; lra.
Qed.

Lemma lrate_warmup_is_linear_witness :
  lrate 512 100 4000
  = inr (Float (IZR 100 / (sqrt (IZR 512) * (IZR 4000 * sqrt (IZR 4000))))).
Proof. apply lrate_warmup_is_linear; lia. Defined.

(** The decay: for a positive model dimension and a step from warmup_steps
    on, the rate is [1 / sqrt(d_model * step_num)]. *)
Theorem lrate_decay_is_inverse_sqrt (d_model step_num warmup_steps : Z) :
  (0 < d_model)%Z -> (0 < warmup_steps)%Z -> (warmup_steps <= step_num)%Z ->
  lrate d_model step_num warmup_steps
  = inr (Float (/ sqrt (IZR d_model * IZR step_num))).
Proof.
  intros Hd Hw Hws. rewrite lrate_positive_run by lia.
  pose proof (IZR_pos d_model Hd) as HD. pose proof (IZR_pos warmup_steps Hw) as HW.
  pose proof (IZR_pos step_num ltac:(lia)) as HS.
  rewrite min_branch_decay; [|done|by apply IZR_le].
  by rewrite inv_sqrt_mult.
Qed.

Lemma lrate_decay_is_inverse_sqrt_witness :
  lrate 512 8000 4000 = inr (Float (/ sqrt (IZR 512 * IZR 8000))).
Proof. apply lrate_decay_is_inverse_sqrt; lia. Defined.

(** For positive arguments the rate is a positive float, never above
    [1 / sqrt(d_model * warmup_steps)], a value it takes at
    step_num = warmup_steps only. *)
Lemma lrate_below_bound (d_model step_num warmup_steps : Z) :
  (0 < d_model)%Z -> (0 < step_num)%Z -> (0 < warmup_steps)%Z ->
  exists r,
    lrate d_model step_num warmup_steps = inr (Float r)
    /\ 0 < r <= / sqrt (IZR d_model * IZR warmup_steps)
    /\ (r = / sqrt (IZR d_model * IZR warmup_steps) <-> step_num = warmup_steps).
Proof.
  intros Hd Hs Hw.
  pose proof (IZR_pos d_model Hd) as HD. pose proof (IZR_pos step_num Hs) as HS.
  pose proof (IZR_pos warmup_steps Hw) as HW.
  pose proof (sqrt_lt_R0 _ HD) as HqD. pose proof (sqrt_lt_R0 _ HS) as HqS.
  pose proof (sqrt_lt_R0 _ HW) as HqW.
  assert (HWW : sqrt (IZR warmup_steps) * sqrt (IZR warmup_steps) = IZR warmup_steps)
    by (apply sqrt_sqrt; lra).
  assert (Hpk : / sqrt (IZR d_model * IZR warmup_steps)
                = / (sqrt (IZR d_model) * sqrt (IZR warmup_steps))).
  { by rewrite sqrt_mult by lra. }
  rewrite lrate_positive_run by lia. eexists. split; [reflexivity|].
  destruct (Z.lt_trichotomy step_num warmup_steps) as [Hlt|[Heq|Hgt]].
  - assert (Hlt' : IZR step_num < IZR warmup_steps) by (by apply IZR_lt).
    rewrite min_branch_warmup; [|done|lra].
    assert (Hval : / sqrt (IZR d_model)
                   * (IZR step_num * / (IZR warmup_steps * sqrt (IZR warmup_steps)))
                   = / (sqrt (IZR d_model) * sqrt (IZR warmup_steps))
                     * (IZR step_num / IZR warmup_steps)).
    { field. repeat split; lra. }
    assert (Hfr : 0 < IZR step_num / IZR warmup_steps < 1).
    { split.
      - by apply Rdiv_lt_0_compat.
      - apply Rmult_lt_reg_r with (IZR warmup_steps); [done|].
        unfold Rdiv. rewrite Rmult_assoc, Rinv_l by lra. lra. }
    assert (Hp : 0 < / (sqrt (IZR d_model) * sqrt (IZR warmup_steps))).
    { apply Rinv_0_lt_compat. by apply Rmult_lt_0_compat. }
    rewrite Hval, Hpk. split; [nra|]. split; [nra|lia].
  - subst step_num. rewrite min_branch_decay; [|done|lra].
    rewrite inv_sqrt_mult by done.
    split; [|done]. split; [|lra].
    apply Rinv_0_lt_compat, sqrt_lt_R0. by apply Rmult_lt_0_compat.
  - assert (Hgt' : IZR warmup_steps < IZR step_num) by (by apply IZR_lt).
    rewrite min_branch_decay; [|done|lra].
    rewrite inv_sqrt_mult by done.
    assert (Hq : sqrt (IZR d_model * IZR warmup_steps)
                 < sqrt (IZR d_model * IZR step_num)).
    { apply sqrt_lt_1_alt. split; nra. }
    assert (Hqw : 0 < sqrt (IZR d_model * IZR warmup_steps)).
    { apply sqrt_lt_R0. by apply Rmult_lt_0_compat. }
    assert (Hinv : / sqrt (IZR d_model * IZR step_num)
                   < / sqrt (IZR d_model * IZR warmup_steps)).
    { apply Rinv_lt_contravar; [|done]. apply Rmult_lt_0_compat; lra. }
    assert (0 < / sqrt (IZR d_model * IZR step_num)).
    { apply Rinv_0_lt_compat. lra. }
    split; [lra|]. split; [lra|lia].
Qed.

(** The peak, in exact arithmetic and for arguments below [2^32] (where no
    float of the formula overflows or underflows): the rate is a positive
    float, never above the rate at step_num = warmup_steps, and equal to it
    at that step only. *)
Theorem lrate_peaks_at_warmup (d_model step_num warmup_steps : Z) :
  (0 < d_model < 2 ^ 32)%Z -> (0 < step_num < 2 ^ 32)%Z ->
  (0 < warmup_steps < 2 ^ 32)%Z ->
  exists r rmax,
    lrate d_model step_num warmup_steps = inr (Float r)
    /\ lrate d_model warmup_steps warmup_steps = inr (Float rmax)
    /\ 0 < r <= rmax
    /\ (r = rmax <-> step_num = warmup_steps).
Proof.
  intros [Hd _] [Hs _] [Hw _].
  destruct (lrate_below_bound d_model step_num warmup_steps Hd Hs Hw)
    as (r & Hr & Hbound & Hiff).
  destruct (lrate_below_bound d_model warmup_steps warmup_steps Hd Hw Hw)
    as (rmax & Hrmax & _ & Hmax).
  assert (Heq : rmax = / sqrt (IZR d_model * IZR warmup_steps)) by (by apply Hmax).
  subst rmax. exists r, (/ sqrt (IZR d_model * IZR warmup_steps)).
  split; [exact Hr|]. split; [exact Hrmax|]. split; [exact Hbound|exact Hiff].
Qed.

Lemma lrate_peaks_at_warmup_witness :
  exists r rmax,
    lrate 512 100 4000 = inr (Float r)
    /\ lrate 512 4000 4000 = inr (Float rmax)
    /\ 0 < r <= rmax
    /\ (r = rmax <-> 100%Z = 4000%Z).
Proof. apply lrate_peaks_at_warmup; lia. Defined.

(** The shape of the schedule, in exact arithmetic and for arguments below
    [2^32]: the rate grows strictly with the step up to warmup_steps and
    shrinks strictly from warmup_steps on. *)
Theorem lrate_grows_then_shrinks (d_model warmup_steps s1 s2 : Z) :
  (0 < d_model < 2 ^ 32)%Z -> (0 < warmup_steps < 2 ^ 32)%Z ->
  (0 < s1 < s2)%Z -> (s2 < 2 ^ 32)%Z ->
  exists r1 r2,
    lrate d_model s1 warmup_steps = inr (Float r1)
    /\ lrate d_model s2 warmup_steps = inr (Float r2)
    /\ ((s2 <= warmup_steps)%Z -> r1 < r2)
    /\ ((warmup_steps <= s1)%Z -> r2 < r1).
Proof.
  intros [Hd _] [Hw _] [Hs1 Hs12] _.
  pose proof (IZR_pos d_model Hd) as HD. pose proof (IZR_pos s1 Hs1) as HS1.
  pose proof (IZR_pos warmup_steps Hw) as HW.
  pose proof (IZR_lt _ _ Hs12) as HS12.
  pose proof (sqrt_lt_R0 _ HD) as HqD. pose proof (sqrt_lt_R0 _ HW) as HqW.
  pose proof (sqrt_lt_R0 _ HS1) as HqS1.
  assert (HpD : 0 < / sqrt (IZR d_model)) by (by apply Rinv_0_lt_compat).
  rewrite !lrate_positive_run by lia. eexists _, _.
  split; [reflexivity|]. split; [reflexivity|]. split.
  - intros Hle. apply IZR_le in Hle.
    rewrite (min_branch_warmup (IZR s1)), (min_branch_warmup (IZR s2)) by lra.
    apply Rmult_lt_compat_l; [done|]. apply Rmult_lt_compat_r; [|done].
    apply Rinv_0_lt_compat. by apply Rmult_lt_0_compat.
  - intros Hle. apply IZR_le in Hle.
    rewrite (min_branch_decay (IZR s1)), (min_branch_decay (IZR s2)) by lra.
    apply Rmult_lt_compat_l; [done|]. apply Rinv_lt_contravar.
    + apply Rmult_lt_0_compat; [done|]. apply sqrt_lt_R0. lra.
    + apply sqrt_lt_1_alt. lra.
Qed.

Lemma lrate_grows_then_shrinks_witness :
  exists r1 r2,
    lrate 512 100 4000 = inr (Float r1)
    /\ lrate 512 200 4000 = inr (Float r2)
    /\ ((200 <= 4000)%Z -> r1 < r2)
    /\ ((4000 <= 100)%Z -> r2 < r1).
Proof. apply lrate_grows_then_shrinks; lia. Defined.

(** Division by zero: for integers that fit a float, when d_model, step_num
    or warmup_steps is 0 (a step counter that starts at 0, for one), the
    formula raises ZeroDivisionError. *)
Theorem lrate_zero_raises (d_model step_num warmup_steps : Z) :
  fits_float d_model -> fits_float step_num -> fits_float warmup_steps ->
  d_model = 0%Z \/ step_num = 0%Z \/ warmup_steps = 0%Z ->
  lrate d_model step_num warmup_steps = inl ZeroDivisionError.
Proof.
  intros _ _ _.
  assert (Hz : pow 0 (-0.5) = inl ZeroDivisionError).
  { unfold pow. cbn [Z.ltb Z.eqb Z.compare]. destruct (Rlt_dec _ _); [done|lra]. }
  assert (Hz' : pow 0 (-1.5) = inl ZeroDivisionError).
  { unfold pow. cbn [Z.ltb Z.eqb Z.compare]. destruct (Rlt_dec _ _); [done|lra]. }
  assert (Hnz : forall x y, x <> 0%Z -> exists v, pow x y = inr v).
  { intros x y Hx. unfold pow. destruct (Z.ltb_spec 0 x); [by eexists|].
    destruct (Z.eqb_spec x 0); [done|by eexists]. }
  intros H. unfold lrate.
  destruct (Z.eq_dec d_model 0%Z) as [->|Hd]; [by rewrite Hz|].
  destruct (Hnz d_model (-0.5) Hd) as (a & ->).
  destruct (Z.eq_dec step_num 0%Z) as [->|Hs]; [by rewrite Hz|].
  destruct (Hnz step_num (-0.5) Hs) as (b & ->).
  destruct H as [?|[?| ->]]; [done|done|]. by rewrite Hz'.
Qed.

Lemma lrate_zero_raises_witness : lrate 512 0 4000 = inl ZeroDivisionError.
Proof.
  apply lrate_zero_raises; [reflexivity | reflexivity | reflexivity |].
  right. left. reflexivity.
Defined.

(** Negative arguments: for integers that fit a float, none of them 0, a
    negative step_num or warmup_steps makes [min] compare a complex number
    and raise TypeError; a negative d_model alone gives a complex rate, with
    no exception. *)
Theorem lrate_negative_arguments (d_model step_num warmup_steps : Z) :
  fits_float d_model -> fits_float step_num -> fits_float warmup_steps ->
  d_model <> 0%Z -> step_num <> 0%Z -> warmup_steps <> 0%Z ->
  ((step_num < 0)%Z \/ (warmup_steps < 0)%Z ->
   lrate d_model step_num warmup_steps = inl TypeError)
  /\ ((d_model < 0)%Z -> (0 < step_num)%Z -> (0 < warmup_steps)%Z ->
      exists re im, lrate d_model step_num warmup_steps = inr (Complex re im)).
Proof.
  intros _ _ _ Hd Hs Hw.
  assert (Hpos : forall x y, (0 < x)%Z -> exists r, pow x y = inr (Float r)).
  { intros x y Hx. unfold pow. destruct (Z.ltb_spec 0 x); [by eexists|lia]. }
  assert (Hneg : forall x y, (x < 0)%Z -> exists a b, pow x y = inr (Complex a b)).
  { intros x y Hx. unfold pow. destruct (Z.ltb_spec 0 x); [lia|].
    destruct (Z.eqb_spec x 0); [lia|by eexists _, _]. }
  assert (Hany : forall x y, x <> 0%Z -> exists v, pow x y = inr v).
  { intros x y Hx. destruct (Z.lt_trichotomy x 0) as [H|[H|H]]; [|done|].
    - destruct (Hneg x y H) as (a & b & ->). by eexists.
    - destruct (Hpos x y H) as (r & ->). by eexists. }
  split.
  - intros H. unfold lrate.
    destruct (Hany d_model (-0.5) Hd) as (a & ->).
    destruct (Z.lt_trichotomy step_num 0) as [Hs'|[?|Hs']]; [|done|].
    + destruct (Hneg step_num (-0.5) Hs') as (b1 & b2 & ->).
      destruct (Hany warmup_steps (-1.5) Hw) as (c & ->). done.
    + destruct (Hpos step_num (-0.5) Hs') as (b & ->).
      destruct H as [H|H]; [lia|].
      destruct (Hneg warmup_steps (-1.5) H) as (c1 & c2 & ->). done.
  - intros Hd' Hs' Hw'. unfold lrate.
    destruct (Hneg d_model (-0.5) Hd') as (a1 & a2 & ->).
    destruct (Hpos step_num (-0.5) Hs') as (b & ->).
    destruct (Hpos warmup_steps (-1.5) Hw') as (c & ->).
    cbn [min mul_int mul]. by eexists _, _.
Qed.

Lemma lrate_negative_arguments_witness :
  lrate 512 (-1) 4000 = inl TypeError
  /\ exists re im, lrate (-512) 1 4000 = inr (Complex re im).
Proof.
  split.
  - destruct (lrate_negative_arguments 512 (-1) 4000) as [H _];
      [reflexivity|reflexivity|reflexivity|lia|lia|lia|].
    apply H. left. lia.
  - destruct (lrate_negative_arguments (-512) 1 4000) as [_ H];
      [reflexivity|reflexivity|reflexivity|lia|lia|lia|].
    apply H; lia.
Defined.

End ScheduleProofs.

(** ** More on the table *)

Section TableExtras.
Import Torch.
Import AttentionMath.
Local Open Scope R_scope.

Lemma sum_R_app (l1 l2 : list R) : sum_R (l1 ++ l2) = sum_R l1 + sum_R l2.
Proof.
  induction l1 as [|x l1 IH]; unfold sum_R in *; cbn [app foldr]; [lra|].
  rewrite IH. lra.
Qed.

Lemma sum_R_pairs (g : nat -> R) (h : nat) :
  (forall i, (i < h)%nat -> g (2 * i)%nat + g (2 * i + 1)%nat = 1) ->
  sum_R (g <$> seq 0 (2 * h)) = INR h.
Proof.
  induction h as [|h IH]; intros Hg; [done|].
  replace (2 * S h)%nat with (2 * h + 2)%nat by lia.
  rewrite seq_app, fmap_app, sum_R_app, IH by (intros i Hi; apply Hg; lia).
  cbn [seq fmap list_fmap]. unfold sum_R. cbn [foldr].
  specialize (Hg h ltac:(lia)). rewrite S_INR.
  replace (S (0 + 2 * h)) with (2 * h + 1)%nat by lia.
  replace (0 + 2 * h)%nat with (2 * h)%nat by lia. lra.
Qed.

Lemma even_half (d_model : Z) :
  (0 < d_model)%Z -> Z.even d_model = true ->
  Z.to_nat d_model = (2 * (Z.to_nat d_model / 2))%nat
  /\ INR (Z.to_nat d_model / 2) = IZR d_model / 2.
Proof.
  intros Hd He. apply Zeven_bool_iff, Zeven_ex_iff in He as [j ->].
  assert (Hn : Z.to_nat (2 * j) = (Z.to_nat j * 2)%nat) by lia.
  rewrite Hn, Nat.div_mul by done. split; [lia|].
  rewrite INR_IZR_INZ, Z2Nat.id by lia. rewrite mult_IZR. lra.
Qed.


(** Unit circle: in every line of the table each pair of columns
    [(2i, 2i+1)] is a point of the unit circle, [sin^2 + cos^2 = 1]; so the
    squares of a line sum to [d_model / 2], whatever the position. *)
Theorem table_pairs_lie_on_unit_circle
  (d_model : Z) (max_len : option Z) (w : World) :
  (0 <= default 5000%Z max_len)%Z -> (0 < d_model)%Z -> Z.even d_model = true ->
  exists self w',
    PositionalEncoding.__init__ d_model max_len w = (Ok self, w')
    /\ (forall p i,
          (Z.of_nat p < default 5000%Z max_len)%Z -> (Z.of_nat i < d_model / 2)%Z ->
          exists s c,
            table w' self p (2 * i) = Fin s /\ table w' self p (2 * i + 1) = Fin c
            /\ s * s + c * c = 1)
    /\ (forall p, (Z.of_nat p < default 5000%Z max_len)%Z ->
          row_sq_norm w' self p (Z.to_nat d_model) = Fin (IZR d_model / 2)).
Proof.
  intros Hm Hd He.
  destruct (init_valid d_model max_len w Hm Hd He)
    as (self & w' & Hrun & _ & _ & _ & Hval).
  destruct (even_half d_model Hd He) as [Hdn Hhalf].
  exists self, w'. split; [done|]. split.
  - intros p i Hp Hi.
    assert (Hk : (2 * i + 1 < Z.to_nat d_model)%nat).
    { apply Zeven_bool_iff, Zeven_ex_iff in He as [j ->].
      rewrite Z.mul_comm, Z.div_mul in Hi by done. lia. }
    eexists _, _. rewrite !Hval by lia. rewrite encoding_even, encoding_odd.
    split; [done|]. split; [done|].
    pose proof (sin2_cos2 (angle d_model p i)) as H. unfold Rsqr in H. lra.
  - intros p Hp. unfold row_sq_norm.
    set (g := fun k : nat =>
      if Nat.even k then Rtrigo_def.sin (angle d_model p (k / 2))
                         * Rtrigo_def.sin (angle d_model p (k / 2))
      else Rtrigo_def.cos (angle d_model p (k / 2))
           * Rtrigo_def.cos (angle d_model p (k / 2))).
    assert (Hl : (fun k => fmul (table w' self p k) (table w' self p k))
                   <$> seq 0 (Z.to_nat d_model)
                 = Fin <$> (g <$> seq 0 (Z.to_nat d_model))).
    { rewrite <- list_fmap_compose. apply list_fmap_ext. intros j k Hk.
      apply list_elem_of_lookup_2, elem_of_seq in Hk.
      rewrite Hval by lia. unfold encoding, g. cbn. by destruct (Nat.even k). }
    rewrite Hl, fsum_Fin. rewrite Hdn at 1. rewrite sum_R_pairs; [by rewrite Hhalf|].
    intros i Hi. unfold g.
    replace (Nat.even (2 * i)) with true
      by (symmetry; apply Nat.even_spec; by exists i).
    replace (Nat.even (2 * i + 1)) with false.
    2:{ symmetry. rewrite <- Nat.negb_odd. apply negb_false_iff, Nat.odd_spec.
        by exists i. }
    rewrite (Nat.mul_comm 2 i), Nat.div_mul by done.
    rewrite (Nat.add_comm (i * 2) 1), Nat.div_add by done.
    change (1 / 2 + i)%nat with i.
    pose proof (sin2_cos2 (angle d_model p i)) as H. unfold Rsqr in H. lra.
Qed.

Lemma table_pairs_lie_on_unit_circle_witness :
  exists self w',
    PositionalEncoding.__init__ 4 (Some 3%Z) empty_world = (Ok self, w')
    /\ forall p, (Z.of_nat p < 3)%Z -> row_sq_norm w' self p (Z.to_nat 4) = Fin (IZR 4 / 2).
Proof.
  destruct (table_pairs_lie_on_unit_circle 4 (Some 3%Z) empty_world)
    as (self & w' & Hrun & _ & Hrow); [simpl; lia | lia | reflexivity |].
  by exists self, w'.
Defined.



Lemma ln_10000_pos : 0 < ln 10000.
Proof. rewrite <- ln_1. apply ln_increasing; lra. Qed.

(** The frequencies: [div_term] starts at 1 and decreases strictly, and all
    its elements are above 1/10000, for every positive d_model (even or
    odd) up to [2^23]: there every index is a float, and two neighbouring
    frequencies are further apart than two neighbouring floats. *)
Theorem div_term_decreases_from_one (d_model : Z) (w : World) :
  (0 < d_model)%Z -> (d_model <= 8388608)%Z ->
  exists div_term w',
    (a <- arange 0 d_model 2 ;;
     a <- float a ;;
     c <- truediv (- math_log 10000) d_model ;;
     b <- mul_scalar a c ;;
     exp b) w = (Ok div_term, w')
    /\ shape div_term = [((Z.to_nat d_model + 1) / 2)%nat]
    /\ get w' div_term [0%nat] = Fin 1
    /\ forall i, (i < (Z.to_nat d_model + 1) / 2)%nat ->
         exists r, get w' div_term [i] = Fin r /\ / 10000 < r <= 1
           /\ forall j, (i < j < (Z.to_nat d_model + 1) / 2)%nat ->
                exists r', get w' div_term [j] = Fin r' /\ r' < r.
Proof.
  intros Hd Hd23.
  destruct (div_term_run d_model w Hd)
    as (div & w' & Hrun & Hsh & _ & _ & _ & _ & Hval).
  pose proof (IZR_lt 0 d_model Hd) as HD. pose proof ln_10000_pos as Hln.
  assert (Hfl : forall i, (i < (Z.to_nat d_model + 1) / 2)%nat ->
                  IZR (round_int (0 + Z.of_nat i * 2)) = 2 * INR i).
  { intros i Hi. apply IZR_even_index.
    pose proof (Nat.Div0.mul_div_le (Z.to_nat d_model + 1) 2). lia. }
  assert (Hc : - ln 10000 / IZR d_model < 0).
  { unfold Rdiv. apply Rmult_neg_pos; [lra|]. by apply Rinv_0_lt_compat. }
  assert (Hh : (0 < (Z.to_nat d_model + 1) / 2)%nat).
  { apply Nat.div_str_pos. lia. }
  exists div, w'. split; [done|]. split; [done|]. split.
  - rewrite Hval by done. f_equal. rewrite Hfl by done. cbn [INR].
    rewrite Rmult_0_r, Rmult_0_l. apply exp_0.
  - intros i Hi. eexists. split; [by apply Hval|].
    rewrite Hfl by done.
    assert (H2i : 2 * INR i < IZR d_model).
    { pose proof (Nat.Div0.mul_div_le (Z.to_nat d_model + 1) 2) as Hle.
      assert (Hlt : (2 * i < Z.to_nat d_model)%nat) by lia.
      assert (HdR : INR (Z.to_nat d_model) = IZR d_model).
      { rewrite INR_IZR_INZ, Z2Nat.id by lia. done. }
      apply lt_INR in Hlt. rewrite mult_INR, HdR in Hlt.
      cbn [INR] in Hlt. lra. }
    pose proof (pos_INR i) as Hi0.
    split; [split|].
    + replace (/ 10000) with (Rtrigo_def.exp (- ln 10000)).
      2:{ rewrite exp_Ropp, exp_ln by lra. done. }
      apply exp_increasing.
      replace (2 * INR i * (- ln 10000 / IZR d_model))
        with (- ln 10000 * (2 * INR i / IZR d_model)) by (field; lra).
      assert (2 * INR i / IZR d_model < 1).
      { apply Rmult_lt_reg_r with (IZR d_model); [done|].
        unfold Rdiv. rewrite Rmult_assoc, Rinv_l by lra. lra. }
      assert (0 <= 2 * INR i / IZR d_model).
      { apply Rmult_le_pos; [lra|]. left. by apply Rinv_0_lt_compat. }
      nra.
    + rewrite <- exp_0. destruct (Req_dec (INR i) 0) as [->|Hne].
      * right. f_equal. ring.
      * left. apply exp_increasing. nra.
    + intros j [Hij Hj]. eexists. split; [by apply Hval|].
      rewrite Hfl by done. apply exp_increasing.
      apply lt_INR in Hij. nra.
Qed.

Lemma div_term_decreases_from_one_witness :
  exists div_term w',
    (a <- arange 0 4 2 ;;
     a <- float a ;;
     c <- truediv (- math_log 10000) 4 ;;
     b <- mul_scalar a c ;;
     exp b) empty_world = (Ok div_term, w')
    /\ get w' div_term [0%nat] = Fin 1.
Proof.
  destruct (div_term_decreases_from_one 4 empty_world)
    as (div & w' & Hrun & _ & H0 & _); [lia|lia|].
  by exists div, w'.
Defined.

(** The one-dimensional edge: for d_model = 1 the construction returns (the
    empty view [pe[:, 1::2]] takes the one column of cosines by broadcast),
    and the table has the one column [sin(p)], at the positions up to [2^24]
    (the integers a 32-bit float holds). *)
Theorem one_dimensional_table (max_len : option Z) (w : World) :
  (0 <= default 5000%Z max_len)%Z ->
  exists self w',
    PositionalEncoding.__init__ 1 max_len w = (Ok self, w')
    /\ shape (PositionalEncoding.pe self)
       = [Z.to_nat (default 5000%Z max_len); 1%nat; 1%nat]
    /\ forall p, (Z.of_nat p < default 5000%Z max_len)%Z ->
         (Z.of_nat p <= 2 ^ 24)%Z ->
         table w' self p 0 = Fin (Rtrigo_def.sin (INR p)).
Proof.
  intros Hm. rewrite init_some.
  destruct (init_one _ w Hm) as (w' & Hrun & _ & _ & Hval).
  eexists _, w'. split; [exact Hrun|]. split; [done|].
  intros p Hp Hp24. unfold table. cbn [PositionalEncoding.pe].
  rewrite Hval by lia. unfold encoding, angle. cbn [Nat.even Nat.div].
  change (0 / 2)%nat with 0%nat.
  change (round_int (0 + Z.of_nat 0 * 2)) with 0%Z.
  rewrite Rmult_0_l, exp_0, Rmult_1_r. by rewrite IZR_pos_index by lia.
Qed.

Lemma one_dimensional_table_witness :
  exists self w',
    PositionalEncoding.__init__ 1 (Some 3%Z) empty_world = (Ok self, w')
    /\ shape (PositionalEncoding.pe self) = [Z.to_nat 3; 1%nat; 1%nat]
    /\ table w' self 2 0 = Fin (Rtrigo_def.sin (INR 2)).
Proof.
  destruct (one_dimensional_table (Some 3%Z) empty_world)
    as (self & w' & Hrun & Hsh & Hval); [simpl; lia|].
  exists self, w'. split; [exact Hrun|]. split; [exact Hsh|].
  apply Hval; simpl; lia.
Defined.

End TableExtras.

(** ** What the construction leaves alone *)

Section InitFrame.
Import Torch.

Lemma keeps_of_allocates {A} (n : nat) (c : M A) : allocates c -> keeps n c.
Proof.
  intros Hc w Hn. destruct (Hc w) as [Hr [ext Hext]].
  split; [done|]. rewrite Hext. split.
  - rewrite length_app. lia.
  - intros l Hl. apply lookup_app_l. lia.
Qed.

Lemma keeps_bind_post {A B} (n : nat) (Q : A -> Prop) (c : M A) (k : A -> M B) :
  keeps n c ->
  (forall w a w', n <= length (storages w) -> c w = (Ok a, w') -> Q a) ->
  (forall a, Q a -> keeps n (k a)) ->
  keeps n (bind c k).
Proof.
  intros Hc HQ Hk w Hn. specialize (Hc w Hn). specialize (HQ w).
  unfold bind. destruct (c w) as [[a|e] w1]; [|done].
  cbn [snd] in Hc. destruct Hc as (Hr & Hlen & Hl).
  destruct (Hk a (HQ a w1 Hn eq_refl) w1 ltac:(lia)) as (Hr' & Hlen' & Hl').
  split; [congruence|]. split; [lia|].
  intros l Hlt. rewrite Hl' by done. by apply Hl.
Qed.

Lemma keeps_bind {A B} (n : nat) (c : M A) (k : A -> M B) :
  keeps n c -> (forall a, keeps n (k a)) -> keeps n (bind c k).
Proof.
  intros Hc Hk. apply (keeps_bind_post n (fun _ => True)); [done|done|].
  intros a _. apply Hk.
Qed.

(** Writing through a view of a storage at or above [n] keeps the storages
    below [n]. *)
Lemma keeps_copy (n : nat) (dst src : Tensor) :
  n <= storage dst -> keeps n (copy_ dst src).
Proof.
  intros Hdst w Hn. unfold copy_.
  destruct (expand src (shape dst)) as [src'|]; [|done].
  rewrite foldl_store. cbn [snd storages rng]. split; [done|].
  rewrite length_alter. split; [done|].
  intros l Hl. apply list_lookup_alter_ne. lia.
Qed.

Lemma slice_storage dim start stop step t w t' w' :
  slice dim start stop step t w = (Ok t', w') -> storage t' = storage t.
Proof.
  unfold slice. destruct (step =? 0); [done|].
  destruct (shape t !! dim); [|done]. destruct (strides t !! dim); [|done].
  by intros [= <- _].
Qed.

Lemma zeros_storage sizes w t w' :
  zeros sizes w = (Ok t, w') -> storage t = length (storages w).
Proof. unfold zeros. destruct (forallb _ _); [|done]. by intros [= <- _]. Qed.

Lemma allocates_zeros sizes : allocates (zeros sizes).
Proof.
  unfold zeros. destruct (forallb _ _);
    [apply allocates_tensor_new|apply allocates_raise].
Qed.

Lemma allocates_arange a b c : allocates (arange a b c).
Proof.
  unfold arange. destruct (c =? 0)%Z; [apply allocates_raise|].
  destruct (_ || _); [apply allocates_raise|apply allocates_tensor_new].
Qed.

Lemma allocates_unsqueeze dim t : allocates (unsqueeze dim t).
Proof.
  unfold unsqueeze. destruct (dim <=? _); [apply allocates_ret|apply allocates_raise].
Qed.

Lemma allocates_transpose d0 d1 t : allocates (transpose d0 d1 t).
Proof.
  unfold transpose.
  destruct (shape t !! d0); [|apply allocates_raise].
  destruct (shape t !! d1); [|apply allocates_raise].
  destruct (strides t !! d0); [|apply allocates_raise].
  destruct (strides t !! d1); [apply allocates_ret|apply allocates_raise].
Qed.

Lemma allocates_truediv a b : allocates (truediv a b).
Proof.
  unfold truediv. destruct (b =? 0)%Z; [apply allocates_raise|apply allocates_ret].
Qed.

(** One strided assignment of [__init__] keeps the storages below that of
    the table. *)
Lemma keeps_assign (n : nat) (f : tfloat -> tfloat) (o : nat)
  (pe position div_term : Tensor) :
  n <= storage pe ->
  keeps n (v <- (a <- mul position div_term ;; unary f a) ;;
           dst <- (s <- slice 0 0 None 1 pe ;; slice 1 o None 2 s) ;;
           copy_ dst v).
Proof.
  intros Hpe. apply keeps_bind.
  { apply keeps_of_allocates, allocates_bind; [apply allocates_binary|].
    intros a. apply allocates_unary. }
  intros v. apply (keeps_bind_post n (fun dst => n <= storage dst)).
  - apply keeps_of_allocates, allocates_bind; [apply allocates_slice|].
    intros s. apply allocates_slice.
  - intros w dst w' _ Hrun. apply bind_inv_ok in Hrun as (s & w1 & H1 & H2).
    apply slice_storage in H1, H2. lia.
  - intros dst Hdst. by apply keeps_copy.
Qed.

(** The construction writes to no storage that existed before it ran, frees
    none and draws no random number, whether it returns or raises: every
    tensor of the store it started in reads the same afterwards. *)
Theorem construction_touches_nothing_else
  (d_model : Z) (max_len : option Z) (w : World) :
  extends w (snd (PositionalEncoding.__init__ d_model max_len w))
  /\ forall t, storage t < length (storages w) ->
       to_list (snd (PositionalEncoding.__init__ d_model max_len w)) t
       = to_list w t.
Proof.
  assert (Hk : keeps (length (storages w)) (PositionalEncoding.__init__ d_model max_len)).
  { unfold PositionalEncoding.__init__. cbv zeta.
    apply (keeps_bind_post _ (fun pe => length (storages w) <= storage pe)).
    - apply keeps_of_allocates, allocates_zeros.
    - intros w1 pe w1' Hn Hrun. apply zeros_storage in Hrun. lia.
    - intros pe Hpe. apply keeps_bind.
      { apply keeps_of_allocates, allocates_bind; [apply allocates_arange|].
        intros a. apply allocates_unsqueeze. }
      intros position. apply keeps_bind.
      { apply keeps_of_allocates.
        apply allocates_bind; [apply allocates_arange|intros a].
        apply allocates_bind; [apply allocates_ret|intros a'].
        apply allocates_bind; [apply allocates_truediv|intros c].
        apply allocates_bind; [apply allocates_unary|intros b].
        apply allocates_unary. }
      intros div_term. apply keeps_bind; [by apply (keeps_assign _ fsin)|].
      intros _. apply keeps_bind; [by apply (keeps_assign _ fcos)|].
      intros _. apply keeps_of_allocates.
      apply allocates_bind; [|intros pe'; apply allocates_ret].
      apply allocates_bind; [apply allocates_unsqueeze|intros a].
      apply allocates_transpose. }
  destruct (Hk w (le_n _)) as (Hr & Hlen & Hl).
  assert (Hext : extends w (snd (PositionalEncoding.__init__ d_model max_len w))).
  { by apply extends_of_lookup. }
  split; [done|]. intros t Ht. by apply to_list_extends.
Qed.

Lemma construction_touches_nothing_else_witness :
  to_list (snd (PositionalEncoding.__init__ 4 (Some 3%Z)
                  {| storages := [[Fin 1%R; Fin 2%R]]; rng := 0 |}))
    (mkTensor 0 0 [2] [1])
  = to_list {| storages := [[Fin 1%R; Fin 2%R]]; rng := 0 |} (mkTensor 0 0 [2] [1]).
Proof.
  destruct (construction_touches_nothing_else 4 (Some 3%Z)
              {| storages := [[Fin 1%R; Fin 2%R]]; rng := 0 |}) as [_ H].
  apply H. simpl. lia.
Defined.

End InitFrame.

(** ** More on the forward pass *)

Section ForwardExtras.
Import Torch.

Ltac eqb_cases :=
  repeat match goal with
         | |- context [?a =? ?b] =>
             destruct (Nat.eqb_spec a b); cbn -[Nat.eqb]
         end.

Lemma bind_inv_raise {A B} (c : M A) (k : A -> M B) w e w' :
  bind c k w = (Raise e, w') ->
  c w = (Raise e, w') \/ exists a w1, c w = (Ok a, w1) /\ k a w1 = (Raise e, w').
Proof.
  unfold bind. destruct (c w) as [[a|e1] w1]; intros H.
  - right. by exists a, w1.
  - left. by injection H as -> ->.
Qed.

Lemma size_raise_inv t dim w e w' :
  size t dim w = (Raise e, w') -> w' = w /\ e = IndexError.
Proof. unfold size. destruct (shape t !! dim); [done|]. by intros [= <- <-]. Qed.

Lemma slice_raise_inv dim start stop step t w e w' :
  step <> 0 -> slice dim start stop step t w = (Raise e, w') ->
  w' = w /\ e = IndexError.
Proof.
  intros Hs. unfold slice. destruct (Nat.eqb_spec step 0); [done|].
  destruct (shape t !! dim); [|by intros [= <- <-]].
  destruct (strides t !! dim); [done|by intros [= <- <-]].
Qed.

Lemma binary_raise_inv f a b w e w' :
  binary f a b w = (Raise e, w') -> w' = w /\ e = RuntimeError.
Proof.
  unfold binary. destruct (broadcast_shapes _ _); [|by intros [= <- <-]].
  destruct (expand a _); [|by intros [= <- <-]].
  destruct (expand b _); [done|by intros [= <- <-]].
Qed.

Lemma binary_ok_inv f a b w y w' :
  binary f a b w = (Ok y, w') ->
  exists vs, w' = alloc w vs /\ length vs = numel (shape y)
             /\ storage y = length (storages w) /\ offset y = 0
             /\ strides y = contiguous (shape y).
Proof.
  unfold binary. destruct (broadcast_shapes _ _) as [s|]; [|done].
  destruct (expand a _); [|done]. destruct (expand b _); [|done].
  intros [= <- <-]. eexists. split; [done|].
  by rewrite length_fmap, length_indices.
Qed.

(** The effect of a forward pass on the store.  When it raises, the
    exception is IndexError (an input or a table without the dimension that
    is indexed) or RuntimeError (shapes that do not broadcast), and the store
    is as it was.  When it returns, the store has exactly one storage more,
    that of the result, which starts at its first element and holds one
    element per index of its shape; no random number is drawn. *)
Theorem forward_store_effect (self : PositionalEncoding.t) (x : Tensor) (w : World) :
  (forall e w', PositionalEncoding.forward self x w = (Raise e, w') ->
     w' = w /\ (e = IndexError \/ e = RuntimeError))
  /\ (forall y w', PositionalEncoding.forward self x w = (Ok y, w') ->
       exists vs, storages w' = storages w ++ [vs] /\ rng w' = rng w
                  /\ length vs = numel (shape y)
                  /\ storage y = length (storages w) /\ offset y = 0).
Proof.
  unfold PositionalEncoding.forward. split.
  - intros e w' H.
    apply bind_inv_raise in H as [H|(n & w1 & H1 & H)].
    { apply size_raise_inv in H as [-> ->]. auto. }
    apply size_inv in H1 as ->.
    apply bind_inv_raise in H as [H|(v & w2 & H2 & H)].
    + apply bind_inv_raise in H as [H|(s & w3 & H3 & H)].
      * apply slice_raise_inv in H as [-> ->]; auto.
      * apply slice_inv in H3 as ->.
        apply slice_raise_inv in H as [-> ->]; auto.
    + apply bind_inv_ok in H2 as (s & w3 & H3 & H2).
      apply slice_inv in H3 as ->. apply slice_inv in H2 as ->.
      apply binary_raise_inv in H as [-> ->]. auto.
  - intros y w' H.
    apply bind_inv_ok in H as (n & w1 & H1 & H). apply size_inv in H1 as ->.
    apply bind_inv_ok in H as (v & w2 & H2 & H).
    apply bind_inv_ok in H2 as (s & w3 & H3 & H2).
    apply slice_inv in H3 as ->. apply slice_inv in H2 as ->.
    apply binary_ok_inv in H as (vs & -> & Hlen & Hst & Hoff & Hstr).
    by exists vs.
Qed.

Lemma forward_store_effect_witness :
  (empty_world = empty_world /\ (IndexError = IndexError \/ IndexError = RuntimeError))
  /\ exists y w' vs,
       PositionalEncoding.forward (PositionalEncoding.mk (pe_view 0 3 4))
         (mkTensor 1 0 [2; 5; 4] [20; 4; 1]) empty_world = (Ok y, w')
       /\ storages w' = storages empty_world ++ [vs]
       /\ length vs = numel (shape y).
Proof.
  split.
  - destruct (forward_store_effect (PositionalEncoding.mk (pe_view 0 3 4))
                (mkTensor 1 0 [] []) empty_world) as [H _].
    apply (H IndexError empty_world). reflexivity.
  - destruct (forward_run (PositionalEncoding.mk (pe_view 0 3 4))
                (mkTensor 1 0 [2; 5; 4] [20; 4; 1]) empty_world 2 5 4 3 _ _ _
                eq_refl eq_refl eq_refl eq_refl ltac:(lia))
      as (y & w' & Hrun & _).
    destruct (forward_store_effect (PositionalEncoding.mk (pe_view 0 3 4))
                (mkTensor 1 0 [2; 5; 4] [20; 4; 1]) empty_world) as [_ H].
    destruct (H y w' Hrun) as (vs & Hst & _ & Hlen & _).
    by exists y, w', vs.
Defined.

(** A tensor without dimension: [x.size(0)] raises IndexError. *)
Theorem forward_of_scalar_raises (self : PositionalEncoding.t) (x : Tensor) (w : World) :
  shape x = [] ->
  PositionalEncoding.forward self x w = (Raise IndexError, w).
Proof.
  intros Hx. unfold PositionalEncoding.forward, bind, size. by rewrite Hx.
Qed.

Lemma forward_of_scalar_raises_witness :
  PositionalEncoding.forward (PositionalEncoding.mk (pe_view 0 3 4))
    (mkTensor 1 0 [] []) empty_world = (Raise IndexError, empty_world).
Proof. apply forward_of_scalar_raises. reflexivity. Defined.

(** A sequence longer than the table: when the table has at least two lines
    and the batch [(L, B, D)] has more lines than the table, the addition
    raises RuntimeError and the store is as it was. *)
Theorem forward_beyond_table_raises
  (self : PositionalEncoding.t) (x : Tensor) (w : World) (L B D M : nat) :
  shape (PositionalEncoding.pe self) = [M; 1; D] ->
  wf (PositionalEncoding.pe self) ->
  shape x = [L; B; D] -> 1 < M -> M < L ->
  PositionalEncoding.forward self x w = (Raise RuntimeError, w).
Proof.
  intros Hsh Hwf Hx HM HL. unfold wf in Hwf. rewrite Hsh in Hwf.
  destruct (strides (PositionalEncoding.pe self)) as [|s0 [|s1 [|s2 [|? ?]]]] eqn:Hst;
    try done.
  by eapply forward_raise.
Qed.

Lemma forward_beyond_table_raises_witness :
  PositionalEncoding.forward (PositionalEncoding.mk (pe_view 0 3 4))
    (mkTensor 1 0 [5; 2; 4] [8; 4; 1]) empty_world
  = (Raise RuntimeError, empty_world).
Proof.
  apply (forward_beyond_table_raises _ _ _ 5 2 4 3);
    [reflexivity | reflexivity | reflexivity | lia | lia].
Defined.

(** A table of one line is never too short: with one line in the table and
    a batch of any length [L >= 1], the forward pass returns, and adds line 0
    of the table at every position. *)
Theorem forward_with_one_line_table
  (self : PositionalEncoding.t) (x : Tensor) (w : World) (L B D : nat) :
  shape (PositionalEncoding.pe self) = [1; 1; D] ->
  wf (PositionalEncoding.pe self) ->
  shape x = [L; B; D] -> wf x -> 1 <= L ->
  exists y w',
    PositionalEncoding.forward self x w = (Ok y, w')
    /\ shape y = [L; B; D]
    /\ forall l b k, l < L -> b < B -> k < D ->
         get w' y [l; b; k] = fadd (get w x [l; b; k]) (table w self 0 k).
Proof.
  intros Hsh Hwf Hx Hwfx HL. unfold wf in *. rewrite Hsh in Hwf. rewrite Hx in Hwfx.
  destruct (strides (PositionalEncoding.pe self)) as [|s0 [|s1 [|s2 [|? ?]]]] eqn:Hst;
    try done.
  set (v := mkTensor (storage (PositionalEncoding.pe self))
              (offset (PositionalEncoding.pe self)) [1; 1; D] [s0; s1; s2]).
  assert (Hbs : broadcast_shapes [L; B; D] [1; 1; D] = Some [L; B; D]).
  { unfold broadcast_shapes. cbn -[Nat.eqb]. eqb_cases; done || lia. }
  assert (Hv : exists v', expand v [L; B; D] = Some v' /\ storage v' = storage v
             /\ forall l b k, l < L -> b < B ->
                  addr v' [l; b; k] = addr v [0; 0; k]).
  { unfold expand, v. cbn -[Nat.eqb]. eqb_cases; try lia.
    all: eexists; split; [done|]; split; [done|];
      intros l b k Hl Hb; unfold addr; cbn; subst; lia. }
  destruct Hv as (v' & Hv' & Hv's & Hva).
  assert (Hx' : expand x [L; B; D] = Some x).
  { rewrite <- Hx. apply expand_same. by rewrite Hx. }
  eexists _, _. split; [|split].
  - unfold PositionalEncoding.forward.
    erewrite bind_ok; [|unfold size; by rewrite Hx].
    erewrite bind_ok; [|by eapply slice_rows].
    rewrite Nat.min_r by done. fold v. unfold add.
    erewrite binary_run; [done| |done|done].
    by rewrite Hx.
  - done.
  - intros l b k Hl Hb Hk.
    rewrite (get_fresh _ _ _ _ _ [l; b; k]); [|done|done|repeat constructor; done].
    f_equal. unfold table. apply get_view; [done|].
    rewrite Hva by done. unfold addr, v. cbn [offset strides]. by rewrite Hst.
Qed.

Lemma forward_with_one_line_table_witness :
  exists y w',
    PositionalEncoding.forward (PositionalEncoding.mk (pe_view 0 1 4))
      (mkTensor 1 0 [3; 2; 4] [8; 4; 1]) empty_world = (Ok y, w')
    /\ shape y = [3; 2; 4].
Proof.
  destruct (forward_with_one_line_table (PositionalEncoding.mk (pe_view 0 1 4))
              (mkTensor 1 0 [3; 2; 4] [8; 4; 1]) empty_world 3 2 4)
    as (y & w' & Hrun & Hsh & _);
    [reflexivity | reflexivity | reflexivity | reflexivity | lia |].
  by exists y, w'.
Defined.

(** A sequence without batch dimension: on an input of shape [(L, D)] the
    table line [(L, 1, D)] broadcasts against it, and the result has shape
    [(L, L, D)], with [x[j, k] + table[i, k]] at index [(i, j, k)]. *)
Theorem forward_of_unbatched_input
  (self : PositionalEncoding.t) (x : Tensor) (w : World) (L D M : nat) :
  shape (PositionalEncoding.pe self) = [M; 1; D] ->
  wf (PositionalEncoding.pe self) ->
  shape x = [L; D] -> wf x -> L <= M ->
  exists y w',
    PositionalEncoding.forward self x w = (Ok y, w')
    /\ shape y = [L; L; D]
    /\ forall i j k, i < L -> j < L -> k < D ->
         get w' y [i; j; k] = fadd (get w x [j; k]) (table w self i k).
Proof.
  intros Hsh Hwf Hx Hwfx HL. unfold wf in *. rewrite Hsh in Hwf. rewrite Hx in Hwfx.
  destruct (strides (PositionalEncoding.pe self)) as [|s0 [|s1 [|s2 [|? ?]]]] eqn:Hst;
    try done.
  destruct (strides x) as [|a [|c [|? ?]]] eqn:Hxst; try done.
  set (v := mkTensor (storage (PositionalEncoding.pe self))
              (offset (PositionalEncoding.pe self)) [L; 1; D] [s0; s1; s2]).
  destruct (expand_batch v L L D s0 s1 s2 eq_refl eq_refl) as (v' & Hv' & Hv's & Hva).
  assert (Hbs : broadcast_shapes [L; D] [L; 1; D] = Some [L; L; D]).
  { unfold broadcast_shapes. cbn -[Nat.eqb]. eqb_cases; try done; try lia.
    all: subst; done. }
  assert (Hx' : exists x', expand x [L; L; D] = Some x' /\ storage x' = storage x
             /\ forall i j k, addr x' [i; j; k] = addr x [j; k]).
  { unfold expand. rewrite Hx, Hxst. cbn -[Nat.eqb]. eqb_cases; try lia.
    all: eexists; split; [done|]; split; [done|];
      intros i j k; unfold addr; cbn; rewrite Hxst; cbn; lia. }
  destruct Hx' as (x' & Hx' & Hx's & Hxa).
  eexists _, _. split; [|split].
  - unfold PositionalEncoding.forward.
    erewrite bind_ok; [|unfold size; by rewrite Hx].
    erewrite bind_ok; [|by eapply slice_rows].
    rewrite Nat.min_l by done. fold v. unfold add.
    erewrite binary_run; [done| |done|done].
    by rewrite Hx.
  - done.
  - intros i j k Hi Hj Hk.
    rewrite (get_fresh _ _ _ _ _ [i; j; k]); [|done|done|repeat constructor; done].
    f_equal.
    + apply get_view; [done|]. apply Hxa.
    + unfold table. apply get_view; [done|].
      rewrite Hva by done. unfold addr, v. cbn [offset strides]. by rewrite Hst.
Qed.

Lemma forward_of_unbatched_input_witness :
  exists y w',
    PositionalEncoding.forward (PositionalEncoding.mk (pe_view 0 5 4))
      (mkTensor 1 0 [3; 4] [4; 1]) empty_world = (Ok y, w')
    /\ shape y = [3; 3; 4].
Proof.
  destruct (forward_of_unbatched_input (PositionalEncoding.mk (pe_view 0 5 4))
              (mkTensor 1 0 [3; 4] [4; 1]) empty_world 3 4 5)
    as (y & w' & Hrun & Hsh & _);
    [reflexivity | reflexivity | reflexivity | reflexivity | lia |].
  by exists y, w'.
Defined.

(** A batch of another width: when the last dimension of the input is
    neither that of the table nor 1, and the table is wider than one column,
    the addition raises RuntimeError. *)
Theorem forward_of_other_width_raises
  (self : PositionalEncoding.t) (x : Tensor) (w : World) (L B D D' M : nat) :
  shape (PositionalEncoding.pe self) = [M; 1; D] ->
  wf (PositionalEncoding.pe self) ->
  shape x = [L; B; D'] -> D' <> D -> D' <> 1 -> D <> 1 ->
  PositionalEncoding.forward self x w = (Raise RuntimeError, w).
Proof.
  intros Hsh Hwf Hx Hne H1 H1'. unfold wf in Hwf. rewrite Hsh in Hwf.
  destruct (strides (PositionalEncoding.pe self)) as [|s0 [|s1 [|s2 [|? ?]]]] eqn:Hst;
    try done.
  unfold PositionalEncoding.forward.
  erewrite bind_ok; [|unfold size; by rewrite Hx].
  erewrite bind_ok; [|by eapply slice_rows].
  unfold add, binary, broadcast_shapes. rewrite Hx. cbn -[Nat.eqb].
  destruct (Nat.eqb_spec D' D); [done|]. destruct (Nat.eqb_spec D' 1); [done|].
  destruct (Nat.eqb_spec D 1); [done|]. done.
Qed.

Lemma forward_of_other_width_raises_witness :
  PositionalEncoding.forward (PositionalEncoding.mk (pe_view 0 3 4))
    (mkTensor 1 0 [2; 2; 6] [12; 6; 1]) empty_world
  = (Raise RuntimeError, empty_world).
Proof.
  apply (forward_of_other_width_raises _ _ _ 2 2 4 6 3);
    [reflexivity | reflexivity | reflexivity | lia | lia | lia].
Defined.

End ForwardExtras.

(** ** Construction and forward pass together *)

Section Compose.
Import Torch.

(** Where the position and the column are floats, the entry the code
    computes is the entry of the direct-power formula. *)
Lemma encoding_direct (d_model : Z) (p k : nat) :
  (0 < d_model)%Z ->
  (Z.of_nat p <= 16777216)%Z -> (Z.of_nat k <= 33554432)%Z ->
  encoding d_model p k = Fin (positional_encoding_direct d_model p k).
Proof.
  intros Hd Hp Hk. unfold encoding, positional_encoding_direct.
  rewrite angle_direct; [by destruct (Nat.even k)|done|done|].
  pose proof (Nat.Div0.mul_div_le k 2). lia.
Qed.



(** Two passes: the forward pass applied to its own result returns, and
    adds the table a second time: its element is
    [(x[l, b, k] + table[l, k]) + table[l, k]]. *)
Theorem forward_twice_adds_table_twice
  (self : PositionalEncoding.t) (x : Tensor) (w : World) (L B D M : nat) :
  shape (PositionalEncoding.pe self) = [M; 1%nat; D] ->
  wf (PositionalEncoding.pe self) ->
  (storage (PositionalEncoding.pe self) < length (storages w))%nat ->
  shape x = [L; B; D] -> wf x -> (L <= M)%nat ->
  exists y w1 z w2,
    PositionalEncoding.forward self x w = (Ok y, w1)
    /\ PositionalEncoding.forward self y w1 = (Ok z, w2)
    /\ shape z = shape x
    /\ forall l b k, (l < L)%nat -> (b < B)%nat -> (k < D)%nat ->
         get w2 z [l; b; k]
         = fadd (fadd (get w x [l; b; k]) (table w self l k)) (table w self l k).
Proof.
  intros Hsh Hwf Hlt Hx Hwfx HL. unfold wf in *. rewrite Hsh in Hwf. rewrite Hx in Hwfx.
  destruct (strides (PositionalEncoding.pe self)) as [|s0 [|s1 [|s2 [|? ?]]]] eqn:Hst;
    try done.
  destruct (forward_run self x w L B D M s0 s1 s2 Hsh Hst Hx Hwfx HL)
    as (y & w1 & Hrun1 & Hy & Hyst & _ & Hext & Hval1).
  destruct (forward_run self y w1 L B D M s0 s1 s2 Hsh Hst Hy)
    as (z & w2 & Hrun2 & Hz & _ & _ & _ & Hval2); [by rewrite Hyst|done|].
  exists y, w1, z, w2. split; [done|]. split; [done|]. split; [congruence|].
  intros l b k Hl Hb Hk. rewrite Hval2, Hval1 by done. f_equal.
  unfold table. by apply get_extends.
Qed.

Lemma forward_twice_adds_table_twice_witness :
  exists y w1 z w2,
    PositionalEncoding.forward (PositionalEncoding.mk (pe_view 0 3 4))
      (mkTensor 1 0 [2; 5; 4] [20; 4; 1])
      {| storages := [[]; []]; rng := 0 |} = (Ok y, w1)
    /\ PositionalEncoding.forward (PositionalEncoding.mk (pe_view 0 3 4)) y w1
       = (Ok z, w2)
    /\ shape z = [2%nat; 5%nat; 4%nat].
Proof.
  destruct (forward_twice_adds_table_twice (PositionalEncoding.mk (pe_view 0 3 4))
              (mkTensor 1 0 [2; 5; 4] [20; 4; 1])
              {| storages := [[]; []]; rng := 0 |} 2 5 4 3)
    as (y & w1 & z & w2 & H1 & H2 & Hsh & _);
    [reflexivity | reflexivity | simpl; lia | reflexivity | reflexivity | lia |].
  by exists y, w1, z, w2.
Defined.

End Compose.

(** ** More on [TransformerModel] *)

Section ModelExtras.
Import Torch.

(** The positional encoder is built first, so its failures are those of the
    model, whatever the layers: a negative d_model raises RuntimeError, a
    d_model of 0 ZeroDivisionError, an odd d_model of at least 3
    RuntimeError. *)
Theorem model_construction_fails_with_encoder {L : Layers}
  (ntoken d_model nhead nhid nlayers : Z) (dropout : option R) (w : World) :
  ((d_model < 0)%Z ->
   TransformerModel.__init__ ntoken d_model nhead nhid nlayers dropout w
   = (Raise RuntimeError, w))
  /\ (d_model = 0%Z ->
      exists w', TransformerModel.__init__ ntoken d_model nhead nhid nlayers dropout w
                 = (Raise ZeroDivisionError, w'))
  /\ ((3 <= d_model)%Z -> Z.odd d_model = true ->
      exists w', TransformerModel.__init__ ntoken d_model nhead nhid nlayers dropout w
                 = (Raise RuntimeError, w')).
Proof.
  unfold TransformerModel.__init__. cbv zeta. rewrite init_some. cbn [default].
  split; [|split].
  - intros Hd. erewrite bind_raise; [done|]. apply init_negative. by right.
  - intros ->. destruct (init_zero 5000 w) as (w' & Hrun); [lia|].
    exists w'. by erewrite bind_raise.
  - intros Hd Ho. destruct (init_odd d_model 5000 w) as (w' & Hrun); [lia|done|done|].
    exists w'. by erewrite bind_raise.
Qed.

Lemma model_construction_fails_with_encoder_witness :
  (exists w', TransformerModel.__init__ (L := ZeroLayers.layers) 10 0 1 2 2 None
                empty_world = (Raise ZeroDivisionError, w'))
  /\ (exists w', TransformerModel.__init__ (L := ZeroLayers.layers) 10 5 1 2 2 None
                   empty_world = (Raise RuntimeError, w')).
Proof.
  split.
  - destruct (model_construction_fails_with_encoder (L := ZeroLayers.layers)
                10 0 1 2 2 None empty_world) as (_ & H & _). by apply H.
  - destruct (model_construction_fails_with_encoder (L := ZeroLayers.layers)
                10 5 1 2 2 None empty_world) as (_ & _ & H). apply H; [lia|done].
Defined.

(** What the encoder stack is given: the forward pass of the model hands to
    the encoder the tensor whose element (l, b, k) is
    [embedding[l, b, k] * sqrt(d_model) + table[l, k]], and returns what the
    encoder and then the decoder make of it. *)
Theorem model_forward_feeds_scaled_embedding {L : Layers} {HL : LayersSpec L}
  (ntoken d nhead nhid nlayers : Z) (dropout : option R) (w0 : World)
  (model : TransformerModel.t) (w : World)
  (src src_mask : Tensor) (n b : nat) (w1 : World) :
  TransformerModel.__init__ ntoken d nhead nhid nlayers dropout w0 = (Ok model, w) ->
  shape src = [n; b] -> tokens_in_range w1 src ntoken ->
  (Z.of_nat n <= 5000)%Z ->
  exists e w2 w2' y w3,
    Embedding_forward (TransformerModel.encoder model) src w1 = (Ok e, w2)
    /\ extends w2 w2' /\ extends w2' w3
    /\ shape y = [n; b; Z.to_nat d]
    /\ TransformerModel.forward model src src_mask w1
       = (output <- TransformerEncoder_forward
                      (TransformerModel.transformer_encoder model) y src_mask ;;
          output <- Linear_forward (TransformerModel.decoder model) output ;;
          ret output) w3
    /\ forall l b' k, l < n -> b' < b -> k < Z.to_nat d ->
         get w3 y [l; b'; k]
         = fadd (fmul (get w2 e [l; b'; k]) (Fin (sqrt (IZR d))))
                (table w2' (TransformerModel.pos_encoder model) l k).
Proof.
  intros Hinit Hsrc Htok Hn.
  pose proof (model_pos_encoder _ _ _ _ _ _ _ _ _ Hinit) as (Hd & Hpsh & Hpst).
  pose proof (model_init_inv _ _ _ _ _ _ _ _ _ Hinit)
    as (wa & wb & wc & wd & we & lay & _ & _ & _ & Hemb & _ & Hdm).
  destruct (Embedding_forward_shape _ _ _ _ _ Hemb w1 src n b Hsrc Htok)
    as (e & w2 & Hrun & Hsh).
  set (c := sqrt (IZR d)).
  set (x := mkTensor (length (storages w2)) 0 (shape e) (contiguous (shape e))).
  set (w2' := alloc w2 ((fun idx => fmul (get w2 e idx) (Fin c)) <$> indices (shape e))).
  assert (Hx : (e <- Embedding_forward (TransformerModel.encoder model) src ;;
                c <- math_sqrt (TransformerModel.d_model model) ;;
                mul_scalar e c) w1 = (Ok x, w2')).
  { rewrite (bind_ok _ _ _ _ _ Hrun).
    erewrite bind_ok; cycle 1.
    { unfold math_sqrt. rewrite Hdm. destruct (Z.ltb_spec d 0); [lia|done]. }
    done. }
  destruct (forward_run (TransformerModel.pos_encoder model) x w2' n b (Z.to_nat d)
              (Z.to_nat 5000) _ _ _ Hpsh Hpst Hsh)
    as (y & w3 & Hy & Hysh & _ & _ & Hext & Hval).
  { cbn [x strides]. by rewrite length_contiguous, Hsh. }
  { lia. }
  exists e, w2, w2', y, w3. split; [done|]. split; [apply extends_alloc|].
  split; [done|]. split; [done|]. split.
  - unfold TransformerModel.forward.
    rewrite (bind_ok _ _ _ _ _ Hx), (bind_ok _ _ _ _ _ Hy). done.
  - intros l b' k Hl Hb Hk. rewrite Hval by done. f_equal.
    unfold w2'. rewrite Hsh.
    rewrite (get_fresh _ _ _ _ _ [l; b'; k]); [done|done| |repeat constructor; done].
    unfold x, addr. cbn [offset strides]. by rewrite Hsh.
Qed.

Lemma model_forward_feeds_scaled_embedding_witness :
  exists model w src w1 e w2,
    TransformerModel.__init__ (L := ZeroLayers.layers) 10 2 1 2 2 None empty_world
    = (Ok model, w)
    /\ tensor_new [3; 1] (fun _ => Fin (IZR 0)) w = (Ok src, w1)
    /\ Embedding_forward (TransformerModel.encoder model) src w1 = (Ok e, w2).
Proof.
  destruct zero_model_init as (model & w & Hinit).
  destruct (zero_tokens 3 10 w) as (src & w1 & Hsrc & Hsh & Htok); [lia|].
  destruct (model_forward_feeds_scaled_embedding (HL := zero_layers_spec)
              10 2 1 2 2 None empty_world model w src (mkTensor 0 0 [3; 3] [0; 0])
              3 1 w1 Hinit Hsh Htok ltac:(lia)) as (e & w2 & _ & _ & _ & He & _).
  by exists model, w, src, w1, e, w2.
Defined.

Lemma spares_of_allocates {A} (n : nat) (c : M A) : allocates c -> spares n c.
Proof.
  intros Hc w Hn. destruct (keeps_of_allocates n c Hc w Hn) as (_ & H1 & H2). done.
Qed.

Lemma spares_bind_post {A B} (n : nat) (Q : A -> Prop) (c : M A) (k : A -> M B) :
  spares n c ->
  (forall w a w', c w = (Ok a, w') -> Q a) ->
  (forall a, Q a -> spares n (k a)) ->
  spares n (bind c k).
Proof.
  intros Hc HQ Hk w Hn. specialize (Hc w Hn). specialize (HQ w).
  unfold bind. destruct (c w) as [[a|e] w1]; [|done].
  cbn [snd] in Hc. destruct Hc as (Hlen & Hl).
  destruct (Hk a (HQ a w1 eq_refl) w1 ltac:(lia)) as (Hlen' & Hl').
  split; [lia|]. intros l Hlt. rewrite Hl' by done. by apply Hl.
Qed.

Lemma spares_run {A} (n : nat) (c : M A) w r w' :
  spares n c -> n <= length (storages w) -> c w = (r, w') ->
  length (storages w) <= length (storages w')
  /\ forall l, l < n -> storages w' !! l = storages w !! l.
Proof. intros Hc Hn Hrun. specialize (Hc w Hn). by rewrite Hrun in Hc. Qed.

(** A successful construction of the model, with the run of
    [init_weights]. *)
Lemma model_init_inv_weights {L : Layers}
  ntoken d nhead nhid nlayers dropout w0 model w :
  TransformerModel.__init__ ntoken d nhead nhid nlayers dropout w0 = (Ok model, w) ->
  exists wa wb wc wd we lay,
    PositionalEncoding.__init__ d None w0
    = (Ok (TransformerModel.pos_encoder model), wa)
    /\ nn_TransformerEncoderLayer d nhead nhid (default (1 / 2)%R dropout) wa
       = (Ok lay, wb)
    /\ nn_TransformerEncoder lay nlayers wb
       = (Ok (TransformerModel.transformer_encoder model), wc)
    /\ nn_Embedding ntoken d wc = (Ok (TransformerModel.encoder model), wd)
    /\ nn_Linear d ntoken wd = (Ok (TransformerModel.decoder model), we)
    /\ TransformerModel.init_weights model we = (Ok tt, w).
Proof.
  unfold TransformerModel.__init__. intros H.
  apply bind_inv_ok in H as (pos & wa & Hpos & H).
  apply bind_inv_ok in H as (lay & wb & Hlay & H).
  apply bind_inv_ok in H as (enc & wc & Henc & H).
  apply bind_inv_ok in H as (emb & wd & Hemb & H).
  apply bind_inv_ok in H as (lin & we & Hlin & H).
  apply bind_inv_ok in H as ([] & wf' & Hiw & H).
  injection H as <- <-. by exists wa, wb, wc, wd, we, lay.
Qed.

(** The table of a model: when the constructors and initialisers of the
    layers write only to storages of their own, the model that
    [TransformerModel.__init__] returns holds, after [init_weights], the
    5000 lines its positional encoder computed: the sinusoids of the
    direct-power formula, in every column of at most [2^25] (a column index
    that is a float). *)
Theorem model_table_is_sinusoidal {L : Layers} {HF : LayersFrame L}
  (ntoken d nhead nhid nlayers : Z) (dropout : option R) (w0 : World)
  (model : TransformerModel.t) (w : World) :
  TransformerModel.__init__ ntoken d nhead nhid nlayers dropout w0 = (Ok model, w) ->
  shape (PositionalEncoding.pe (TransformerModel.pos_encoder model))
  = [Z.to_nat 5000; 1; Z.to_nat d]
  /\ forall p k, (Z.of_nat p < 5000)%Z -> (Z.of_nat k < d)%Z ->
       table w (TransformerModel.pos_encoder model) p k = encoding d p k
       /\ ((Z.of_nat k <= 2 ^ 25)%Z ->
           table w (TransformerModel.pos_encoder model) p k
           = Fin (positional_encoding_direct d p k)).
Proof.
  intros Hinit.
  apply model_init_inv_weights in Hinit
    as (wa & wb & wc & wd & we & lay & Hpos & Hlay & Henc & Hemb & Hlin & Hiw).
  pose proof (nn_Embedding_fresh _ _ _ _ _ Hemb) as Hfe.
  pose proof (nn_Linear_fresh _ _ _ _ _ Hlin) as [Hfw Hfb].
  apply init_inv in Hpos as (Hself & _ & Hlt & Hd & Hval).
  cbn [default] in Hself, Hval.
  set (n := S (length (storages w0))).
  assert (Hna : n <= length (storages wa)) by (unfold n; lia).
  destruct (spares_run n _ _ _ _ (nn_TransformerEncoderLayer_spares _ _ _ _ n) Hna Hlay)
    as (Hlb & Hb).
  assert (Hnb : n <= length (storages wb)) by lia.
  destruct (spares_run n _ _ _ _ (nn_TransformerEncoder_spares _ _ n) Hnb Henc)
    as (Hlc & Hc).
  assert (Hnc : n <= length (storages wc)) by lia.
  destruct (spares_run n _ _ _ _ (nn_Embedding_spares _ _ n) Hnc Hemb)
    as (Hld & Hdd).
  assert (Hnd : n <= length (storages wd)) by lia.
  destruct (spares_run n _ _ _ _ (nn_Linear_spares _ _ n) Hnd Hlin)
    as (Hle & He).
  assert (Hne : n <= length (storages we)) by lia.
  assert (Hsp : spares n (TransformerModel.init_weights model)).
  { unfold TransformerModel.init_weights. cbv zeta.
    apply (spares_bind_post n (fun _ => True)); [|done|intros _ _].
    { apply uniform_spares. lia. }
    apply (spares_bind_post n (fun _ => True)); [|done|intros _ _].
    { apply zero_spares. lia. }
    apply uniform_spares. lia. }
  destruct (spares_run n _ _ _ _ Hsp Hne Hiw) as (Hlw & Hw).
  rewrite Hself. cbn [PositionalEncoding.pe]. split; [done|].
  intros p k Hp Hk.
  assert (Ht : table w (PositionalEncoding.mk
                          (pe_view (length (storages w0)) (Z.to_nat 5000) (Z.to_nat d)))
                 p k = encoding d p k).
  { rewrite <- Hval by lia. rewrite Hself. unfold table. cbn [PositionalEncoding.pe].
    apply get_same_storage. cbn [pe_view storage].
    rewrite Hw, He, Hdd, Hc, Hb by (unfold n; lia). done. }
  split; [done|]. intros Hk25. rewrite Ht. apply encoding_direct; [done|lia|done].
Qed.

Lemma zero_layers_frame : LayersFrame ZeroLayers.layers.
Proof.
  split.
  - intros d nhead nhid dropout n. apply spares_of_allocates, allocates_ret.
  - intros l nlayers n. apply spares_of_allocates, allocates_ret.
  - intros ntoken d n. apply spares_of_allocates.
    apply allocates_bind; [apply allocates_zeros|intros a; apply allocates_ret].
  - intros d_in d_out n. apply spares_of_allocates.
    apply allocates_bind; [apply allocates_zeros|intros a].
    apply allocates_bind; [apply allocates_zeros|intros a'; apply allocates_ret].
  - intros ntoken d w e w' Hrun.
    apply bind_inv_ok in Hrun as (weight & w1 & Hz & Hret).
    injection Hret as <- _. apply zeros_storage in Hz. cbn. lia.
  - intros d_in d_out w lin w' Hrun.
    apply bind_inv_ok in Hrun as (weight & w1 & Hz & Hrun).
    apply bind_inv_ok in Hrun as (bias & w2 & Hz' & Hret).
    injection Hret as <- _.
    pose proof (allocates_zeros [d_out; d_in] w) as [_ [ext Hext]].
    rewrite Hz in Hext. cbn [snd] in Hext.
    apply zeros_storage in Hz, Hz'. cbn. rewrite Hz', Hext, length_app. lia.
  - intros t lo hi n _ w Hn. done.
  - intros t n _. apply spares_of_allocates, allocates_ret.
Qed.

Lemma model_table_is_sinusoidal_witness :
  exists model w,
    TransformerModel.__init__ (L := ZeroLayers.layers) 10 2 1 2 2 None empty_world
    = (Ok model, w)
    /\ shape (PositionalEncoding.pe (TransformerModel.pos_encoder model))
       = [Z.to_nat 5000; 1; Z.to_nat 2]
    /\ forall p k, (Z.of_nat p < 5000)%Z -> (Z.of_nat k < 2)%Z ->
         table w (TransformerModel.pos_encoder model) p k
         = Fin (positional_encoding_direct 2 p k).
Proof.
  destruct zero_model_init as (model & w & Hinit).
  exists model, w. split; [exact Hinit|].
  destruct (model_table_is_sinusoidal (HF := zero_layers_frame)
              10 2 1 2 2 None empty_world model w Hinit) as [Hsh Hval].
  split; [exact Hsh|]. intros p k Hp Hk.
  destruct (Hval p k Hp Hk) as [_ H]. apply H. lia.
Defined.

End ModelExtras.
